(** * batdroid: the UI-hierarchy parser and its tree utilities

    A shallow embedding of [hierarchy.ts] (bounds codec, structural parser,
    capture post-processing, element search, compact rendering, flattening,
    element centre) together with the properties stated for it.

    Conventions of the embedding.
    - A JavaScript string is the list of its UTF-16 code units ([list N]).
    - A JavaScript number that holds an integer, an infinity or NaN is a
      [jsnum]; arithmetic rounds to the nearest double (ties to even) as
      IEEE 754 does, so the loss of precision above 2^53 is part of the
      model.  The sign of zero is not tracked.
    - A regular expression literal is a [regex] term run by a backtracking
      matcher that explores alternatives in the order ECMAScript fixes.
    - Objects that the code shares or mutates live in an explicit heap
      (module [Heap]); the pure tree functions come first and the heap
      versions are proved to compute the same results. *)

From Stdlib Require Import ZArith NArith QArith Qround Bool Ascii String Lia.
From stdpp Require Import base option list numbers.

Local Open Scope Z_scope.

(* ===================================================================== *)
(** ** Strings *)
(* ===================================================================== *)

(** A string value: its UTF-16 code units. *)
Definition jsstring : Type := list N.

(** Literals of the source, written as Rocq strings. *)
Definition str (s : string) : jsstring :=
  map N_of_ascii (list_ascii_of_string s).

(** Literals that contain double quotes are written with an apostrophe
    in place of each double quote. *)
Definition strq (s : string) : jsstring :=
  map (fun c => if (c =? 39)%N then 34%N else c) (str s).

Arguments str : simpl never.
Arguments strq : simpl never.

(** [a === b] on strings. *)
Definition jseq (a b : jsstring) : bool := bool_decide (a = b).

(** [s.startsWith(p)] and [s.endsWith(p)]. *)
Fixpoint startsWith (p s : jsstring) : bool :=
  match p, s with
  | [], _ => true
  | c :: p', d :: s' => (c =? d)%N && startsWith p' s'
  | _ :: _, [] => false
  end.

Definition endsWith (p s : jsstring) : bool :=
  startsWith (rev p) (rev s).

(** [s.includes(p)]: some suffix of [s] starts with [p]. *)
Fixpoint includes (p s : jsstring) : bool :=
  startsWith p s ||
  match s with
  | [] => false
  | _ :: s' => includes p s'
  end.

(** [s.slice(a)] and [s.slice(0, b)] for indices inside the usual range. *)
Definition slice_from (a : nat) (s : jsstring) : jsstring := drop a s.
Definition slice_to (b : nat) (s : jsstring) : jsstring := take b s.

(** [s.split(c)] for a one-character separator: never the empty array. *)
Fixpoint split (c : N) (s : jsstring) : list jsstring :=
  match s with
  | [] => [[]]
  | d :: s' =>
      if (d =? c)%N then [] :: split c s'
      else match split c s' with
           | [] => [[d]]
           | w :: ws => (d :: w) :: ws
           end
  end.

(** [xs.pop()] read as a value: the last entry ([undefined] when empty). *)
Fixpoint pop_value {A} (xs : list A) : option A :=
  match xs with
  | [] => None
  | [x] => Some x
  | _ :: rest => pop_value rest
  end.

(** [xs.join(sep)]. *)
Fixpoint join (sep : jsstring) (xs : list jsstring) : jsstring :=
  match xs with
  | [] => []
  | [x] => x
  | x :: rest => x ++ sep ++ join sep rest
  end.

(** [s.repeat(n)]. *)
Fixpoint repeat_str (s : jsstring) (n : nat) : jsstring :=
  match n with
  | O => []
  | S n' => s ++ repeat_str s n'
  end.

(** [s.lastIndexOf(c)] for a single character; [None] stands for -1. *)
Fixpoint lastIndexOf (c : N) (s : jsstring) : option nat :=
  match s with
  | [] => None
  | d :: s' =>
      match lastIndexOf c s' with
      | Some i => Some (S i)
      | None => if (d =? c)%N then Some O else None
      end
  end.

(** White space and line terminators: the class [\s], also what [trim]
    removes. *)
Definition is_space (c : N) : bool :=
  ((9 <=? c) && (c <=? 13) || (c =? 32) || (c =? 160) || (c =? 5760)
   || (8192 <=? c) && (c <=? 8202) || (c =? 8232) || (c =? 8233)
   || (c =? 8239) || (c =? 8287) || (c =? 12288) || (c =? 65279))%N.

(** Line terminators, which [.] does not match. *)
Definition is_line_terminator (c : N) : bool :=
  ((c =? 10) || (c =? 13) || (c =? 8232) || (c =? 8233))%N.

(** The class [\d]. *)
Definition is_digit (c : N) : bool := ((48 <=? c) && (c <=? 57))%N.

Fixpoint trimStart (s : jsstring) : jsstring :=
  match s with
  | c :: s' => if is_space c then trimStart s' else s
  | [] => []
  end.

(** The longest prefix made of characters of a class. *)
Fixpoint take_while (p : N -> bool) (s : jsstring) : jsstring :=
  match s with
  | c :: s' => if p c then c :: take_while p s' else []
  | [] => []
  end.

Definition trim (s : jsstring) : jsstring :=
  rev (trimStart (rev (trimStart s))).

(* ===================================================================== *)
(** ** Regular expressions *)
(* ===================================================================== *)

Module Regex.

(** A set of code units, as its membership test. *)
Definition charset : Type := N -> bool.

Definition one (c : N) : charset := fun d => (d =? c)%N.
Definition none_of (c : N) : charset := fun d => negb (d =? c)%N.
Definition dot : charset := fun d => negb (is_line_terminator d).

(** Canonicalisation of the [i] flag, on the code units the patterns of
    this program contain (ASCII): a lower-case ASCII letter becomes its
    upper-case letter.  A code unit above 127 never canonicalises to an
    ASCII one, so leaving it in place decides the same matches. *)
Definition canonicalize (c : N) : N :=
  if ((97 <=? c) && (c <=? 122))%N then (c - 32)%N else c.

Definition one_i (c : N) : charset :=
  fun d => (canonicalize d =? canonicalize c)%N.

(** The constructs the patterns of the program use.  Every quantifier of
    the source applies to a single character class. *)
Inductive regex : Type :=
| Eps
| Chr (p : charset)
| Seq (r1 r2 : regex)
| Alt (r1 r2 : regex)
| Star (greedy : bool) (p : charset)
| Group (i : nat) (r : regex)
| AtEnd.

(** [p+] is [p p*] and [r?] is [r|ε]: same matches, tried in the same
    order. *)
Definition Plus (greedy : bool) (p : charset) : regex :=
  Seq (Chr p) (Star greedy p).
Definition Opt (r : regex) : regex := Alt r Eps.

(** A literal run of characters, with and without the [i] flag. *)
Fixpoint Lit (s : jsstring) : regex :=
  match s with
  | [] => Eps
  | c :: s' => Seq (Chr (one c)) (Lit s')
  end.

Fixpoint LitI (s : jsstring) : regex :=
  match s with
  | [] => Eps
  | c :: s' => Seq (Chr (one_i c)) (LitI s')
  end.

(** Captures: entry [i] is what group [i] matched, [None] for undefined. *)
Definition captures : Type := list (option jsstring).

Section Matcher.
Context {A : Type}.

(** Greedy and lazy repetition of a class in front of a continuation. *)
Fixpoint star_greedy (p : charset) (k : jsstring -> option A)
    (s : jsstring) : option A :=
  match s with
  | c :: s' =>
      if p c then
        match star_greedy p k s' with
        | Some x => Some x
        | None => k s
        end
      else k s
  | [] => k []
  end.

Fixpoint star_lazy (p : charset) (k : jsstring -> option A)
    (s : jsstring) : option A :=
  match k s with
  | Some x => Some x
  | None =>
      match s with
      | c :: s' => if p c then star_lazy p k s' else None
      | [] => None
      end
  end.

(** The backtracking matcher, in continuation style: [k] is what must
    still match after [r]; the first success in priority order wins. *)
Fixpoint run (r : regex) (s : jsstring) (caps : captures)
    (k : jsstring -> captures -> option A) : option A :=
  match r with
  | Eps => k s caps
  | Chr p =>
      match s with
      | c :: s' => if p c then k s' caps else None
      | [] => None
      end
  | Seq r1 r2 => run r1 s caps (fun s' caps' => run r2 s' caps' k)
  | Alt r1 r2 =>
      match run r1 s caps k with
      | Some x => Some x
      | None => run r2 s caps k
      end
  | Star true p => star_greedy p (fun s' => k s' caps) s
  | Star false p => star_lazy p (fun s' => k s' caps) s
  | Group i r1 =>
      run r1 s caps (fun s' caps' =>
        k s' (<[i := Some (take (length s - length s') s)]> caps'))
  | AtEnd =>
      match s with
      | [] => k [] caps
      | _ :: _ => None
      end
  end.
End Matcher.

(** The result of a successful match: [m_full] is [match[0]], [m_groups]
    holds [match[1]], [match[2]], ... from index 1 on (index 0 unused),
    [m_index] the position of the match, [m_rest] the input after it. *)
Record match_result : Type := MatchResult {
  m_index : nat;
  m_full : jsstring;
  m_groups : captures;
  m_rest : jsstring
}.

(** [match[i]] for a group the pattern has. *)
Definition group (m : match_result) (i : nat) : jsstring :=
  match m_groups m !! i with
  | Some (Some g) => g
  | _ => []
  end.

(** One attempt at the current position, [ngroups] capture slots. *)
Definition match_here (ngroups : nat) (r : regex) (s : jsstring)
    : option (jsstring * captures) :=
  run r s (replicate (S ngroups) None) (fun s' caps => Some (s', caps)).

(** The unanchored search: positions are tried from left to right. *)
Fixpoint search_from (ngroups : nat) (r : regex) (idx : nat) (s : jsstring)
    : option match_result :=
  match match_here ngroups r s with
  | Some (rest, caps) =>
      Some (MatchResult idx (take (length s - length rest) s) caps rest)
  | None =>
      match s with
      | [] => None
      | _ :: s' => search_from ngroups r (S idx) s'
      end
  end.

(** [s.match(re)] for a pattern without the [g] flag. *)
Definition exec (ngroups : nat) (r : regex) (s : jsstring)
    : option match_result :=
  search_from ngroups r 0 s.

(** [s.replace(re, "")] for a pattern without the [g] flag: the first
    match is cut out. *)
Definition replace_empty (ngroups : nat) (r : regex) (s : jsstring)
    : jsstring :=
  match exec ngroups r s with
  | Some m => take (m_index m) s ++ m_rest m
  | None => s
  end.

(** The loop [while ((m = re.exec(s)) !== null)] for a pattern with the
    [g] flag that never matches the empty string: each search resumes
    where the previous match ended.  [fuel] bounds the number of matches;
    the length of the input plus one is always enough. *)
Fixpoint exec_all (fuel : nat) (ngroups : nat) (r : regex) (s : jsstring)
    : list match_result :=
  match fuel with
  | O => []
  | S fuel' =>
      match exec ngroups r s with
      | Some m => m :: exec_all fuel' ngroups r (m_rest m)
      | None => []
      end
  end.

End Regex.

(* ===================================================================== *)
(** ** Numbers *)
(* ===================================================================== *)

(** The number values this program computes with: integers, the two
    infinities and NaN.  [JNum z] stands for the double whose value is
    the integer [z]. *)
Inductive jsnum : Type :=
| JNum (z : Z)
| JInf (negative : bool)
| JNaN.

#[global] Instance jsnum_eq_dec : EqDecision jsnum.
Proof. solve_decision. Defined.

(** Rounding of an integer to 53 significant bits, ties to even, with an
    unbounded exponent. *)
Definition round_sig (n : Z) : Z :=
  let a := Z.abs n in
  if a <? 2 ^ 53 then n
  else
    let e := Z.log2 a - 52 in
    let q := Z.shiftr a e in
    let r := a - Z.shiftl q e in
    let h := Z.shiftl 1 (e - 1) in
    let q' := if (h <? r) || ((r =? h) && Z.odd q) then q + 1 else q in
    Z.sgn n * Z.shiftl q' e.

(** The double nearest to an integer; beyond the largest double the result
    is an infinity. *)
Definition to_double (n : Z) : jsnum :=
  let r := round_sig n in
  if 2 ^ 1024 <=? Z.abs r then JInf (n <? 0) else JNum r.

(** [a - b]. *)
Definition js_sub (a b : jsnum) : jsnum :=
  match a, b with
  | JNaN, _ | _, JNaN => JNaN
  | JNum x, JNum y => to_double (x - y)
  | JInf s, JInf s' => if Bool.eqb s s' then JNaN else JInf s
  | JInf s, JNum _ => JInf s
  | JNum _, JInf s => JInf (negb s)
  end.

(** Halves of integers, which [width / 2] produces: [HNum n] is the double
    of value [n/2]. *)
Inductive jshalf : Type :=
| HNum (n : Z)
| HInf (negative : bool)
| HNaN.

(** [w / 2]: exact on a double that holds an integer. *)
Definition js_div2 (w : jsnum) : jshalf :=
  match w with
  | JNum b => HNum b
  | JInf s => HInf s
  | JNaN => HNaN
  end.

(** The double nearest to [n/2]. Below 2^52 halves are doubles; from
    there on doubles are integers, spaced by the rounding of [n]. *)
Definition to_double_half (n : Z) : jshalf :=
  if Z.abs n <? 2 ^ 53 then HNum n
  else
    let r := round_sig n in
    if 2 ^ 1025 <=? Z.abs r then HInf (n <? 0) else HNum r.

(** [x + h] for an integer [x] and a half [h]. *)
Definition js_add_half (x : jsnum) (h : jshalf) : jshalf :=
  match x, h with
  | JNaN, _ | _, HNaN => HNaN
  | JNum a, HNum n => to_double_half (2 * a + n)
  | JInf s, HInf s' => if Bool.eqb s s' then HInf s else HNaN
  | JInf s, HNum _ => HInf s
  | JNum _, HInf s => HInf s
  end.

(** [Math.round]: the nearest integer, a tie going towards +∞. *)
Definition Math_round (h : jshalf) : jsnum :=
  match h with
  | HNum n => JNum ((n + 1) / 2)
  | HInf s => JInf s
  | HNaN => JNaN
  end.

(** [d > m] for a depth counter [d]. *)
Definition js_gt (d : nat) (m : jsnum) : bool :=
  match m with
  | JNum z => z <? Z.of_nat d
  | JInf negative => negative
  | JNaN => false
  end.

(** *** [parseInt(s, 10)] *)

Definition digit_value (c : N) : Z := Z.of_N c - 48.

(** The value of a run of decimal digits. *)
Definition decimal_value (ds : jsstring) : Z :=
  fold_left (fun acc c => 10 * acc + digit_value c) ds 0.

(** Leading white space is skipped, a sign is read, then the longest run
    of digits; no digit at all gives NaN.  The integer read is rounded to
    the nearest double. *)
Definition parseInt10 (s : jsstring) : jsnum :=
  let s1 := trimStart s in
  let '(neg, s2) :=
    match s1 with
    | c :: r =>
        if (c =? 45)%N then (true, r)
        else if (c =? 43)%N then (false, r)
        else (false, s1)
    | [] => (false, s1)
    end in
  let ds := take_while is_digit s2 in
  match ds with
  | [] => JNaN
  | _ => to_double (if neg then - decimal_value ds else decimal_value ds)
  end.

(** *** Number to string, as a template literal renders it *)

(** The decimal digits of a non-negative integer, most significant first. *)
Fixpoint digits_aux (fuel : nat) (n : Z) (acc : jsstring) : jsstring :=
  match fuel with
  | O => acc
  | S fuel' =>
      let acc' := (Z.to_N (n mod 10) + 48)%N :: acc in
      if n <? 10 then acc' else digits_aux fuel' (n / 10) acc'
  end.

Definition decimal_digits (n : Z) : jsstring :=
  digits_aux (S (Z.to_nat (Z.log2 n))) n [].

(** The shortest digit string [s] and exponent [n] with [s * 10^(n-k)]
    rounding to the double [z], for a positive [z]; [k] is tried from 1. *)
Fixpoint shortest_digits (fuel : nat) (k : Z) (nd : Z) (z : Z) : Z * Z :=
  match fuel with
  | O => (z, nd)
  | S fuel' =>
      let p := 10 ^ (nd - k) in
      let lo := z / p in
      let hi := lo + 1 in
      let ok_lo := (10 ^ (k - 1) <=? lo) && (round_sig (lo * p) =? z) in
      let ok_hi := round_sig (hi * p) =? z in
      let dlo := z - lo * p in
      let dhi := hi * p - z in
      let pick c := if c =? 10 ^ k then (10 ^ (k - 1), nd + 1) else (c, nd) in
      if ok_lo && ok_hi then
        if dlo <? dhi then pick lo
        else if dhi <? dlo then pick hi
        else if Z.even lo then pick lo else pick hi
      else if ok_lo then pick lo
      else if ok_hi then pick hi
      else shortest_digits fuel' (k + 1) nd z
  end.

Definition exponent_notation (z : Z) : jsstring :=
  let nd := Z.of_nat (length (decimal_digits z)) in
  let '(s, n) := shortest_digits 17 1 nd z in
  match decimal_digits s with
  | [] => []
  | d :: rest =>
      d :: (match rest with [] => [] | _ => 46%N :: rest end)
        ++ str "e+" ++ decimal_digits (n - 1)
  end.

(** Fixed notation: the shortest digits, then zeros up to the [n] digits
    of the number. *)
Definition fixed_notation (z : Z) : jsstring :=
  let nd := Z.of_nat (length (decimal_digits z)) in
  let '(s, n) := shortest_digits 17 1 nd z in
  let ds := decimal_digits s in
  ds ++ repeat 48%N (Z.to_nat n - length ds).

(** The digits of a positive double that holds an integer.  Up to 2^53
    every integer is a double, so no shorter digit string rounds to [z]
    and all its digits are written; from there on the shortest digits
    that round to [z] are written, in fixed notation below 10^21 and
    with an exponent above. *)
Definition positive_to_string (z : Z) : jsstring :=
  if z <=? 2 ^ 53 then decimal_digits z
  else if z <? 10 ^ 21 then fixed_notation z
  else exponent_notation z.

Definition num_to_string (x : jsnum) : jsstring :=
  match x with
  | JNaN => str "NaN"
  | JInf false => str "Infinity"
  | JInf true => str "-Infinity"
  | JNum z =>
      if z <? 0 then 45%N :: positive_to_string (- z)
      else positive_to_string z
  end.

(* ===================================================================== *)
(** ** Bounds codec *)
(* ===================================================================== *)

(** The code unit of an ASCII character. *)
Definition ch (a : ascii) : N := N_of_ascii a.
Arguments ch : simpl never.

Import Regex.

(** [UiElement["bounds"]]. *)
Record Rect : Type := mkRect {
  x : jsnum;
  y : jsnum;
  width : jsnum;
  height : jsnum
}.

#[global] Instance Rect_eq_dec : EqDecision Rect.
Proof. solve_decision. Defined.

Definition zero_rect : Rect := mkRect (JNum 0) (JNum 0) (JNum 0) (JNum 0).

(** The pattern [/\[(\d+),(\d+)\]\[(\d+),(\d+)\]/]. *)
Definition bounds_re : regex :=
  Seq (Chr (one (ch "[")))
 (Seq (Group 1 (Plus true is_digit))
 (Seq (Chr (one (ch ",")))
 (Seq (Group 2 (Plus true is_digit))
 (Seq (Chr (one (ch "]")))
 (Seq (Chr (one (ch "[")))
 (Seq (Group 3 (Plus true is_digit))
 (Seq (Chr (one (ch ",")))
 (Seq (Group 4 (Plus true is_digit))
      (Chr (one (ch "]"))))))))))).

Definition parseBounds (boundsStr : jsstring) : Rect :=
  match exec 4 bounds_re boundsStr with
  | None => zero_rect
  | Some m =>
      let left := parseInt10 (group m 1) in
      let top := parseInt10 (group m 2) in
      let right := parseInt10 (group m 3) in
      let bottom := parseInt10 (group m 4) in
      mkRect left top (js_sub right left) (js_sub bottom top)
  end.

(* ===================================================================== *)
(** ** Attribute extraction and tokens *)
(* ===================================================================== *)

(** The characters that have a meaning of their own in the text of a
    pattern: circumflex, dollar sign, backslash, dot, star, plus,
    question mark, parentheses, brackets, braces and bar. *)
Definition syntax_character (c : N) : bool :=
  existsb (N.eqb c) (str "^$\.*+?()[]{}|").

(** A name that [new RegExp] reads as the text of the name itself. *)
Definition literal_name (name : jsstring) : bool :=
  forallb (fun c => negb (syntax_character c)) name.

(** The names that [parseUiAutomatorXml] passes to [extractAttr]. *)
Definition attribute_names : list jsstring :=
  [str "resource-id"; str "text"; str "content-desc"; str "class";
   str "package"; str "bounds"; str "clickable"; str "enabled";
   str "scrollable"].

(** The pattern that [extractAttr] builds from a literal name: the name,
    an equals sign, a double quote, a captured run of characters other
    than the double quote, and a double quote.  [extractAttr] is local to
    its file and is called with the names of [attribute_names] only, all
    of them literal; for a name with a syntax character [new RegExp]
    would build another pattern, which is not modelled. *)
Definition attr_re (name : jsstring) : regex :=
  Seq (Lit name)
 (Seq (Lit (str "="))
 (Seq (Chr (one 34%N))
 (Seq (Group 1 (Star true (none_of 34%N)))
      (Chr (one 34%N))))).

Definition extractAttr (attrs name : jsstring) : jsstring :=
  match exec 1 (attr_re name) attrs with
  | Some m => group m 1
  | None => []
  end.

(** The pattern [/<node\s+([^>]*?)\s*\/?>|<\/node>/g]. *)
Definition tag_re : regex :=
  Alt
    (Seq (Lit (str "<node"))
    (Seq (Plus true is_space)
    (Seq (Group 1 (Star false (none_of (ch ">"))))
    (Seq (Star true is_space)
    (Seq (Opt (Chr (one (ch "/"))))
         (Chr (one (ch ">"))))))))
    (Lit (str "</node>")).

(** What one iteration of the scanning loop sees. *)
Inductive token : Type :=
| Close
| Open (attrs : jsstring) (isSelfClosing : bool).

Definition token_of_match (m : match_result) : token :=
  if jseq (m_full m) (str "</node>") then Close
  else Open (group m 1) (endsWith (str "/>") (m_full m)).

Definition tokens (xml : jsstring) : list token :=
  map token_of_match (exec_all (S (length xml)) 1 tag_re xml).

(* ===================================================================== *)
(** ** The element tree *)
(* ===================================================================== *)

(** [interface UiElement], as a value: a node owns the list of its
    children. *)
#[local] Unset Elimination Schemes.
Inductive UiElement : Type := mkUiElement {
  resource_id : jsstring;
  text : jsstring;
  content_desc : jsstring;
  class : jsstring;
  package : jsstring;
  bounds : Rect;
  clickable : bool;
  enabled : bool;
  scrollable : bool;
  children : list UiElement
}.
#[local] Set Elimination Schemes.

(** Induction over a tree: the property may be assumed of every child. *)
Section UiElement_induction.
Variable P : UiElement -> Prop.
Hypothesis step :
  forall rid t cd c p b cl en sc kids,
    Forall P kids -> P (mkUiElement rid t cd c p b cl en sc kids).

Fixpoint UiElement_ind (el : UiElement) : P el :=
  match el with
  | mkUiElement rid t cd c p b cl en sc kids =>
      step rid t cd c p b cl en sc kids
        ((fix all (l : list UiElement) : Forall P l :=
            match l with
            | [] => Forall_nil P
            | e :: r => Forall_cons P e r (UiElement_ind e) (all r)
            end) kids)
  end.
End UiElement_induction.

(** The selector of [findElements]: [None] is an absent field. *)
Record Selector : Type := mkSelector {
  sel_resource_id : option jsstring;
  sel_text : option jsstring;
  sel_content_desc : option jsstring
}.

(** The part of a resource id that [findElements] and [formatCompactTree]
    compare and print: [rid.includes("/") ? rid.split("/").pop() : rid]. *)
Definition idPart (rid : jsstring) : jsstring :=
  if includes (str "/") rid
  then default [] (pop_value (split (ch "/") rid))
  else rid.

(** The body of the loop of [findElements] up to [if (match)], on the
    three fields of [el] that it reads. *)
Definition selector_match_of (selector : Selector)
    (el_resource_id el_text el_content_desc : jsstring) : bool :=
  let m := true in
  let m :=
    match sel_resource_id selector with
    | Some v => m && (jseq el_resource_id v || jseq (idPart el_resource_id) v)
    | None => m
    end in
  let m :=
    match sel_text selector with
    | Some v => m && jseq el_text v
    | None => m
    end in
  let m :=
    match sel_content_desc selector with
    | Some v => m && jseq el_content_desc v
    | None => m
    end in
  m.

Definition selector_match (selector : Selector) (el : UiElement) : bool :=
  selector_match_of selector (resource_id el) (text el) (content_desc el).

(** One iteration of the loop of [walk] in [findElements]: [results] is
    the array being filled. *)
Fixpoint find_visit (selector : Selector) (el : UiElement)
    (results : list UiElement) : list UiElement :=
  let results :=
    if selector_match selector el then results ++ [el] else results in
  fold_left (fun acc e => find_visit selector e acc) (children el) results.

Definition find_walk (selector : Selector) (elements : list UiElement)
    (results : list UiElement) : list UiElement :=
  fold_left (fun acc e => find_visit selector e acc) elements results.

Definition findElements (roots : list UiElement) (selector : Selector)
    : list UiElement :=
  find_walk selector roots [].

(** [elementCenter]. *)
Record Point : Type := mkPoint { point_x : jsnum; point_y : jsnum }.

Definition elementCenter (el : UiElement) : Point :=
  mkPoint
    (Math_round (js_add_half (x (bounds el)) (js_div2 (width (bounds el)))))
    (Math_round (js_add_half (y (bounds el)) (js_div2 (height (bounds el))))).

(** [shortenClassName]. *)
Definition class_prefixes : list jsstring :=
  [str "android.widget."; str "android.view."; str "android.webkit."].

Fixpoint strip_first_prefix (prefixes : list jsstring) (cls : jsstring)
    : option jsstring :=
  match prefixes with
  | [] => None
  | prefix :: rest =>
      if startsWith prefix cls then Some (slice_from (length prefix) cls)
      else strip_first_prefix rest cls
  end.

Definition shortenClassName (cls : jsstring) : jsstring :=
  match strip_first_prefix class_prefixes cls with
  | Some short => short
  | None =>
      if startsWith (str "androidx.") cls then
        match lastIndexOf (ch ".") cls with
        | Some lastDot => slice_from (S lastDot) cls
        | None => cls
        end
      else cls
  end.

(** The line that [formatCompactTree] pushes for one element, on the
    fields of [el] that it reads. *)
Definition compact_parts_of (el_class el_text el_resource_id el_content_desc
    : jsstring) (b : Rect) (el_clickable el_scrollable : bool)
    : list jsstring :=
  let parts := [shortenClassName el_class] in
  let parts :=
    match el_text with
    | [] => parts
    | _ => parts ++ [[34%N] ++ el_text ++ [34%N]]
    end in
  let parts :=
    parts ++ [str "[" ++ num_to_string (x b) ++ str "," ++ num_to_string (y b)
              ++ str " " ++ num_to_string (width b) ++ str "x"
              ++ num_to_string (height b) ++ str "]"] in
  let parts :=
    match el_resource_id with
    | [] => parts
    | _ => parts ++ [str "id:" ++ idPart el_resource_id]
    end in
  let parts :=
    match el_content_desc with
    | [] => parts
    | _ => parts ++ [str "desc:" ++ [34%N] ++ el_content_desc ++ [34%N]]
    end in
  let parts := if el_clickable then parts ++ [str "[clickable]"] else parts in
  let parts := if el_scrollable then parts ++ [str "[scrollable]"] else parts in
  parts.

Definition compact_line_of (depth : nat) (parts : list jsstring) : jsstring :=
  let indent := repeat_str (str "  ") depth in
  indent ++ join (str " ") parts.

Definition compact_line (depth : nat) (el : UiElement) : jsstring :=
  compact_line_of depth
    (compact_parts_of (class el) (text el) (resource_id el) (content_desc el)
       (bounds el) (clickable el) (scrollable el)).

(** One iteration of the loop of [walk] in [formatCompactTree]; the call
    [walk(el.children, depth + 1)] returns at once when the depth is over
    the limit. *)
Fixpoint compact_visit (maxDepth : jsnum) (depth : nat) (el : UiElement)
    (lines : list jsstring) : list jsstring :=
  let lines := lines ++ [compact_line depth el] in
  if js_gt (S depth) maxDepth then lines
  else fold_left (fun acc e => compact_visit maxDepth (S depth) e acc)
         (children el) lines.

Definition compact_walk (maxDepth : jsnum) (elements : list UiElement)
    (depth : nat) (lines : list jsstring) : list jsstring :=
  if js_gt depth maxDepth then lines
  else fold_left (fun acc e => compact_visit maxDepth depth e acc)
         elements lines.

(** The lines array of [formatCompactTree] before it is joined. *)
Definition compact_lines (roots : list UiElement) (maxDepth : jsnum)
    : list jsstring :=
  compact_walk maxDepth roots 0 [].

(** The line feed that joins the lines. *)
Definition newline : jsstring := [10%N].

(** [formatCompactTree(roots, maxDepth = 15)]: [None] is an omitted
    argument. *)
Definition formatCompactTree (roots : list UiElement)
    (maxDepth : option jsnum) : jsstring :=
  join newline (compact_lines roots (default (JNum 15) maxDepth)).

(** A record of [flattenHierarchy]: the fields of the element, an empty
    children array and the depth. *)
Record FlatElement : Type := mkFlat {
  element : UiElement;
  depth : nat
}.

(** [{ ...el, depth, children: [] }]. *)
Definition flat_record (el : UiElement) (depth : nat) : FlatElement :=
  mkFlat
    (mkUiElement (resource_id el) (text el) (content_desc el) (class el)
       (package el) (bounds el) (clickable el) (enabled el) (scrollable el)
       [])
    depth.

Fixpoint flatten_visit (maxDepth : jsnum) (depth : nat) (el : UiElement)
    (result : list FlatElement) : list FlatElement :=
  let result := result ++ [flat_record el depth] in
  if js_gt (S depth) maxDepth then result
  else fold_left (fun acc e => flatten_visit maxDepth (S depth) e acc)
         (children el) result.

Definition flatten_walk (maxDepth : jsnum) (elements : list UiElement)
    (depth : nat) (result : list FlatElement) : list FlatElement :=
  if js_gt depth maxDepth then result
  else fold_left (fun acc e => flatten_visit maxDepth depth e acc)
         elements result.

(** [flattenHierarchy(roots, maxDepth = 20)]: [None] is an omitted
    argument. *)
Definition flattenHierarchy (roots : list UiElement)
    (maxDepth : option jsnum) : list FlatElement :=
  flatten_walk (default (JNum 20) maxDepth) roots 0 [].


(* ===================================================================== *)
(** ** The heap: objects that are shared and mutated *)
(* ===================================================================== *)

Module Heap.

(** A reference to an object. *)
Definition loc : Type := nat.

(** An element object.  Its rectangle and its children array are objects
    of their own, held by reference; [n_depth] is the extra field of the
    records that [flattenHierarchy] creates, absent on parsed elements. *)
Record node : Type := mkNode {
  n_resource_id : jsstring;
  n_text : jsstring;
  n_content_desc : jsstring;
  n_class : jsstring;
  n_package : jsstring;
  n_bounds : loc;
  n_clickable : bool;
  n_enabled : bool;
  n_scrollable : bool;
  n_children : loc;
  n_depth : option nat
}.

Inductive obj : Type :=
| ONode (n : node)
| OArray (items : list loc)
| OBounds (r : Rect).

(** The heap: object [l] is entry [l]; a new object goes at the end. *)
Abbreviation heap := (list obj).

(** Computations that read and write the heap.  [None] means that the
    computation is stuck: a reference that does not hold the kind of
    object the TypeScript types promise, or fuel that ran out. *)
Definition M (A : Type) : Type := heap -> option (A * heap).

Definition ret {A} (a : A) : M A := fun h => Some (a, h).

Definition bind {A B} (m : M A) (f : A -> M B) : M B :=
  fun h =>
    match m h with
    | Some (a, h') => f a h'
    | None => None
    end.

Definition stuck {A} : M A := fun _ => None.

#[global] Instance M_ret : MRet M := @ret.
#[global] Instance M_bind : MBind M := fun A B f m => bind m f.

Definition alloc (o : obj) : M loc :=
  fun h => Some (length h, h ++ [o]).

Definition read (l : loc) : M obj :=
  fun h =>
    match h !! l with
    | Some o => Some (o, h)
    | None => None
    end.

Definition write (l : loc) (o : obj) : M unit :=
  fun h =>
    match h !! l with
    | Some _ => Some (tt, <[l := o]> h)
    | None => None
    end.

Definition read_node (l : loc) : M node :=
  o ← read l;
  match o with
  | ONode n => ret n
  | _ => stuck
  end.

Definition read_array (l : loc) : M (list loc) :=
  o ← read l;
  match o with
  | OArray items => ret items
  | _ => stuck
  end.

Definition read_bounds (l : loc) : M Rect :=
  o ← read l;
  match o with
  | OBounds r => ret r
  | _ => stuck
  end.

(** [a.push(v)]. *)
Definition array_push (a : loc) (v : loc) : M unit :=
  items ← read_array a;
  write a (OArray (items ++ [v])).

(* --------------------------------------------------------------------- *)
(** *** The structural parser *)

(** The object literal of [parseUiAutomatorXml]: the rectangle, the empty
    children array and the element are three new objects. *)
Definition build_element (attrs : jsstring) : M loc :=
  let resource_id := extractAttr attrs (str "resource-id") in
  let text := extractAttr attrs (str "text") in
  let content_desc := extractAttr attrs (str "content-desc") in
  let class := extractAttr attrs (str "class") in
  let package := extractAttr attrs (str "package") in
  bounds ← alloc (OBounds (parseBounds (extractAttr attrs (str "bounds"))));
  let clickable := jseq (extractAttr attrs (str "clickable")) (str "true") in
  let enabled := jseq (extractAttr attrs (str "enabled")) (str "true") in
  let scrollable := jseq (extractAttr attrs (str "scrollable")) (str "true") in
  children ← alloc (OArray []);
  alloc (ONode (mkNode resource_id text content_desc class package bounds
                  clickable enabled scrollable children None)).

(** One iteration of the scanning loop.  [elements] is the array that is
    returned; [stack] is local to the parser, its top is the head of the
    list.  The result is the stack after the iteration. *)
Definition step (elements : loc) (stack : list loc) (t : token)
    : M (list loc) :=
  match t with
  | Close => ret (tail stack)
  | Open attrs isSelfClosing =>
      element ← build_element attrs;
      match stack with
      | top :: _ =>
          parent ← read_node top;
          array_push (n_children parent) element
      | [] => array_push elements element
      end;;
      ret (if isSelfClosing then stack else element :: stack)
  end.

Fixpoint scan (elements : loc) (stack : list loc) (ts : list token)
    : M (list loc) :=
  match ts with
  | [] => ret stack
  | t :: ts' =>
      stack' ← step elements stack t;
      scan elements stack' ts'
  end.

Definition parseUiAutomatorXml (xml : jsstring) : M loc :=
  elements ← alloc (OArray []);
  scan elements [] (tokens xml);;
  ret elements.

(* --------------------------------------------------------------------- *)
(** *** The capture step after the dump command has returned *)

(** The pattern [/UI hierarch?y dumped to:.*$/i]. *)
Definition trailer_re : Regex.regex :=
  Regex.Seq (Regex.LitI (str "UI hierarc"))
 (Regex.Seq (Regex.Opt (Regex.Chr (Regex.one_i (ch "h"))))
 (Regex.Seq (Regex.LitI (str "y dumped to:"))
 (Regex.Seq (Regex.Star true Regex.dot)
            Regex.AtEnd))).

(** How a call ends. *)
Inductive outcome (A : Type) : Type :=
| Returned (a : A)
| Thrown (message : jsstring).
Arguments Returned {A} a.
Arguments Thrown {A} message.

(** [getUiHierarchy] from the point where [adb] has resolved to [xml]. *)
Definition getUiHierarchy (xml : jsstring) : M (outcome loc) :=
  let xmlContent := trim (Regex.replace_empty 0 trailer_re xml) in
  if negb (includes (str "<hierarchy") xmlContent) then
    ret (Thrown (str "UIAutomator dump returned unexpected output: "
                 ++ slice_to 200 xmlContent))
  else
    forest ← parseUiAutomatorXml xmlContent;
    ret (Returned forest).

(* --------------------------------------------------------------------- *)
(** *** Reading a tree back *)

(** The tree that a reference stands for; [fuel] bounds the depth. *)
Fixpoint reify (fuel : nat) (h : heap) (l : loc) : option UiElement :=
  match fuel with
  | O => None
  | S fuel' =>
      match h !! l with
      | Some (ONode n) =>
          match h !! n_bounds n, h !! n_children n with
          | Some (OBounds r), Some (OArray items) =>
              kids ← mapM (reify fuel' h) items;
              Some (mkUiElement (n_resource_id n) (n_text n)
                      (n_content_desc n) (n_class n) (n_package n) r
                      (n_clickable n) (n_enabled n) (n_scrollable n) kids)
          | _, _ => None
          end
      | _ => None
      end
  end.

Definition reify_forest (fuel : nat) (h : heap) (roots : loc)
    : option (list UiElement) :=
  match h !! roots with
  | Some (OArray items) => mapM (reify fuel h) items
  | _ => None
  end.

(** The forest that parsing a text in an empty heap produces. *)
Definition parsed_forest (xml : jsstring) : option (list UiElement) :=
  match parseUiAutomatorXml xml [] with
  | Some (roots, h) => reify_forest (length h) h roots
  | None => None
  end.

End Heap.

(* ===================================================================== *)
(** ** The tree operations on shared objects *)
(* ===================================================================== *)

Module Shared.
Import Heap.

(** The three [walk] functions of the source have one shape: a loop over
    the array [elements] whose body handles [el] and then calls
    [walk(el.children, depth + 1)], which returns at once when [descend]
    refuses the depth.  [visit] is the part of the body before that call
    and returns what it pushes.  The array is read again at every
    iteration, as the iterator of a [for ... of] loop does.  The arrays
    that the functions fill and return ([results], [lines], [result]) are
    values here.  [fuel] bounds the number of nested calls and
    iterations. *)
Section Walk.
Context {Out : Type}.
Variable visit : nat -> loc -> M (list Out).
Variable descend : nat -> bool.

Fixpoint walk (fuel : nat) (elements : loc) (i depth : nat) (acc : list Out)
    : M (list Out) :=
  match fuel with
  | O => stuck
  | S fuel' =>
      items ← read_array elements;
      match items !! i with
      | None => ret acc
      | Some el =>
          pushed ← visit depth el;
          let acc := acc ++ pushed in
          n ← read_node el;
          acc ← (if descend (S depth)
                 then walk fuel' (n_children n) 0 (S depth) acc
                 else ret acc);
          walk fuel' elements (S i) depth acc
      end
  end.
End Walk.

(** The body of the loop of [findElements]: [el] itself is pushed. *)
Definition find_visit (selector : Selector) (depth : nat) (el : loc)
    : M (list loc) :=
  n ← read_node el;
  ret (if selector_match_of selector (n_resource_id n) (n_text n)
            (n_content_desc n)
       then [el] else []).

Definition findElements (fuel : nat) (roots : loc) (selector : Selector)
    : M (list loc) :=
  walk (find_visit selector) (fun _ => true) fuel roots 0 0 [].

(** The body of the loop of [formatCompactTree]: [el.bounds] is read
    through its reference. *)
Definition compact_visit (depth : nat) (el : loc) : M (list jsstring) :=
  n ← read_node el;
  b ← read_bounds (n_bounds n);
  ret [compact_line_of depth
         (compact_parts_of (n_class n) (n_text n) (n_resource_id n)
            (n_content_desc n) b (n_clickable n) (n_scrollable n))].

Definition formatCompactTree (fuel : nat) (roots : loc)
    (maxDepth : option jsnum) : M jsstring :=
  let maxDepth := default (JNum 15) maxDepth in
  lines ← (if js_gt 0 maxDepth then ret []
           else walk compact_visit (fun d => negb (js_gt d maxDepth))
                  fuel roots 0 0 []);
  ret (join newline lines).

(** The body of the loop of [flattenHierarchy]: the record is a new
    object with the fields of [el] (its rectangle by reference), the
    depth and a new empty array. *)
Definition flatten_visit (depth : nat) (el : loc) : M (list loc) :=
  n ← read_node el;
  children ← alloc (OArray []);
  record ← alloc (ONode (mkNode (n_resource_id n) (n_text n)
                           (n_content_desc n) (n_class n) (n_package n)
                           (n_bounds n) (n_clickable n) (n_enabled n)
                           (n_scrollable n) children (Some depth)));
  ret [record].

Definition flattenHierarchy (fuel : nat) (roots : loc)
    (maxDepth : option jsnum) : M (list loc) :=
  let maxDepth := default (JNum 20) maxDepth in
  if js_gt 0 maxDepth then ret []
  else walk flatten_visit (fun d => negb (js_gt d maxDepth)) fuel roots 0 0 [].

End Shared.

(* ===================================================================== *)
(** ** The tool handlers of the server *)
(* ===================================================================== *)

Module Server.

(** [s.replace(re, f)] for a pattern with the [g] flag that never matches
    the empty string: every match, searched for from the end of the one
    before, is replaced by what [f] gives for it.  [fuel] bounds the
    number of matches; the length of the input plus one is enough. *)
Fixpoint replace_all (fuel : nat) (ngroups : nat) (r : regex)
    (f : match_result -> jsstring) (s : jsstring) : jsstring :=
  match fuel with
  | O => s
  | S fuel' =>
      match exec ngroups r s with
      | Some m =>
          take (m_index m) s ++ f m
          ++ replace_all fuel' ngroups r f (m_rest m)
      | None => s
      end
  end.

(** The characters of the class in the pattern of [type_text]. *)
Definition special_chars : jsstring :=
  str "&|;<>()$`\!" ++ [34%N] ++ str "'~*?#{}[] ".

Definition is_special (c : N) : bool :=
  existsb (fun d => (c =? d)%N) special_chars.

(** The pattern of [type_text]: one character of the class, captured. *)
Definition escape_re : regex := Group 1 (Chr is_special).

(** The call of [text.replace] in [type_text]: every match becomes a
    backslash followed by the character captured. *)
Definition escape_text (text : jsstring) : jsstring :=
  replace_all (S (length text)) 1 escape_re
    (fun m => ch "\" :: group m 1) text.

(** The arguments that [type_text] passes to [adb]. *)
Definition type_text_args (text : jsstring) : list jsstring :=
  [str "shell"; str "input"; str "text"; escape_text text].

(* --------------------------------------------------------------------- *)
(** *** The handler of [tap_element] *)

(** The [index] argument of [tap_element] when it is given: a number
    that is an integer, or any other number (a fraction, an infinity,
    NaN). *)
Inductive index_arg : Type :=
| IndexInt (z : Z)
| IndexOther.

(** A string argument that is given and not empty. *)
Definition given (s : option jsstring) : option jsstring :=
  match s with
  | Some (c :: r) => Some (c :: r)
  | _ => None
  end.

(** [index === undefined]. *)
Definition omitted {A : Type} (o : option A) : bool :=
  match o with
  | None => true
  | Some _ => false
  end.

(** [matches[index]]: an element only for an integer inside the array. *)
Definition at_index {A : Type} (xs : list A) (index : index_arg) : option A :=
  match index with
  | IndexInt z => if z <? 0 then None else xs !! Z.to_nat z
  | IndexOther => None
  end.

(** The ways in which the handler of [tap_element] returns: the four
    error results, and the tap with the arguments that [adb] gets. *)
Inductive tap_outcome : Type :=
| NoSelector
| NoMatch (selector : Selector)
| Ambiguous (matches : list UiElement)
| OutOfRange (count : nat)
| Tapped (target : UiElement) (center : Point) (args : list jsstring).

(** The handler of [tap_element] from the point where the hierarchy has
    been read. *)
Definition tap_element (resource_id text content_desc : option jsstring)
    (index : option index_arg) (hierarchy : list UiElement) : tap_outcome :=
  match given resource_id, given text, given content_desc with
  | None, None, None => NoSelector
  | r, t, c =>
      let selector := mkSelector r t c in
      let matches := findElements hierarchy selector in
      match matches with
      | [] => NoMatch selector
      | _ =>
          if (1 <? length matches)%nat && omitted index
          then Ambiguous matches
          else
            match at_index matches (default (IndexInt 0) index) with
            | None => OutOfRange (length matches)
            | Some target =>
                let center := elementCenter target in
                Tapped target center
                  [str "shell"; str "input"; str "tap";
                   num_to_string (point_x center);
                   num_to_string (point_y center)]
            end
      end
  end.

End Server.

(* ===================================================================== *)
(** ** The device list *)
(* ===================================================================== *)

Module Adb.

(** [s.split(/\s+/)]: the pieces between maximal runs of white space, an
    empty piece at an end where the string begins or ends with one. *)
Fixpoint split_ws (s : jsstring) : list jsstring :=
  match s with
  | [] => [[]]
  | c :: r =>
      if is_space c then
        match r with
        | d :: _ => if is_space d then split_ws r else [] :: split_ws r
        | [] => [] :: split_ws r
        end
      else
        match split_ws r with
        | w :: ws => (c :: w) :: ws
        | [] => [[c]]
        end
  end.

(** The pattern [/model:(\S+)/]. *)
Definition model_re : regex :=
  Seq (Lit (str "model:")) (Group 1 (Plus true (fun c => negb (is_space c)))).

Inductive DeviceType : Type := Emulator | Device.

(** [interface AdbDevice]; [status] is [undefined] on a line of one
    field. *)
Record AdbDevice : Type := mkAdbDevice {
  dev_id : jsstring;
  dev_type : DeviceType;
  dev_model : jsstring;
  dev_status : option jsstring
}.

(** The callback that [listDevices] maps over the lines. *)
Definition parse_device_line (line : jsstring) : AdbDevice :=
  let parts := split_ws (trim line) in
  let id := match parts with id :: _ => id | [] => [] end in
  let status := parts !! 1%nat in
  let model :=
    match exec 1 model_re line with
    | Some m => group m 1
    | None => str "unknown"
    end in
  let type := if startsWith (str "emulator-") id then Emulator else Device in
  mkAdbDevice id type model status.

(** [listDevices] from the point where [adb devices -l] has resolved to
    [output]. *)
Definition listDevices (output : jsstring) : list AdbDevice :=
  let lines := drop 1 (split 10%N (trim output)) in
  map parse_device_line
    (List.filter (fun line => negb (Nat.eqb (length (trim line)) 0)) lines).

Definition is_online (d : AdbDevice) : bool :=
  match dev_status d with
  | Some s => jseq s (str "device")
  | None => false
  end.

(** [resolveDevice(deviceId)]: [None] is an omitted argument; the device
    list is only asked for when no identifier is given, and [output] is
    what [adb devices -l] prints then. *)
Definition resolveDevice (deviceId : option jsstring) (output : jsstring)
    : Heap.outcome jsstring :=
  match deviceId with
  | Some (c :: r) => Heap.Returned (c :: r)
  | _ =>
      let online := List.filter is_online (listDevices output) in
      match online with
      | [] =>
          Heap.Thrown
            (str "No connected devices found. Start an emulator or connect a device.")
      | [d] => Heap.Returned (dev_id d)
      | _ =>
          Heap.Thrown
            (str "Multiple devices connected ("
             ++ join (str ", ") (map dev_id online)
             ++ str "). Specify device_id.")
      end
  end.

End Adb.

(* ===================================================================== *)
(** ** The focused activity *)
(* ===================================================================== *)

Module Activity.

Definition non_space (c : N) : bool := negb (is_space c).

(** The end of every pattern of [getCurrentActivity]: [(\S+)\/(\S+)]. *)
Definition component_re : regex :=
  Seq (Group 1 (Plus true non_space))
 (Seq (Chr (one (ch "/")))
      (Group 2 (Plus true non_space))).

(** [/mCurrentFocus=.*?\s+(\S+)\/(\S+)/] and
    [/mFocusedApp=.*?\s+(\S+)\/(\S+)/]. *)
Definition focus_line_re (key : jsstring) : regex :=
  Seq (Lit key)
 (Seq (Star false dot)
 (Seq (Plus true is_space)
      component_re)).

Definition focus_re : regex := focus_line_re (str "mCurrentFocus=").
Definition app_re : regex := focus_line_re (str "mFocusedApp=").

(** [/topResumedActivity=ActivityRecord\{[^}]*\s+(\S+)\/(\S+)/],
    [/mResumedActivity=ActivityRecord\{[^}]*\s+(\S+)\/(\S+)/] and
    [/ResumedActivity:\s+ActivityRecord\{[^}]*\s+(\S+)\/(\S+)/]. *)
Definition record_re (key : regex) : regex :=
  Seq key
 (Seq (Lit (str "ActivityRecord{"))
 (Seq (Star true (none_of (ch "}")))
 (Seq (Plus true is_space)
      component_re))).

Definition top_re : regex := record_re (Lit (str "topResumedActivity=")).
Definition resumed_re : regex := record_re (Lit (str "mResumedActivity=")).
Definition alt_re : regex :=
  record_re (Seq (Lit (str "ResumedActivity:")) (Plus true is_space)).

(** [/focusedApp=.*?(\S+)\/(\S+)/]. *)
Definition focused_re : regex :=
  Seq (Lit (str "focusedApp="))
 (Seq (Star false dot)
      component_re).

(** [{ package: m[1], activity: m[2] }] for the first pattern of the list
    that matches. *)
Fixpoint first_component (patterns : list regex) (output : jsstring)
    : option (jsstring * jsstring) :=
  match patterns with
  | [] => None
  | r :: rest =>
      match exec 2 r output with
      | Some m => Some (group m 1, group m 2)
      | None => first_component rest output
      end
  end.

(** One strategy: the output of its command, [None] when [adb] threw,
    and its patterns in the order in which they are tried. *)
Definition strategy (output : option jsstring) (patterns : list regex)
    : option (jsstring * jsstring) :=
  match output with
  | Some text => first_component patterns text
  | None => None
  end.

(** [getCurrentActivity] as a function of what the three [dumpsys]
    commands print; a command is only run when the strategies before it
    gave nothing. *)
Definition getCurrentActivity (windows activities displays : option jsstring)
    : Heap.outcome (jsstring * jsstring) :=
  match strategy windows [focus_re; app_re] with
  | Some r => Heap.Returned r
  | None =>
      match strategy activities [top_re; resumed_re; alt_re] with
      | Some r => Heap.Returned r
      | None =>
          match strategy displays [focused_re] with
          | Some r => Heap.Returned r
          | None =>
              Heap.Thrown
                (str "Could not determine current activity. Tried: dumpsys window windows, dumpsys activity activities, dumpsys window displays")
          end
      end
  end.

End Activity.

(* ===================================================================== *)
(** * Properties *)
(* ===================================================================== *)

(* ===================================================================== *)
(** ** Facts about strings *)
(* ===================================================================== *)

Lemma jseq_true (a b : jsstring) : jseq a b = true <-> a = b.
Proof. unfold jseq. apply bool_decide_eq_true. Qed.

Lemma jseq_false (a b : jsstring) : jseq a b = false <-> a <> b.
Proof. unfold jseq. apply bool_decide_eq_false. Qed.

Module StringFacts.

Lemma startsWith_spec p s :
  startsWith p s = true <-> exists suf, s = p ++ suf.
Proof.
  revert s. induction p as [|c p IH]; intros s; simpl.
  - split; [intros _; by exists s|done].
  - destruct s as [|d s]; simpl.
    + split; [done|]. by intros [suf H].
    + rewrite andb_true_iff, N.eqb_eq, IH. split.
      * intros [-> [suf ->]]. by exists suf.
      * intros [suf [= -> ->]]. split; [done|]. by exists suf.
Qed.

Lemma includes_spec p s :
  includes p s = true <-> exists pre suf, s = pre ++ p ++ suf.
Proof.
  induction s as [|d s IH]; simpl.
  - rewrite orb_false_r, startsWith_spec. split.
    + intros [suf H]. by exists [], suf.
    + intros (pre & suf & H). destruct pre; [by exists suf|done].
  - rewrite orb_true_iff, startsWith_spec, IH. split.
    + intros [[suf H]|(pre & suf & H)].
      * by exists [], suf.
      * exists (d :: pre), suf. by rewrite H.
    + intros (pre & suf & H). destruct pre as [|c pre].
      * left. by exists suf.
      * right. injection H as -> ->. by exists pre, suf.
Qed.

(** [s.indexOf(p)]; [None] stands for -1. *)
Fixpoint indexOf (p s : jsstring) : option nat :=
  if startsWith p s then Some O
  else match s with
       | [] => None
       | _ :: s' => S <$> indexOf p s'
       end.

Lemma indexOf_first p s i :
  indexOf p s = Some i ->
  (exists suf, s = take i s ++ p ++ suf) /\
  forall pre' suf', s = pre' ++ p ++ suf' -> (i <= length pre')%nat.
Proof.
  revert i. induction s as [|d s IH]; intros i; simpl.
  - destruct (startsWith p []) eqn:Hs; [|done]. intros [= <-].
    apply startsWith_spec in Hs. split; [done|]. intros; lia.
  - destruct (startsWith p (d :: s)) eqn:Hs.
    + intros [= <-]. apply startsWith_spec in Hs. split; [done|]. intros; lia.
    + destruct (indexOf p s) as [j|] eqn:Hj; [|done]. simpl. intros [= <-].
      destruct (IH j eq_refl) as [[suf Hsuf] Hfirst]. split.
      * exists suf. simpl. by rewrite <- Hsuf.
      * intros pre' suf' H. destruct pre' as [|c pre'].
        -- exfalso. assert (Ht : startsWith p (d :: s) = true)
             by (apply startsWith_spec; by exists suf').
           congruence.
        -- injection H as -> ->. simpl.
           specialize (Hfirst pre' suf' eq_refl). lia.
Qed.

End StringFacts.

Import StringFacts.

(* ===================================================================== *)
(** ** Traversal order *)
(* ===================================================================== *)

(** The elements of a forest in pre-order, each with its depth; [d] is
    the depth of the roots. *)
Fixpoint preorder_at (d : nat) (el : UiElement) : list (nat * UiElement) :=
  (d, el) :: flat_map (preorder_at (S d)) (children el).

Definition preorder_from (d : nat) (forest : list UiElement)
    : list (nat * UiElement) :=
  flat_map (preorder_at d) forest.

Definition preorder (forest : list UiElement) : list UiElement :=
  map snd (preorder_from 0 forest).

(** The number of nodes of a forest. *)
Definition node_count (forest : list UiElement) : nat :=
  length (preorder_from 0 forest).

(* ===================================================================== *)
(** ** Search: what [findElements] returns *)
(* ===================================================================== *)

(** The short id as the specification words it: the substring after the
    last slash, the whole string when there is none. *)
Definition after_last_slash (rid : jsstring) : jsstring :=
  match lastIndexOf (ch "/") rid with
  | Some i => drop (S i) rid
  | None => rid
  end.

(** A node satisfies a selector when every present field holds. *)
Definition selector_holds (selector : Selector) (el : UiElement) : Prop :=
  match sel_resource_id selector with
  | Some v => resource_id el = v \/ after_last_slash (resource_id el) = v
  | None => True
  end /\
  match sel_text selector with
  | Some v => text el = v
  | None => True
  end /\
  match sel_content_desc selector with
  | Some v => content_desc el = v
  | None => True
  end.

Lemma split_no_separator c s :
  lastIndexOf c s = None -> split c s = [s].
Proof.
  induction s as [|d s IH]; simpl; [done|].
  destruct (lastIndexOf c s) as [i|]; [done|].
  destruct (d =? c)%N; [done|].
  intros _. by rewrite IH.
Qed.

Lemma split_last_segment c s i :
  lastIndexOf c s = Some i ->
  exists w ws, split c s = w :: ws /\ ws <> [] /\
               pop_value ws = Some (drop (S i) s).
Proof.
  revert i. induction s as [|d s IH]; simpl; [done|].
  intros i. destruct (lastIndexOf c s) as [j|] eqn:Hl.
  - intros [= <-]. destruct (IH j eq_refl) as (w & ws & Hs & Hne & Hp).
    rewrite Hs. destruct (d =? c)%N.
    + exists [], (w :: ws). split; [done|]. split; [done|].
      simpl. destruct ws; [done|]. exact Hp.
    + by exists (d :: w), ws.
  - destruct (d =? c)%N eqn:Hd; [|done]. intros [= <-].
    rewrite (split_no_separator _ _ Hl).
    exists [], [s]. by rewrite drop_0.
Qed.

Lemma pop_split c s :
  pop_value (split c s) =
  Some (match lastIndexOf c s with Some i => drop (S i) s | None => s end).
Proof.
  destruct (lastIndexOf c s) as [i|] eqn:Hl.
  - destruct (split_last_segment _ _ _ Hl) as (w & ws & -> & Hne & Hp).
    simpl. by destruct ws.
  - by rewrite (split_no_separator _ _ Hl).
Qed.

Lemma includes_char_false c s :
  includes [c] s = false -> lastIndexOf c s = None.
Proof.
  induction s as [|d s IH]; simpl; [done|].
  rewrite orb_false_iff, andb_true_r. intros [Hd Hs].
  rewrite (IH Hs). rewrite N.eqb_sym in Hd. by rewrite Hd.
Qed.

Lemma idPart_after_last_slash rid : idPart rid = after_last_slash rid.
Proof.
  unfold idPart, after_last_slash.
  destruct (includes (str "/") rid) eqn:Hi.
  - by rewrite pop_split.
  - change (str "/") with [ch "/"] in Hi.
    by rewrite (includes_char_false _ _ Hi).
Qed.

Lemma selector_match_holds selector el :
  selector_match selector el = true <-> selector_holds selector el.
Proof.
  unfold selector_match, selector_match_of, selector_holds.
  destruct (sel_resource_id selector) as [v1|],
           (sel_text selector) as [v2|],
           (sel_content_desc selector) as [v3|]; simpl;
    rewrite ?andb_true_iff, ?orb_true_iff, ?jseq_true,
            ?idPart_after_last_slash; tauto.
Qed.

Lemma map_flat_map {A B C} (f : B -> C) (g : A -> list B) l :
  map f (flat_map g l) = flat_map (fun a => map f (g a)) l.
Proof. induction l as [|a l IH]; simpl; [done|]. by rewrite map_app, IH. Qed.

Lemma filter_flat_map {A B} (f : B -> bool) (g : A -> list B) l :
  List.filter f (flat_map g l) = flat_map (fun a => List.filter f (g a)) l.
Proof.
  induction l as [|a l IH]; simpl; [done|]. by rewrite List.filter_app, IH.
Qed.

Lemma find_walk_app selector (P : UiElement -> list UiElement) elements :
  Forall (fun e => forall results,
            find_visit selector e results = results ++ P e) elements ->
  forall results,
    fold_left (fun acc e => find_visit selector e acc) elements results
    = results ++ flat_map P elements.
Proof.
  induction 1 as [|e l He _ IH]; intros results; simpl.
  - by rewrite app_nil_r.
  - by rewrite He, IH, app_assoc.
Qed.

Lemma find_visit_preorder selector el d results :
  find_visit selector el results
  = results ++ List.filter (selector_match selector)
                 (map snd (preorder_at d el)).
Proof.
  revert d results.
  induction el as [rid t cd c p b cl en sc kids IH] using UiElement_ind.
  intros d results. simpl.
  set (el := mkUiElement rid t cd c p b cl en sc kids).
  rewrite (find_walk_app selector
             (fun e => List.filter (selector_match selector)
                         (map snd (preorder_at (S d) e)))).
  - rewrite map_flat_map, filter_flat_map.
    destruct (selector_match selector el); simpl;
      by rewrite <- ?app_assoc.
  - revert IH. apply List.Forall_impl. intros e He r. apply He.
Qed.

Lemma findElements_filter roots selector :
  findElements roots selector
  = List.filter (selector_match selector) (preorder roots).
Proof.
  unfold findElements, find_walk, preorder, preorder_from.
  rewrite (find_walk_app selector
             (fun e => List.filter (selector_match selector)
                         (map snd (preorder_at 0 e)))).
  - by rewrite map_flat_map, filter_flat_map.
  - apply Forall_forall. intros e _ r. apply find_visit_preorder.
Qed.

Definition selector_x : Selector := mkSelector (Some (str "x")) None None.

(** C1. [findElements] returns exactly the nodes that satisfy every present
    selector field, in pre-order over the whole forest (descendants of a
    match included): a resource id matches verbatim or by the substring
    after its last slash, text and content description by equality, absent
    fields always.  The selector with resource id x matches raw ids
    com.app:id/x and x, and neither xx nor com.app:id/xx. *)
Theorem findElements_preorder_filter :
  (forall roots selector,
     findElements roots selector
     = List.filter (selector_match selector) (preorder roots)) /\
  (forall selector el,
     selector_match selector el = true <-> selector_holds selector el) /\
  (forall t cd c p b cl en sc kids,
     selector_match selector_x
       (mkUiElement (str "com.app:id/x") t cd c p b cl en sc kids) = true /\
     selector_match selector_x
       (mkUiElement (str "x") t cd c p b cl en sc kids) = true /\
     selector_match selector_x
       (mkUiElement (str "xx") t cd c p b cl en sc kids) = false /\
     selector_match selector_x
       (mkUiElement (str "com.app:id/xx") t cd c p b cl en sc kids) = false).
Proof.
  split; [apply findElements_filter|].
  split; [apply selector_match_holds|].
  intros. repeat split; reflexivity.
Qed.

(* ===================================================================== *)
(** ** Depth limits: what the two renderers emit *)
(* ===================================================================== *)

(** Whether the guard [depth > maxDepth] lets a depth through. *)
Definition within (maxDepth : jsnum) (p : nat * UiElement) : bool :=
  negb (js_gt (fst p) maxDepth).

Lemma js_gt_mono d d' m : (d <= d')%nat -> js_gt d m = true -> js_gt d' m = true.
Proof.
  intros Hd. destruct m as [z| |]; simpl; [|done..].
  rewrite !Z.ltb_lt. lia.
Qed.

Lemma preorder_at_depth d el :
  Forall (fun p => (d <= fst p)%nat) (preorder_at d el).
Proof.
  revert d.
  induction el as [rid t cd c p b cl en sc kids IH] using UiElement_ind.
  intros d. simpl. constructor; [simpl; lia|].
  apply Forall_flat_map. revert IH. apply List.Forall_impl.
  intros e He. generalize (He (S d)). apply List.Forall_impl.
  intros q. lia.
Qed.

Lemma filter_within_deep m d forest :
  js_gt d m = true ->
  List.filter (within m) (preorder_from d forest) = [].
Proof.
  intros Hgt. unfold preorder_from. rewrite filter_flat_map.
  induction forest as [|e l IH]; simpl; [done|]. rewrite IH, app_nil_r.
  generalize (preorder_at_depth d e).
  induction 1 as [|q qs Hq _ IHq]; simpl; [done|].
  unfold within at 1. by rewrite (js_gt_mono _ _ _ Hq Hgt).
Qed.

Section Emit.
Context {A : Type}.
Variable emit : nat -> UiElement -> A.
Variable visit : nat -> UiElement -> list A -> list A.
Variable m : jsnum.

(** The shape that [compact_visit] and [flatten_visit] share. *)
Hypothesis visit_eq :
  forall d el acc,
    visit d el acc =
    let acc := acc ++ [emit d el] in
    if js_gt (S d) m then acc
    else fold_left (fun acc e => visit (S d) e acc) (children el) acc.

Definition emitted (l : list (nat * UiElement)) : list A :=
  map (fun p => emit (fst p) (snd p)) (List.filter (within m) l).

Lemma emit_fold d forest :
  Forall (fun e => forall acc,
            visit d e acc = acc ++ emitted (preorder_at d e)) forest ->
  forall acc,
    fold_left (fun acc e => visit d e acc) forest acc
    = acc ++ emitted (preorder_from d forest).
Proof.
  unfold emitted, preorder_from.
  induction 1 as [|e l He _ IH]; intros acc; simpl.
  - by rewrite app_nil_r.
  - by rewrite He, IH, List.filter_app, map_app, app_assoc.
Qed.

Lemma emit_visit el :
  forall d acc,
    js_gt d m = false ->
    visit d el acc = acc ++ emitted (preorder_at d el).
Proof.
  induction el as [rid t cd c p b cl en sc kids IH] using UiElement_ind.
  intros d acc Hd. rewrite visit_eq. cbv zeta.
  unfold emitted at 1. simpl preorder_at. simpl List.filter.
  unfold within at 1. simpl fst. rewrite Hd. simpl negb. cbv iota.
  simpl map. fold (preorder_from (S d) kids).
  destruct (js_gt (S d) m) eqn:Hs.
  - by rewrite (filter_within_deep _ _ _ Hs).
  - rewrite emit_fold.
    + unfold emitted. by rewrite <- app_assoc.
    + revert IH. apply List.Forall_impl. intros e He a. by apply He.
Qed.

Lemma emit_walk d forest acc :
  (if js_gt d m then acc
   else fold_left (fun acc e => visit d e acc) forest acc)
  = acc ++ emitted (preorder_from d forest).
Proof.
  destruct (js_gt d m) eqn:Hd.
  - unfold emitted. by rewrite (filter_within_deep _ _ _ Hd), app_nil_r.
  - apply emit_fold. apply Forall_forall. intros e _ a. by apply emit_visit.
Qed.
End Emit.

Lemma compact_visit_eq m d el acc :
  compact_visit m d el acc =
  let acc := acc ++ [compact_line d el] in
  if js_gt (S d) m then acc
  else fold_left (fun acc e => compact_visit m (S d) e acc) (children el) acc.
Proof. by destruct el. Qed.

Lemma flatten_visit_eq m d el acc :
  flatten_visit m d el acc =
  let acc := acc ++ [flat_record el d] in
  if js_gt (S d) m then acc
  else fold_left (fun acc e => flatten_visit m (S d) e acc) (children el) acc.
Proof. by destruct el. Qed.

Lemma compact_walk_emitted m forest d lines :
  compact_walk m forest d lines
  = lines ++ emitted compact_line m (preorder_from d forest).
Proof.
  unfold compact_walk.
  apply (emit_walk compact_line (compact_visit m) m (compact_visit_eq m)).
Qed.

Lemma flatten_walk_emitted m forest d result :
  flatten_walk m forest d result
  = result ++ emitted (fun d el => flat_record el d) m (preorder_from d forest).
Proof.
  unfold flatten_walk.
  apply (emit_walk (fun d el => flat_record el d) (flatten_visit m) m
           (flatten_visit_eq m)).
Qed.

(** The greatest depth at which a forest has a node. *)
Definition forest_depth (forest : list UiElement) : nat :=
  list_max (map fst (preorder_from 0 forest)).

(** The depth test of the specification, for an integer limit. *)
Definition depth_le (k : Z) (p : nat * UiElement) : bool :=
  Z.of_nat (fst p) <=? k.

Lemma within_depth_le k l :
  List.filter (within (JNum k)) l = List.filter (depth_le k) l.
Proof.
  apply List.filter_ext. intros [d el]. unfold within, depth_le. simpl.
  by rewrite Z.leb_antisym.
Qed.

Lemma filter_all {A} (f : A -> bool) l :
  Forall (fun a => f a = true) l -> List.filter f l = l.
Proof. induction 1 as [|a l Ha _ IH]; simpl; [done|]. by rewrite Ha, IH. Qed.

Lemma depth_le_forest_depth forest (j : nat) :
  Forall (fun p => depth_le (Z.of_nat (forest_depth forest + j)) p = true)
    (preorder_from 0 forest).
Proof.
  unfold forest_depth, depth_le.
  assert (H : Forall (fun n => (n <= list_max (map fst (preorder_from 0 forest)))%nat)
                (map fst (preorder_from 0 forest))).
  { by apply list_max_le. }
  rewrite Forall_map in H. revert H. apply List.Forall_impl.
  intros p Hp. apply Z.leb_le. lia.
Qed.

Lemma within_infinity l : List.filter (within (JInf false)) l = l.
Proof. apply filter_all. by apply Forall_forall. Qed.

(** C3. With a depth limit [k], neither renderer emits a node deeper than
    [k]; what is emitted is the unlimited rendering (any limit at or above
    the depth of the forest, or Infinity) restricted to the nodes of depth
    at most [k], in the same order; a node beyond the limit goes with its
    whole subtree. *)
Theorem depth_limit_restriction :
  forall (forest : list UiElement) (k : Z),
    let shown := List.filter (depth_le k) (preorder_from 0 forest) in
    let line := fun p : nat * UiElement => compact_line (fst p) (snd p) in
    let record := fun p : nat * UiElement => flat_record (snd p) (fst p) in
    (* limited rendering *)
    formatCompactTree forest (Some (JNum k)) = join newline (map line shown) /\
    flattenHierarchy forest (Some (JNum k)) = map record shown /\
    Forall (fun r => Z.of_nat (depth r) <= k)
      (flattenHierarchy forest (Some (JNum k))) /\
    (* unlimited rendering *)
    (forall j : nat,
       let K := Z.of_nat (forest_depth forest + j) in
       formatCompactTree forest (Some (JNum K))
       = join newline (map line (preorder_from 0 forest)) /\
       flattenHierarchy forest (Some (JNum K))
       = map record (preorder_from 0 forest) /\
       flattenHierarchy forest (Some (JNum k))
       = List.filter (fun r => Z.of_nat (depth r) <=? k)
           (flattenHierarchy forest (Some (JNum K)))) /\
    formatCompactTree forest (Some (JInf false))
    = join newline (map line (preorder_from 0 forest)) /\
    flattenHierarchy forest (Some (JInf false))
    = map record (preorder_from 0 forest) /\
    (* a subtree rooted beyond the limit contributes nothing *)
    (forall d sub, k < Z.of_nat d ->
       List.filter (depth_le k) (preorder_from d sub) = []).
Proof.
  intros forest k shown line record.
  assert (Hc : forall m, formatCompactTree forest (Some m)
                 = join newline (map line (List.filter (within m)
                                             (preorder_from 0 forest)))).
  { intros m. unfold formatCompactTree, compact_lines. simpl default.
    by rewrite compact_walk_emitted. }
  assert (Hf : forall m, flattenHierarchy forest (Some m)
                 = map record (List.filter (within m)
                                 (preorder_from 0 forest))).
  { intros m. unfold flattenHierarchy. simpl default.
    by rewrite flatten_walk_emitted. }
  assert (Hall : forall j : nat,
            List.filter (depth_le (Z.of_nat (forest_depth forest + j)))
              (preorder_from 0 forest) = preorder_from 0 forest).
  { intros j. apply filter_all, depth_le_forest_depth. }
  repeat split.
  - by rewrite Hc, within_depth_le.
  - by rewrite Hf, within_depth_le.
  - rewrite Hf, within_depth_le. apply Forall_map.
    apply Forall_forall. intros p Hp. apply List.filter_In in Hp.
    destruct Hp as [_ Hp]. unfold depth_le in Hp. simpl. lia.
  - by rewrite Hc, within_depth_le, Hall.
  - by rewrite Hf, within_depth_le, Hall.
  - rewrite !Hf, !within_depth_le, Hall. fold shown. unfold shown.
    generalize (preorder_from 0 forest). intros l.
    induction l as [|p l IH]; simpl; [done|].
    unfold depth_le at 1. destruct (Z.of_nat (fst p) <=? k); simpl;
      by rewrite IH.
  - by rewrite Hc, within_infinity.
  - by rewrite Hf, within_infinity.
  - intros d sub Hd. rewrite <- within_depth_le.
    apply filter_within_deep. simpl. by apply Z.ltb_lt.
Qed.

Lemma depth_limit_restriction_witness :
  1 < Z.of_nat 2 /\
  List.filter (depth_le 1)
    (preorder_from 2
       [mkUiElement [] [] [] [] [] zero_rect false false false []]) = [].
Proof.
  split; [lia|].
  pose proof (depth_limit_restriction [] 1) as H. cbv zeta in H.
  destruct H as (_ & _ & _ & _ & _ & _ & Hsub). apply Hsub. lia.
Defined.

(* ===================================================================== *)
(** ** Flattening: one record per node *)
(* ===================================================================== *)

(** A chain of [n] nodes, each the only child of the one before. *)
Fixpoint chain (n : nat) : list UiElement :=
  match n with
  | O => []
  | S n' => [mkUiElement [] [] [] [] [] zero_rect false false false (chain n')]
  end.

(** C7, as stated, fails: with the default limit of 20 a forest that has
    nodes deeper than 20 is flattened to fewer records than it has nodes.
    A chain of 22 nodes gives 21 records. *)
Lemma flattenHierarchy_drops_deep_nodes :
  ~ (forall forest,
       length (flattenHierarchy forest None) = node_count forest).
Proof. intros H. specialize (H (chain 22)). vm_compute in H. discriminate. Qed.

(** C7, amended. When no node of the forest lies beyond the depth limit
    (20 unless given), [flattenHierarchy] yields one record per node, in
    pre-order, each with the true depth of its node (roots at 0), the
    fields of the node and an empty children list. *)
Theorem flattenHierarchy_all_nodes :
  forall (forest : list UiElement) (maxDepth : option jsnum),
    js_gt (forest_depth forest) (default (JNum 20) maxDepth) = false ->
    flattenHierarchy forest maxDepth
    = map (fun p => flat_record (snd p) (fst p)) (preorder_from 0 forest) /\
    length (flattenHierarchy forest maxDepth) = node_count forest /\
    Forall (fun r => children (element r) = [])
      (flattenHierarchy forest maxDepth).
Proof.
  intros forest maxDepth Hd.
  assert (Heq : flattenHierarchy forest maxDepth
                = map (fun p => flat_record (snd p) (fst p))
                    (preorder_from 0 forest)).
  { unfold flattenHierarchy. rewrite flatten_walk_emitted. simpl.
    unfold emitted. rewrite filter_all; [done|].
    generalize (depth_le_forest_depth forest 0).
    apply List.Forall_impl. intros p Hp. unfold depth_le in Hp.
    apply Z.leb_le in Hp. unfold within.
    destruct (js_gt (fst p) (default (JNum 20) maxDepth)) eqn:Hg; [|done].
    rewrite (js_gt_mono (fst p) (forest_depth forest)) in Hd; [done| lia |done]. }
  split; [exact Heq|]. rewrite Heq. split.
  - unfold node_count. by rewrite length_map.
  - apply Forall_map. by apply Forall_forall.
Qed.

Lemma flattenHierarchy_all_nodes_witness :
  js_gt (forest_depth (chain 3)) (default (JNum 20) None) = false /\
  length (flattenHierarchy (chain 3) None) = 3%nat.
Proof.
  split; [reflexivity|].
  apply (flattenHierarchy_all_nodes (chain 3) None). reflexivity.
Defined.

(* ===================================================================== *)
(** ** Element centre *)
(* ===================================================================== *)

(** The midpoint of an interval that starts at [a] and is [b] long. *)
Definition midpoint (a b : Z) : Q := (inject_Z a + inject_Z b / 2)%Q.

(** Rounding to the nearest integer, a tie going up. *)
Definition round_half_up (q : Q) : Z := Qfloor (q + (1 # 2))%Q.

(** Rounding to the nearest integer, a tie going away from zero. *)
Definition round_half_away (q : Q) : Z :=
  if Qle_bool 0 q then Qfloor (q + (1 # 2))%Q else Qceiling (q - (1 # 2))%Q.

Lemma round_half_up_midpoint a b : round_half_up (midpoint a b) = (2 * a + b + 1) / 2.
Proof.
  unfold round_half_up, midpoint, Qfloor, Qplus, Qdiv, Qmult, Qinv, inject_Z.
  cbn [Qnum Qden]. change (Z.pos (1 * (1 * 2) * 2)) with (2 * 2).
  rewrite <- (Z.div_mul_cancel_r (2 * a + b + 1) 2 2) by lia.
  f_equal. change (Z.pos (1 * 2)) with 2. change (Z.pos (1 * (1 * 2))) with 2.
  lia.
Qed.

Lemma round_half_away_nonneg a b :
  0 <= 2 * a + b ->
  round_half_away (midpoint a b) = round_half_up (midpoint a b).
Proof.
  intros H. unfold round_half_away, round_half_up.
  replace (Qle_bool 0 (midpoint a b)) with true; [done|].
  symmetry. unfold Qle_bool, midpoint, Qplus, Qdiv, Qmult, Qinv, inject_Z.
  cbn [Qnum Qden]. apply Z.leb_le. change (Z.pos (1 * 2)) with 2. lia.
Qed.

Definition with_bounds (b : Rect) : UiElement :=
  mkUiElement [] [] [] [] [] b false false false [].

(** A rectangle allowed by the data model: [x] and [y] are a left and a
    top, [width] and [height] the differences of a right and a bottom
    from them, and left, top, right, bottom are integers that are not
    negative.  The width and the height may be negative. *)
Definition data_model_rect (a b w h : Z) : Prop :=
  0 <= a /\ 0 <= b /\ 0 <= a + w /\ 0 <= b + h.

(** For a rectangle of integers whose doubled midpoints stay below 2^53
    in magnitude, [elementCenter] returns the midpoint rounded to the
    nearest integer with a tie going up (towards plus infinity). *)
Lemma elementCenter_half_up el a b w h :
  bounds el = mkRect (JNum a) (JNum b) (JNum w) (JNum h) ->
  Z.abs (2 * a + w) < 2 ^ 53 ->
  Z.abs (2 * b + h) < 2 ^ 53 ->
  elementCenter el
  = mkPoint (JNum (round_half_up (midpoint a w)))
            (JNum (round_half_up (midpoint b h))).
Proof.
  intros Hb Ha Hh. unfold elementCenter. rewrite Hb. simpl.
  unfold to_double_half.
  apply Z.ltb_lt in Ha, Hh. rewrite Ha, Hh. simpl.
  by rewrite !round_half_up_midpoint.
Qed.

(** C9, as stated, fails on a rectangle of the data model with large
    fields: the bounds [4503599627370496,0][4503599627370497,0] are read
    as x = 2^52 and width = 1; the sum x + width/2 has no double of its
    own and is rounded to 2^52, where the midpoint rounded half away from
    zero is 2^52 + 1. *)
Lemma elementCenter_large_midpoint :
  ~ (forall el a b w h,
       data_model_rect a b w h ->
       bounds el = mkRect (JNum a) (JNum b) (JNum w) (JNum h) ->
       elementCenter el
       = mkPoint (JNum (round_half_away (midpoint a w)))
                 (JNum (round_half_away (midpoint b h)))).
Proof.
  intros H.
  specialize (H (with_bounds
                   (parseBounds
                      (str "[4503599627370496,0][4503599627370497,0]")))
                (2 ^ 52) 0 1 0).
  assert (Hd : data_model_rect (2 ^ 52) 0 1 0) by (unfold data_model_rect; lia).
  specialize (H Hd eq_refl).
  vm_compute in H. discriminate.
Qed.

(** C9, amended. For every rectangle allowed by the data model whose
    doubled midpoints [2x + width] and [2y + height] stay below 2^53,
    [elementCenter] returns the midpoint of the rectangle rounded half
    away from zero, which on these midpoints rounds an exact half
    upward.  Degenerate and inverted rectangles are included and the
    function always returns. *)
Theorem elementCenter_rounds_midpoint :
  forall el a b w h,
    bounds el = mkRect (JNum a) (JNum b) (JNum w) (JNum h) ->
    data_model_rect a b w h ->
    2 * a + w < 2 ^ 53 ->
    2 * b + h < 2 ^ 53 ->
    elementCenter el
    = mkPoint (JNum (round_half_away (midpoint a w)))
              (JNum (round_half_away (midpoint b h))) /\
    round_half_away (midpoint a w) = round_half_up (midpoint a w) /\
    round_half_away (midpoint b h) = round_half_up (midpoint b h).
Proof.
  intros el a b w h Hb (Ha & Hb0 & Hr & Hbt) Hx Hy.
  assert (Hax : round_half_away (midpoint a w) = round_half_up (midpoint a w))
    by (apply round_half_away_nonneg; lia).
  assert (Hay : round_half_away (midpoint b h) = round_half_up (midpoint b h))
    by (apply round_half_away_nonneg; lia).
  split; [|by split].
  rewrite Hax, Hay. apply elementCenter_half_up; [done|lia|lia].
Qed.

Lemma elementCenter_rounds_midpoint_witness :
  data_model_rect 10 20 (-5) 101 /\
  elementCenter (with_bounds (mkRect (JNum 10) (JNum 20) (JNum (-5)) (JNum 101)))
  = mkPoint (JNum 8) (JNum 71).
Proof.
  assert (Hd : data_model_rect 10 20 (-5) 101)
    by (unfold data_model_rect; lia).
  split; [exact Hd|].
  exact (proj1 (elementCenter_rounds_midpoint
           (with_bounds (mkRect (JNum 10) (JNum 20) (JNum (-5)) (JNum 101)))
           10 20 (-5) 101 eq_refl Hd eq_refl eq_refl)).
Defined.

(* ===================================================================== *)
(** ** Facts about the matcher *)
(* ===================================================================== *)

Module RegexFacts.
Import Regex.

(** The rest of a string after its longest prefix in a class. *)
Fixpoint drop_while (p : N -> bool) (s : jsstring) : jsstring :=
  match s with
  | c :: s' => if p c then drop_while p s' else s
  | [] => []
  end.

Lemma take_drop_while p s : take_while p s ++ drop_while p s = s.
Proof.
  induction s as [|c s IH]; simpl; [done|].
  destruct (p c); simpl; [by rewrite IH|done].
Qed.

Lemma take_while_all p s : Forall (fun c => p c = true) (take_while p s).
Proof.
  induction s as [|c s IH]; simpl; [constructor|].
  destruct (p c) eqn:Hc; by constructor.
Qed.

(** A string that does not begin with a character of the class. *)
Definition stops (p : N -> bool) (s : jsstring) : Prop :=
  match s with
  | [] => True
  | c :: _ => p c = false
  end.

Lemma drop_while_stops p s : stops p (drop_while p s).
Proof.
  induction s as [|c s IH]; simpl; [done|].
  destruct (p c) eqn:Hc; [done|]. simpl. exact Hc.
Qed.

Lemma take_while_app p ds rest :
  Forall (fun c => p c = true) ds -> stops p rest ->
  take_while p (ds ++ rest) = ds /\ drop_while p (ds ++ rest) = rest.
Proof.
  intros Hds Hrest. induction Hds as [|c ds Hc _ [IH1 IH2]]; simpl.
  - destruct rest as [|c rest]; simpl in *; [done|]. by rewrite Hrest.
  - rewrite Hc. by rewrite IH1, IH2.
Qed.

Section Star.
Context {A : Type}.
Variable p : charset.
Variable k : jsstring -> option A.

(** When what follows cannot start with a character of the class, a
    greedy repetition takes the longest run and never gives any back. *)
Hypothesis k_rejects : forall c s, p c = true -> k (c :: s) = None.

Lemma star_greedy_longest s :
  star_greedy p k s = k (drop_while p s).
Proof.
  induction s as [|c s IH]; simpl; [done|].
  destruct (p c) eqn:Hc; [|done].
  rewrite IH. destruct (k (drop_while p s)) eqn:Hk; [done|].
  by apply k_rejects.
Qed.
End Star.

(** A literal matches exactly when the input starts with it. *)
Lemma run_Lit {A} (l s : jsstring) caps (k : jsstring -> captures -> option A) :
  run (Lit l) (l ++ s) caps k = k s caps.
Proof.
  induction l as [|c l IH]; simpl; [done|].
  unfold one at 1. by rewrite N.eqb_refl.
Qed.

Lemma run_Lit_inv {A} (l s : jsstring) caps
    (k : jsstring -> captures -> option A) x :
  run (Lit l) s caps k = Some x ->
  exists s', s = l ++ s' /\ k s' caps = Some x.
Proof.
  revert s. induction l as [|c l IH]; simpl; intros s.
  - intros H. by exists s.
  - destruct s as [|d s]; [done|]. unfold one at 1.
    destruct (d =? c)%N eqn:Hd; [|done]. apply N.eqb_eq in Hd. subst d.
    intros H. destruct (IH _ H) as (s' & -> & Hk). by exists s'.
Qed.

(** The search returns the first position at which the pattern matches. *)
Lemma search_from_none n r idx s :
  (forall p q, s = p ++ q -> match_here n r q = None) ->
  search_from n r idx s = None.
Proof.
  revert idx. induction s as [|c s IH]; intros idx H; simpl.
  - by rewrite (H [] [] eq_refl).
  - rewrite (H [] (c :: s) eq_refl). apply IH.
    intros p q ->. by apply (H (c :: p) q).
Qed.

Lemma search_from_first n r idx pre t rest caps :
  (forall p q, pre = p ++ q -> q <> [] -> match_here n r (q ++ t) = None) ->
  match_here n r t = Some (rest, caps) ->
  search_from n r idx (pre ++ t)
  = Some (MatchResult (idx + length pre) (take (length t - length rest) t)
            caps rest).
Proof.
  revert idx. induction pre as [|c pre IH]; intros idx Hpre Ht.
  - simpl. destruct t; simpl in *; rewrite Ht; do 2 f_equal; lia.
  - pose proof (Hpre [] (c :: pre) eq_refl) as H0. simpl in *.
    rewrite H0 by done.
    rewrite IH; [do 2 f_equal; simpl; lia| |done].
    intros p q -> Hq. by apply (Hpre (c :: p) q).
Qed.

Lemma search_from_inv n r idx s m :
  search_from n r idx s = Some m ->
  exists p q, s = p ++ q /\ match_here n r q = Some (m_rest m, m_groups m) /\
              m_index m = (idx + length p)%nat /\
              (forall p' q', p = p' ++ q' -> q' <> [] ->
                             match_here n r (q' ++ q) = None).
Proof.
  revert idx. induction s as [|c s IH]; intros idx; simpl.
  - destruct (match_here n r []) as [[rest caps]|] eqn:Hm; [|done].
    intros [= <-]. exists [], []. simpl.
    split; [done|]. split; [done|]. split; [lia|].
    intros p' q' H. by destruct p', q'.
  - destruct (match_here n r (c :: s)) as [[rest caps]|] eqn:Hm.
    + intros [= <-]. exists [], (c :: s). simpl.
      split; [done|]. split; [done|]. split; [lia|].
      intros p' q' H. by destruct p', q'.
    + intros H. destruct (IH _ H) as (p & q & -> & Hq & Hi & Hfirst).
      exists (c :: p), q. simpl.
      split; [done|]. split; [done|]. split; [lia|].
      intros p' q' Hp Hq'. destruct p' as [|c' p'].
      * simpl in Hp. subst q'. exact Hm.
      * injection Hp as -> ->. exact (Hfirst p' q' eq_refl Hq').
Qed.

End RegexFacts.

(* ===================================================================== *)
(** ** Bounds codec: what [parseBounds] returns *)
(* ===================================================================== *)

Module BoundsFacts.
Import Regex RegexFacts.

(** A non-empty run of decimal digits. *)
Definition is_digits (ds : jsstring) : Prop :=
  ds <> [] /\ Forall (fun c => is_digit c = true) ds.

(** The text [[a,b][c,d]] for four digit strings. *)
Definition bounds_text (da db dc dd : jsstring) : jsstring :=
  str "[" ++ da ++ str "," ++ db ++ str "][" ++ dc ++ str "," ++ dd ++ str "]".

(** The bounds pattern occurs in [s] at position [length pre]. *)
Definition bounds_occurrence (s pre da db dc dd suf : jsstring) : Prop :=
  s = pre ++ bounds_text da db dc dd ++ suf /\
  is_digits da /\ is_digits db /\ is_digits dc /\ is_digits dd.

(** The bounds pattern occurs nowhere in [s]. *)
Definition no_bounds_occurrence (s : jsstring) : Prop :=
  forall pre da db dc dd suf, ~ bounds_occurrence s pre da db dc dd suf.

(** The longest run of digits at the front, when there is one. *)
Definition digits_then (s : jsstring) : option (jsstring * jsstring) :=
  match take_while is_digit s with
  | [] => None
  | ds => Some (ds, drop_while is_digit s)
  end.

(** The next character, when it is the expected one. *)
Definition expect (c : N) (s : jsstring) : option jsstring :=
  match s with
  | d :: s' => if (d =? c)%N then Some s' else None
  | [] => None
  end.

(** The bounds pattern read deterministically at the front of a string. *)
Definition bounds_here (s : jsstring)
    : option (jsstring * (jsstring * jsstring * jsstring * jsstring)) :=
  s1 ← expect (ch "[") s;
  '(da, s2) ← digits_then s1;
  s3 ← expect (ch ",") s2;
  '(db, s4) ← digits_then s3;
  s5 ← expect (ch "]") s4;
  s6 ← expect (ch "[") s5;
  '(dc, s7) ← digits_then s6;
  s8 ← expect (ch ",") s7;
  '(dd, s9) ← digits_then s8;
  rest ← expect (ch "]") s9;
  Some (rest, (da, db, dc, dd)).

Definition bounds_captures (q : jsstring * jsstring * jsstring * jsstring)
    : captures :=
  let '(da, db, dc, dd) := q in [None; Some da; Some db; Some dc; Some dd].

Lemma run_Chr {A} c s caps (k : jsstring -> captures -> option A) :
  run (Chr (one c)) s caps k = s' ← expect c s; k s' caps.
Proof. destruct s as [|d s]; simpl; [done|]. unfold one. by destruct (d =? c)%N. Qed.

Lemma run_digits {A} i s caps (k : jsstring -> captures -> option A) :
  (forall c s' caps', is_digit c = true -> k (c :: s') caps' = None) ->
  run (Group i (Plus true is_digit)) s caps k
  = '(ds, rest) ← digits_then s; k rest (<[i := Some ds]> caps).
Proof.
  intros Hk. unfold digits_then. destruct s as [|c s]; simpl; [done|].
  destruct (is_digit c) eqn:Hc; simpl; [|done].
  rewrite star_greedy_longest by (intros; by apply Hk).
  do 2 f_equal.
  rewrite <- (take_drop_while is_digit s) at 1 3.
  rewrite length_app.
  replace (S (length (take_while is_digit s) + length (drop_while is_digit s))
           - length (drop_while is_digit s))%nat
    with (S (length (take_while is_digit s))) by lia.
  simpl. by rewrite take_app_length.
Qed.

Lemma expect_digit_none c d s :
  is_digit d = true -> is_digit c = false -> expect c (d :: s) = None.
Proof.
  intros Hd Hc. simpl. destruct (d =? c)%N eqn:He; [|done].
  apply N.eqb_eq in He. congruence.
Qed.

Lemma run_Seq {A} r1 r2 s caps (k : jsstring -> captures -> option A) :
  run (Seq r1 r2) s caps k = run r1 s caps (fun s' caps' => run r2 s' caps' k).
Proof. done. Qed.

Ltac bind_step := cbn [mbind option_bind].

Ltac reject_digit :=
  intros; rewrite ?run_Seq, run_Chr, expect_digit_none; done.

Lemma match_here_bounds s :
  match_here 4 bounds_re s
  = '(rest, q) ← bounds_here s; Some (rest, bounds_captures q).
Proof.
  unfold match_here, bounds_re, bounds_here.
  rewrite run_Seq, run_Chr.
  destruct (expect (ch "[") s) as [s1|]; bind_step; [|done].
  rewrite run_Seq, run_digits by reject_digit.
  destruct (digits_then s1) as [[da s2]|]; bind_step; [|done].
  rewrite run_Seq, run_Chr.
  destruct (expect (ch ",") s2) as [s3|]; bind_step; [|done].
  rewrite run_Seq, run_digits by reject_digit.
  destruct (digits_then s3) as [[db s4]|]; bind_step; [|done].
  rewrite run_Seq, run_Chr.
  destruct (expect (ch "]") s4) as [s5|]; bind_step; [|done].
  rewrite run_Seq, run_Chr.
  destruct (expect (ch "[") s5) as [s6|]; bind_step; [|done].
  rewrite run_Seq, run_digits by reject_digit.
  destruct (digits_then s6) as [[dc s7]|]; bind_step; [|done].
  rewrite run_Seq, run_Chr.
  destruct (expect (ch ",") s7) as [s8|]; bind_step; [|done].
  rewrite run_Seq, run_digits by reject_digit.
  destruct (digits_then s8) as [[dd s9]|]; bind_step; [|done].
  rewrite run_Chr.
  by destruct (expect (ch "]") s9) as [rest|].
Qed.

Lemma expect_cons c s : expect c (c :: s) = Some s.
Proof. simpl. by rewrite N.eqb_refl. Qed.

Lemma expect_inv c s s' : expect c s = Some s' -> s = c :: s'.
Proof.
  destruct s as [|d s]; simpl; [done|].
  destruct (d =? c)%N eqn:Hd; [|done]. apply N.eqb_eq in Hd. by intros [= <-]; subst.
Qed.

Lemma digits_then_app ds rest :
  is_digits ds -> stops is_digit rest ->
  digits_then (ds ++ rest) = Some (ds, rest).
Proof.
  intros [Hne Hds] Hrest. unfold digits_then.
  destruct (take_while_app is_digit ds rest Hds Hrest) as [-> ->].
  by destruct ds.
Qed.

Lemma digits_then_inv s ds rest :
  digits_then s = Some (ds, rest) -> s = ds ++ rest /\ is_digits ds.
Proof.
  unfold digits_then. intros H.
  pose proof (take_drop_while is_digit s) as Happ.
  pose proof (take_while_all is_digit s) as Hall.
  destruct (take_while is_digit s) as [|c l] eqn:Ht; [done|].
  injection H as <- <-. by repeat split.
Qed.

Lemma bounds_text_cons da db dc dd rest :
  bounds_text da db dc dd ++ rest
  = ch "[" :: da ++ ch "," :: db ++ ch "]" :: ch "[" :: dc ++ ch "," :: dd
      ++ ch "]" :: rest.
Proof.
  unfold bounds_text.
  change (str "[") with [ch "["]. change (str ",") with [ch ","].
  change (str "][") with [ch "]"; ch "["]. change (str "]") with [ch "]"].
  by rewrite <- !app_assoc.
Qed.

Lemma bounds_here_text da db dc dd rest :
  is_digits da -> is_digits db -> is_digits dc -> is_digits dd ->
  bounds_here (bounds_text da db dc dd ++ rest) = Some (rest, (da, db, dc, dd)).
Proof.
  intros Ha Hb Hc Hd. rewrite bounds_text_cons. unfold bounds_here.
  rewrite expect_cons. bind_step.
  rewrite (digits_then_app da) by done. bind_step.
  rewrite expect_cons. bind_step.
  rewrite (digits_then_app db) by done. bind_step.
  rewrite expect_cons. bind_step. rewrite expect_cons. bind_step.
  rewrite (digits_then_app dc) by done. bind_step.
  rewrite expect_cons. bind_step.
  rewrite (digits_then_app dd) by done. bind_step.
  by rewrite expect_cons.
Qed.

Lemma bounds_here_inv s rest da db dc dd :
  bounds_here s = Some (rest, (da, db, dc, dd)) ->
  s = bounds_text da db dc dd ++ rest /\
  is_digits da /\ is_digits db /\ is_digits dc /\ is_digits dd.
Proof.
  unfold bounds_here. intros H.
  destruct (expect (ch "[") s) as [s1|] eqn:E1; [|done]. cbn [mbind option_bind] in H.
  destruct (digits_then s1) as [[da' s2]|] eqn:D1; [|done]. cbn [mbind option_bind] in H.
  destruct (expect (ch ",") s2) as [s3|] eqn:E2; [|done]. cbn [mbind option_bind] in H.
  destruct (digits_then s3) as [[db' s4]|] eqn:D2; [|done]. cbn [mbind option_bind] in H.
  destruct (expect (ch "]") s4) as [s5|] eqn:E3; [|done]. cbn [mbind option_bind] in H.
  destruct (expect (ch "[") s5) as [s6|] eqn:E4; [|done]. cbn [mbind option_bind] in H.
  destruct (digits_then s6) as [[dc' s7]|] eqn:D3; [|done]. cbn [mbind option_bind] in H.
  destruct (expect (ch ",") s7) as [s8|] eqn:E5; [|done]. cbn [mbind option_bind] in H.
  destruct (digits_then s8) as [[dd' s9]|] eqn:D4; [|done]. cbn [mbind option_bind] in H.
  destruct (expect (ch "]") s9) as [rest'|] eqn:E6; [|done]. cbn [mbind option_bind] in H.
  injection H as -> -> -> -> ->.
  apply expect_inv in E1, E2, E3, E4, E5, E6.
  apply digits_then_inv in D1, D2, D3, D4.
  destruct D1 as [-> ?], D2 as [-> ?], D3 as [-> ?], D4 as [-> ?].
  subst. rewrite bounds_text_cons. split; [reflexivity|tauto].
Qed.

(** A test for [is_digits] that computes. *)
Lemma is_digits_check ds :
  match ds with [] => false | _ => forallb is_digit ds end = true ->
  is_digits ds.
Proof.
  intros H. split; [by destruct ds|].
  assert (Hall : forallb is_digit ds = true) by (by destruct ds).
  clear H. induction ds as [|c ds IH]; [constructor|].
  simpl in Hall. apply andb_true_iff in Hall. destruct Hall.
  constructor; auto.
Qed.

(** The leftmost occurrence of the bounds pattern in [s]. *)
Definition first_bounds_occurrence (s pre da db dc dd suf : jsstring) : Prop :=
  bounds_occurrence s pre da db dc dd suf /\
  forall pre' a b c d suf',
    bounds_occurrence s pre' a b c d suf' -> (length pre <= length pre')%nat.

Lemma digit_not_space c : is_digit c = true -> is_space c = false.
Proof.
  unfold is_digit, is_space. rewrite andb_true_iff, !N.leb_le. intros [H1 H2].
  repeat match goal with
         | |- context [(?a <=? ?b)%N] => destruct (N.leb_spec a b)
         | |- context [(?a =? ?b)%N] => destruct (N.eqb_spec a b)
         end; simpl; try done; lia.
Qed.

Lemma digit_not_sign c :
  is_digit c = true -> (c =? 45)%N = false /\ (c =? 43)%N = false.
Proof.
  unfold is_digit. rewrite andb_true_iff, !N.leb_le. intros [H1 H2].
  split; apply N.eqb_neq; lia.
Qed.

Lemma take_while_id p ds :
  Forall (fun c => p c = true) ds -> take_while p ds = ds.
Proof. induction 1 as [|c l Hc _ IH]; simpl; [done|]. by rewrite Hc, IH. Qed.

Lemma parseInt10_digits ds :
  is_digits ds -> parseInt10 ds = to_double (decimal_value ds).
Proof.
  intros [Hne Hds]. unfold parseInt10.
  destruct ds as [|c ds]; [done|].
  pose proof (Forall_inv Hds) as Hc. simpl in Hc.
  simpl trimStart. rewrite (digit_not_space _ Hc).
  destruct (digit_not_sign _ Hc) as [-> ->].
  by rewrite (take_while_id _ _ Hds).
Qed.

Lemma decimal_value_nonneg ds :
  Forall (fun c => is_digit c = true) ds -> 0 <= decimal_value ds.
Proof.
  assert (H : forall acc, 0 <= acc ->
            Forall (fun c => is_digit c = true) ds ->
            0 <= fold_left (fun acc c => 10 * acc + digit_value c) ds acc).
  { induction ds as [|c ds IH]; intros acc Hacc Hds; simpl; [done|].
    apply IH; [|by eapply Forall_inv_tail].
    pose proof (Forall_inv Hds) as Hc. simpl in Hc.
    unfold is_digit in Hc. rewrite andb_true_iff, !N.leb_le in Hc.
    unfold digit_value. lia. }
  intros Hds. unfold decimal_value. by apply H.
Qed.

Lemma to_double_exact n : Z.abs n <= 2 ^ 53 -> to_double n = JNum n.
Proof.
  intros Hn. destruct (Z.eq_dec (Z.abs n) (2 ^ 53)) as [He|Hne].
  - destruct (Z.abs_spec n) as [[_ Ha]|[_ Ha]]; rewrite Ha in He.
    + subst n. by vm_compute.
    + replace n with (- 2 ^ 53) by lia. by vm_compute.
  - unfold to_double, round_sig.
    assert (Hlt : (Z.abs n <? 2 ^ 53) = true) by (apply Z.ltb_lt; lia).
    rewrite Hlt.
    assert (Hbig : (2 ^ 1024 <=? Z.abs n) = false).
    { apply Z.leb_gt. apply Z.le_lt_trans with (2 ^ 53); [done|].
      apply Z.pow_lt_mono_r; lia. }
    by rewrite Hbig.
Qed.

Lemma group_bounds_captures q rest idx full :
  let m := MatchResult idx full (bounds_captures q) rest in
  let '(da, db, dc, dd) := q in
  group m 1 = da /\ group m 2 = db /\ group m 3 = dc /\ group m 4 = dd.
Proof. by destruct q as [[[da db] dc] dd]. Qed.

(** What [parseBounds] computes from the leftmost occurrence. *)
Lemma parseBounds_first s pre da db dc dd suf :
  first_bounds_occurrence s pre da db dc dd suf ->
  parseBounds s
  = mkRect (to_double (decimal_value da)) (to_double (decimal_value db))
      (js_sub (to_double (decimal_value dc)) (to_double (decimal_value da)))
      (js_sub (to_double (decimal_value dd)) (to_double (decimal_value db))).
Proof.
  intros [(-> & Ha & Hb & Hc & Hd) Hfirst].
  unfold parseBounds, exec.
  rewrite (search_from_first 4 bounds_re 0 pre
             (bounds_text da db dc dd ++ suf) suf
             (bounds_captures (da, db, dc, dd))).
  - unfold group. simpl.
    by rewrite !parseInt10_digits.
  - intros p q -> Hq.
    destruct (match_here 4 bounds_re (q ++ bounds_text da db dc dd ++ suf))
      as [[rest caps]|] eqn:Hm; [|done].
    exfalso. rewrite match_here_bounds in Hm.
    destruct (bounds_here (q ++ bounds_text da db dc dd ++ suf))
      as [[rest' [[[a b] c] d]]|] eqn:Hh; [|done].
    apply bounds_here_inv in Hh. destruct Hh as (Heq & Ha' & Hb' & Hc' & Hd').
    assert (Hocc : bounds_occurrence
                     ((p ++ q) ++ bounds_text da db dc dd ++ suf)
                     p a b c d rest').
    { split; [|done]. by rewrite <- app_assoc, Heq. }
    apply Hfirst in Hocc. rewrite length_app in Hocc.
    destruct q; [done|]. simpl in Hocc. lia.
  - by rewrite match_here_bounds, bounds_here_text.
Qed.

Lemma parseBounds_none s :
  no_bounds_occurrence s -> parseBounds s = zero_rect.
Proof.
  intros Hno. unfold parseBounds, exec.
  rewrite search_from_none; [done|].
  intros p q ->.
  destruct (match_here 4 bounds_re q) as [[rest caps]|] eqn:Hm; [|done].
  exfalso. rewrite match_here_bounds in Hm.
  destruct (bounds_here q) as [[rest' [[[a b] c] d]]|] eqn:Hh; [|done].
  apply bounds_here_inv in Hh. destruct Hh as (-> & Ha & Hb & Hc & Hd).
  by apply (Hno p a b c d rest').
Qed.

End BoundsFacts.

Import BoundsFacts.

(** C2, as stated, fails above 2^53, where a number no longer holds every
    integer: the left edge 9007199254740993 is read as 9007199254740992. *)
Lemma parseBounds_rounds_large_values :
  ~ (forall s pre da db dc dd suf,
       first_bounds_occurrence s pre da db dc dd suf ->
       parseBounds s
       = mkRect (JNum (decimal_value da)) (JNum (decimal_value db))
           (JNum (decimal_value dc - decimal_value da))
           (JNum (decimal_value dd - decimal_value db))).
Proof.
  intros H.
  specialize (H (str "[9007199254740993,0][0,0]") []
                (str "9007199254740993") (str "0") (str "0") (str "0") []).
  assert (Hocc : first_bounds_occurrence (str "[9007199254740993,0][0,0]") []
                   (str "9007199254740993") (str "0") (str "0") (str "0") []).
  { split; [|intros; simpl; lia].
    split; [reflexivity|]. repeat split; by apply is_digits_check. }
  specialize (H Hocc). vm_compute in H. discriminate.
Qed.

(** C2, amended. When the bounds pattern occurs in the input, with
    [a,b][c,d] its leftmost occurrence and the four values at most 2^53,
    [parseBounds] returns x = a, y = b, width = c - a and height = d - b;
    the differences are kept as they are, so an inverted rectangle has a
    negative width or height. *)
Theorem parseBounds_wellformed :
  forall s pre da db dc dd suf,
    first_bounds_occurrence s pre da db dc dd suf ->
    let a := decimal_value da in
    let b := decimal_value db in
    let c := decimal_value dc in
    let d := decimal_value dd in
    a <= 2 ^ 53 -> b <= 2 ^ 53 -> c <= 2 ^ 53 -> d <= 2 ^ 53 ->
    parseBounds s = mkRect (JNum a) (JNum b) (JNum (c - a)) (JNum (d - b)) /\
    (c < a -> exists w, width (parseBounds s) = JNum w /\ w < 0) /\
    (d < b -> exists h, height (parseBounds s) = JNum h /\ h < 0).
Proof.
  intros s pre da db dc dd suf Hfirst a b c d Ha Hb Hc Hd.
  destruct Hfirst as [(Hs & Hda & Hdb & Hdc & Hdd) Hleft].
  pose proof (decimal_value_nonneg da (proj2 Hda)) as Ha0.
  pose proof (decimal_value_nonneg db (proj2 Hdb)) as Hb0.
  pose proof (decimal_value_nonneg dc (proj2 Hdc)) as Hc0.
  pose proof (decimal_value_nonneg dd (proj2 Hdd)) as Hd0.
  assert (Heq : parseBounds s
                = mkRect (JNum a) (JNum b) (JNum (c - a)) (JNum (d - b))).
  { rewrite (parseBounds_first s pre da db dc dd suf) by done.
    fold a b c d.
    rewrite !to_double_exact by lia. simpl.
    by rewrite !to_double_exact by lia. }
  split; [exact Heq|]. rewrite Heq. simpl.
  split; intros Hlt; eexists; (split; [reflexivity|lia]).
Qed.

Lemma parseBounds_wellformed_witness :
  parseBounds (str "[30,5][10,2]")
  = mkRect (JNum 30) (JNum 5) (JNum (-20)) (JNum (-3)).
Proof.
  refine (proj1 (parseBounds_wellformed (str "[30,5][10,2]") []
                   (str "30") (str "5") (str "10") (str "2") [] _ _ _ _ _)).
  - split; [|intros; simpl; lia].
    split; [reflexivity|]. repeat split; by apply is_digits_check.
  - by vm_compute.
  - by vm_compute.
  - by vm_compute.
  - by vm_compute.
Defined.

(** C8. When the bounds pattern occurs nowhere in the input,
    [parseBounds] returns the zero rectangle; it is a total function, so
    nothing is thrown.  The inputs garbage, the empty string and [1,2] are
    instances. *)
Theorem parseBounds_no_match :
  (forall s, no_bounds_occurrence s -> parseBounds s = zero_rect) /\
  parseBounds (str "garbage") = zero_rect /\
  parseBounds [] = zero_rect /\
  parseBounds (str "[1,2]") = zero_rect.
Proof.
  split; [apply parseBounds_none|]. by vm_compute.
Qed.

Lemma parseBounds_no_match_witness :
  no_bounds_occurrence (str "garbage") /\
  parseBounds (str "garbage") = zero_rect.
Proof.
  assert (Hno : no_bounds_occurrence (str "garbage")).
  { intros pre da db dc dd suf [Heq _].
    assert (Hin : In (ch "[") (str "garbage")).
    { rewrite Heq, bounds_text_cons. apply in_app_iff. right. by left. }
    vm_compute in Hin. intuition discriminate. }
  split; [exact Hno|].
  exact (proj1 parseBounds_no_match (str "garbage") Hno).
Defined.

(* ===================================================================== *)
(** ** Attribute extraction: what [extractAttr] returns *)
(* ===================================================================== *)

Module AttrFacts.
Import Regex RegexFacts BoundsFacts.

Definition quote : N := 34%N.

(** The text that opens an attribute: the name, an equals sign and a
    double quote. *)
Definition attr_open (name : jsstring) : jsstring :=
  name ++ str "=" ++ [quote].

(** The attribute is present in the attribute substring. *)
Definition has_attr (name attrs : jsstring) : Prop :=
  exists pre suf, attrs = pre ++ attr_open name ++ suf.

(** The value of an attribute: the characters between the first pair of
    double quotes that follows the first occurrence of the name and the
    equals sign. *)
Definition attr_value (name attrs v : jsstring) : Prop :=
  exists pre suf,
    attrs = pre ++ attr_open name ++ v ++ [quote] ++ suf /\
    Forall (fun c => c <> quote) v /\
    forall pre' suf', attrs = pre' ++ attr_open name ++ suf' ->
                      (length pre <= length pre')%nat.

Lemma match_here_attr_inv name s rest caps :
  match_here 1 (attr_re name) s = Some (rest, caps) ->
  exists s', s = attr_open name ++ s'.
Proof.
  unfold match_here, attr_re. rewrite run_Seq. intros H.
  apply run_Lit_inv in H. destruct H as (s1 & -> & H).
  rewrite run_Seq in H. apply run_Lit_inv in H. destruct H as (s2 & -> & H).
  rewrite run_Seq, run_Chr in H.
  destruct (expect 34%N s2) as [s3|] eqn:He; [|done].
  apply expect_inv in He. subst s2. exists s3.
  unfold attr_open, quote. by rewrite <- !app_assoc.
Qed.

Lemma match_here_attr name v suf :
  Forall (fun c => c <> quote) v ->
  match_here 1 (attr_re name) (attr_open name ++ v ++ [quote] ++ suf)
  = Some (suf, [None; Some v]).
Proof.
  intros Hv. unfold match_here, attr_re, attr_open.
  rewrite <- !app_assoc.
  rewrite run_Seq, run_Lit, run_Seq, run_Lit, run_Seq, run_Chr.
  simpl app. unfold quote at 1. rewrite expect_cons. bind_step.
  rewrite run_Seq. cbn [run].
  rewrite star_greedy_longest.
  - assert (Hall : Forall (fun c => none_of 34%N c = true) v).
    { revert Hv. apply List.Forall_impl. intros c Hc. unfold none_of.
      apply negb_true_iff, N.eqb_neq. exact Hc. }
    destruct (take_while_app (none_of 34%N) v (quote :: suf) Hall)
      as [_ Hdrop]; [done|].
    rewrite !Hdrop. change (one 34%N quote) with true. cbv iota.
    replace (length (v ++ quote :: suf) - length (quote :: suf))%nat
      with (length v) by (rewrite length_app; simpl; lia).
    by rewrite take_app_length.
  - intros c s Hc. unfold none_of in Hc. apply negb_true_iff in Hc.
    unfold one. by rewrite Hc.
Qed.

Lemma extractAttr_absent name attrs :
  ~ has_attr name attrs -> extractAttr attrs name = [].
Proof.
  intros Hno. unfold extractAttr, exec.
  rewrite search_from_none; [done|].
  intros p q ->.
  destruct (match_here 1 (attr_re name) q) as [[rest caps]|] eqn:Hm; [|done].
  exfalso. apply match_here_attr_inv in Hm. destruct Hm as (s' & ->).
  apply Hno. by exists p, s'.
Qed.

Lemma extractAttr_value name attrs v :
  attr_value name attrs v -> extractAttr attrs name = v.
Proof.
  intros (pre & suf & -> & Hv & Hfirst). unfold extractAttr, exec.
  rewrite (search_from_first 1 (attr_re name) 0 pre
             (attr_open name ++ v ++ [quote] ++ suf) suf [None; Some v]).
  - done.
  - intros p q -> Hq.
    destruct (match_here 1 (attr_re name)
                (q ++ attr_open name ++ v ++ [quote] ++ suf))
      as [[rest caps]|] eqn:Hm; [|done].
    exfalso. apply match_here_attr_inv in Hm. destruct Hm as (s' & Hs).
    assert (Hle : (length (p ++ q) <= length p)%nat).
    { apply (Hfirst p s'). by rewrite <- app_assoc, Hs. }
    rewrite length_app in Hle. destruct q; [done|]. simpl in Hle. lia.
  - by apply match_here_attr.
Qed.

(** The name is looked for as text, so it is also found at the end of a
    longer attribute name. *)
Example extractAttr_name_suffix :
  extractAttr (strq "long-clickable='true'") (str "clickable") = str "true".
Proof. reflexivity. Qed.

End AttrFacts.

(* ===================================================================== *)
(** ** The structural parser: what it builds and that it never stops *)
(* ===================================================================== *)

Module ParserFacts.
Import Heap AttrFacts.

Lemma bind_unfold {A B} (m : M A) (f : A -> M B) h :
  (x ← m; f x) h
  = match m h with
    | Some (a, h') => f a h'
    | None => None
    end.
Proof. done. Qed.

(** Every object of [h] is still there in [h'], an element or a rectangle
    unchanged, an array still an array. *)
Definition kinds_kept (h h' : heap) : Prop :=
  forall l o, h !! l = Some o ->
    match o with
    | OArray _ => exists items, h' !! l = Some (OArray items)
    | _ => h' !! l = Some o
    end.

Lemma kinds_kept_refl h : kinds_kept h h.
Proof. intros l o Ho. destruct o; eauto. Qed.

Lemma kinds_kept_trans h1 h2 h3 :
  kinds_kept h1 h2 -> kinds_kept h2 h3 -> kinds_kept h1 h3.
Proof.
  intros H12 H23 l o Ho. specialize (H12 l o Ho).
  destruct o as [n|items|r].
  - exact (H23 l _ H12).
  - destruct H12 as [items' H12]. exact (H23 l _ H12).
  - exact (H23 l _ H12).
Qed.

Lemma kinds_kept_app h ext : kinds_kept h (h ++ ext).
Proof.
  intros l o Ho. apply (lookup_app_l_Some _ ext) in Ho.
  destruct o; eauto.
Qed.

Lemma kinds_kept_push h a items items' :
  h !! a = Some (OArray items) ->
  kinds_kept h (<[a := OArray items']> h).
Proof.
  intros Ha l o Ho. destruct (decide (l = a)) as [->|Hne].
  - rewrite Ha in Ho. injection Ho as <-.
    exists items'. apply list_lookup_insert_eq. by eapply lookup_lt_Some.
  - rewrite list_lookup_insert_ne by done. destruct o; eauto.
Qed.

Lemma array_push_eq h a v items :
  h !! a = Some (OArray items) ->
  array_push a v h = Some (tt, <[a := OArray (items ++ [v])]> h).
Proof.
  intros Ha. unfold array_push, read_array, read, write.
  rewrite !bind_unfold, Ha. simpl. by rewrite Ha.
Qed.

(** The element that [build_element] creates from an attribute
    substring, given where its rectangle and children array are. *)
Definition built_node (attrs : jsstring) (bounds children : loc) : node :=
  mkNode (extractAttr attrs (str "resource-id"))
    (extractAttr attrs (str "text"))
    (extractAttr attrs (str "content-desc"))
    (extractAttr attrs (str "class"))
    (extractAttr attrs (str "package"))
    bounds
    (jseq (extractAttr attrs (str "clickable")) (str "true"))
    (jseq (extractAttr attrs (str "enabled")) (str "true"))
    (jseq (extractAttr attrs (str "scrollable")) (str "true"))
    children None.

Lemma build_element_eq attrs h :
  build_element attrs h
  = Some (S (S (length h)),
          h ++ [OBounds (parseBounds (extractAttr attrs (str "bounds")));
                OArray [];
                ONode (built_node attrs (length h) (S (length h)))]).
Proof.
  unfold build_element, alloc. rewrite !bind_unfold.
  rewrite !length_app. simpl length.
  replace (length h + 1)%nat with (S (length h)) by lia.
  replace (S (length h) + 1)%nat with (S (S (length h))) by lia.
  by rewrite <- !app_assoc.
Qed.

(** A reference on the stack is an element whose children array exists. *)
Definition open_node (h : heap) (l : loc) : Prop :=
  exists n items, h !! l = Some (ONode n) /\
                  h !! n_children n = Some (OArray items).

Definition parser_inv (h : heap) (elements : loc) (stack : list loc) : Prop :=
  (exists items, h !! elements = Some (OArray items)) /\
  Forall (open_node h) stack.

Lemma open_node_kept h h' l :
  kinds_kept h h' -> open_node h l -> open_node h' l.
Proof.
  intros Hk (n & items & Hn & Hc).
  destruct (Hk _ _ Hc) as [items' Hc'].
  exists n, items'. split; [exact (Hk _ _ Hn)|exact Hc'].
Qed.

Lemma parser_inv_kept h h' elements stack :
  kinds_kept h h' -> parser_inv h elements stack ->
  parser_inv h' elements stack.
Proof.
  intros Hk [[items He] Hs]. split.
  - exact (Hk _ _ He).
  - revert Hs. apply List.Forall_impl. intros l. by apply open_node_kept.
Qed.

Lemma step_total elements stack t h :
  parser_inv h elements stack ->
  exists stack' h',
    step elements stack t h = Some (stack', h') /\
    parser_inv h' elements stack' /\ kinds_kept h h'.
Proof.
  intros Hinv. destruct t as [|attrs sc].
  - exists (tail stack), h. split; [done|]. split; [|apply kinds_kept_refl].
    destruct Hinv as [He Hs]. split; [done|].
    destruct stack; [done|]. by eapply Forall_inv_tail.
  - simpl. rewrite bind_unfold, build_element_eq.
    set (h1 := h ++ _).
    assert (Hk1 : kinds_kept h h1) by apply kinds_kept_app.
    pose proof (parser_inv_kept _ _ _ _ Hk1 Hinv) as [[eitems He1] Hs1].
    assert (Hnew : open_node h1 (S (S (length h)))).
    { exists (built_node attrs (length h) (S (length h))), [].
      unfold h1. split.
      - rewrite lookup_app_r by lia.
        by replace (S (S (length h)) - length h)%nat with 2%nat by lia.
      - simpl. rewrite lookup_app_r by lia.
        by replace (S (length h) - length h)%nat with 1%nat by lia. }
    destruct stack as [|top rest].
    + rewrite bind_unfold, (array_push_eq _ _ _ _ He1).
      set (h2 := <[elements := _]> h1).
      assert (Hk2 : kinds_kept h1 h2) by (by eapply kinds_kept_push).
      exists (if sc then [] else [S (S (length h))]), h2.
      split; [done|]. split; [|by eapply kinds_kept_trans].
      apply (parser_inv_kept h1); [done|]. split; [by eexists|].
      destruct sc; [constructor|]. by constructor.
    + pose proof (Forall_inv Hs1) as (n & items & Hn & Hc).
      rewrite !bind_unfold. unfold read_node, read. rewrite !bind_unfold, Hn.
      simpl. rewrite (array_push_eq _ _ _ _ Hc).
      set (h2 := <[n_children n := _]> h1).
      assert (Hk2 : kinds_kept h1 h2) by (by eapply kinds_kept_push).
      exists (if sc then top :: rest else S (S (length h)) :: top :: rest), h2.
      split; [done|]. split; [|by eapply kinds_kept_trans].
      apply (parser_inv_kept h1); [done|]. split; [by eexists|].
      destruct sc; [done|]. by constructor.
Qed.

Lemma scan_total elements ts :
  forall stack h,
    parser_inv h elements stack ->
    exists stack' h',
      scan elements stack ts h = Some (stack', h') /\
      parser_inv h' elements stack' /\ kinds_kept h h'.
Proof.
  induction ts as [|t ts IH]; intros stack h Hinv; simpl.
  - exists stack, h. split; [done|]. split; [done|apply kinds_kept_refl].
  - destruct (step_total elements stack t h Hinv) as (s1 & h1 & Hs & Hi & Hk).
    destruct (IH s1 h1 Hi) as (s2 & h2 & Hs2 & Hi2 & Hk2).
    exists s2, h2. rewrite bind_unfold, Hs. split; [done|].
    split; [done|]. by eapply kinds_kept_trans.
Qed.

Lemma parse_total xml h :
  exists h', parseUiAutomatorXml xml h = Some (length h, h') /\
             kinds_kept h h'.
Proof.
  unfold parseUiAutomatorXml. rewrite bind_unfold. unfold alloc at 1.
  destruct (scan_total (length h) (tokens xml) [] (h ++ [OArray []]))
    as (s & h' & Hs & Hi & Hk).
  { split; [|constructor]. exists [].
    rewrite lookup_app_r by lia. by rewrite Nat.sub_diag. }
  exists h'. rewrite bind_unfold, Hs. split; [done|].
  eapply kinds_kept_trans; [apply kinds_kept_app|exact Hk].
Qed.

Lemma scan_app elements pre post stack h :
  scan elements stack (pre ++ post) h
  = match scan elements stack pre h with
    | Some (stack', h') => scan elements stack' post h'
    | None => None
    end.
Proof.
  revert stack h. induction pre as [|t pre IH]; intros stack h; simpl.
  - done.
  - rewrite !bind_unfold. destruct (step elements stack t h) as [[s1 h1]|]; [|done].
    apply IH.
Qed.

End ParserFacts.

(* ===================================================================== *)
(** ** Claims about the structural parser *)
(* ===================================================================== *)

Import Heap AttrFacts ParserFacts StringFacts.





(** C5. The parser looks an attribute up as text: the first place where
    the name, an equals sign and a double quote stand, wherever that is.
    So a flag whose attribute has the value true is read as false when a
    text value before it ends with the name and an equals sign; a flag
    whose attribute is absent is read as true when a longer name ends
    with its name and has the value true, and the value of the flag is
    passed over when that longer attribute comes first; and a string
    attribute that is absent is read as not empty. *)
Theorem parsed_attributes_misread :
  map enabled
    <$> parsed_forest
          (strq "<node text='enabled=' resource-id='' enabled='true' />")
  = Some [false] /\
  map clickable <$> parsed_forest (strq "<node long-clickable='true' />")
  = Some [true] /\
  map clickable
    <$> parsed_forest (strq "<node long-clickable='false' clickable='true' />")
  = Some [false] /\
  map package <$> parsed_forest (strq "<node text='package=' class='a.B' />")
  = Some [str " class="].
Proof. by vm_compute. Qed.

Definition attrs_example : jsstring := strq "text='Hi' clickable='1'".

(** C6. A closing token met while the stack is empty changes nothing:
    the stack stays empty and the heap, hence the forest built so far, is
    the same; the scan goes on as if the token were not there; and the
    parser returns on every input. *)
Theorem stray_close_is_noop :
  (forall elements h, step elements [] Close h = Some ([], h)) /\
  (forall elements pre post h h1,
     scan elements [] pre h = Some ([], h1) ->
     scan elements [] (pre ++ Close :: post) h
     = scan elements [] (pre ++ post) h) /\
  (forall xml h,
     exists h', parseUiAutomatorXml xml h = Some (length h, h') /\
                kinds_kept h h') /\
  parsed_forest (strq "</node><node text='a' /></node>")
  = parsed_forest (strq "<node text='a' />").
Proof.
  split; [done|]. split; [|split; [apply parse_total|by vm_compute]].
  intros elements pre post h h1 Hpre.
  by rewrite !scan_app, Hpre.
Qed.

Lemma stray_close_is_noop_witness :
  scan 0%nat [] ([Open attrs_example true] ++ Close :: [Open [] false])
    [OArray []]
  = scan 0%nat [] ([Open attrs_example true] ++ [Open [] false]) [OArray []].
Proof.
  eapply (proj1 (proj2 stray_close_is_noop)). vm_compute. reflexivity.
Defined.

(* ===================================================================== *)
(** ** The capture step: the trailer and the envelope check *)
(* ===================================================================== *)

Module CaptureFacts.
Import Regex RegexFacts.

(** A successful run ends with a successful call of the continuation, on
    what is left of the input. *)
Lemma run_reaches {A} r :
  forall s caps (k : jsstring -> captures -> option A) x,
    run r s caps k = Some x ->
    exists s' caps', k s' caps' = Some x /\ (length s' <= length s)%nat.
Proof.
  induction r as [|p|r1 IH1 r2 IH2|r1 IH1 r2 IH2|g p|i r IH|];
    intros s caps k x; simpl.
  - eauto.
  - destruct s as [|c s]; [done|]. destruct (p c); [|done].
    intros H. exists s, caps. simpl. split; [done|lia].
  - intros H. apply IH1 in H. destruct H as (s1 & c1 & H & Hl1).
    apply IH2 in H. destruct H as (s2 & c2 & H & Hl2).
    exists s2, c2. split; [done|lia].
  - destruct (run r1 s caps k) eqn:H1.
    + intros [= <-]. eauto.
    + eauto.
  - destruct g.
    + induction s as [|c s IHs]; simpl; [eauto|].
      assert (Hk : k (c :: s) caps = Some x ->
                   exists s' caps', k s' caps' = Some x /\
                                    (length s' <= S (length s))%nat)
        by (intros Hx; exists (c :: s), caps; by split).
      destruct (p c); [|exact Hk].
      destruct (star_greedy p (fun s' => k s' caps) s) eqn:Hg; [|exact Hk].
      intros [= <-]. destruct (IHs eq_refl) as (s' & c' & H & Hl).
      exists s', c'. split; [done|lia].
    + induction s as [|c s IHs]; simpl.
      * destruct (k [] caps) eqn:Hk; [|done]. intros [= <-]. eauto.
      * destruct (k (c :: s) caps) eqn:Hk.
        -- intros [= <-]. exists (c :: s), caps. by split.
        -- destruct (p c); [|done]. intros H.
           destruct (IHs H) as (s' & c' & H' & Hl).
           exists s', c'. split; [done|lia].
  - intros H. apply IH in H. destruct H as (s1 & c1 & H & Hl). eauto.
  - destruct s; [eauto|done].
Qed.

(** The trailer pattern only matches up to the end of the input. *)
Lemma trailer_match_to_end s rest caps :
  match_here 0 Heap.trailer_re s = Some (rest, caps) -> rest = [].
Proof.
  unfold match_here, Heap.trailer_re. rewrite run_Seq. intros H.
  apply run_reaches in H. destruct H as (s1 & c1 & H & _).
  rewrite run_Seq in H. apply run_reaches in H. destruct H as (s2 & c2 & H & _).
  rewrite run_Seq in H. apply run_reaches in H. destruct H as (s3 & c3 & H & _).
  rewrite run_Seq in H. apply run_reaches in H. destruct H as (s4 & c4 & H & _).
  simpl in H. destruct s4; [|done]. by injection H as <- _.
Qed.

Lemma replace_trailer_prefix s :
  exists suf, s = replace_empty 0 Heap.trailer_re s ++ suf.
Proof.
  unfold replace_empty, exec.
  destruct (search_from 0 Heap.trailer_re 0 s) as [m|] eqn:Hm.
  - apply search_from_inv in Hm. destruct Hm as (p & q & -> & Hq & Hi & _).
    apply trailer_match_to_end in Hq. rewrite Hq, app_nil_r, Hi. simpl.
    exists q. by rewrite take_app_length.
  - exists []. by rewrite app_nil_r.
Qed.

Lemma trimStart_suffix s : exists pre, s = pre ++ trimStart s.
Proof.
  induction s as [|c s [pre IH]]; simpl; [by exists []|].
  destruct (is_space c); [|by exists []].
  exists (c :: pre). simpl. by rewrite <- IH.
Qed.

Lemma trim_infix s : exists pre suf, s = pre ++ trim s ++ suf.
Proof.
  unfold trim. destruct (trimStart_suffix s) as [pre Hpre].
  destruct (trimStart_suffix (rev (trimStart s))) as [suf Hsuf].
  exists pre, (rev suf).
  rewrite <- rev_app_distr, <- Hsuf, rev_involutive. exact Hpre.
Qed.

Lemma includes_cleaned p s :
  includes p (trim (replace_empty 0 Heap.trailer_re s)) = true ->
  includes p s = true.
Proof.
  rewrite !StringFacts.includes_spec. intros (pre & suf & H).
  destruct (replace_trailer_prefix s) as [suf1 H1].
  destruct (trim_infix (replace_empty 0 Heap.trailer_re s)) as (pre2 & suf2 & H2).
  exists (pre2 ++ pre), (suf ++ suf2 ++ suf1).
  rewrite H1 at 1. rewrite H2 at 1. rewrite H. by rewrite <- !app_assoc.
Qed.

(** Every match of the tag pattern consumes input, so the scanning loop
    ends and the fuel that [tokens] gives it is never used up. *)
Lemma run_Alt {A} r1 r2 s caps (k : jsstring -> captures -> option A) :
  run (Alt r1 r2) s caps k
  = match run r1 s caps k with
    | Some x => Some x
    | None => run r2 s caps k
    end.
Proof. done. Qed.

Lemma tag_match_consumes s rest caps :
  match_here 1 tag_re s = Some (rest, caps) ->
  (length rest < length s)%nat.
Proof.
  unfold match_here, tag_re. rewrite run_Alt.
  match goal with
  | |- match ?a with _ => _ end = _ -> _ => destruct a as [x|] eqn:H1
  end.
  - intros [= ->]. rewrite run_Seq in H1.
    apply run_Lit_inv in H1. destruct H1 as (s1 & -> & H1).
    apply run_reaches in H1. destruct H1 as (s' & c' & [= -> _] & Hl).
    rewrite length_app. unfold str. simpl. lia.
  - intros H2. apply run_Lit_inv in H2. destruct H2 as (s1 & -> & [= <- _]).
    rewrite length_app. unfold str. simpl. lia.
Qed.

Lemma tag_search_consumes idx s m :
  search_from 1 tag_re idx s = Some m ->
  (length (m_rest m) < length s)%nat.
Proof.
  intros H. apply search_from_inv in H.
  destruct H as (p & q & -> & Hq & _). apply tag_match_consumes in Hq.
  rewrite length_app. lia.
Qed.

Lemma exec_all_fuel fuel1 :
  forall fuel2 s,
    (length s < fuel1)%nat -> (length s < fuel2)%nat ->
    exec_all fuel1 1 tag_re s = exec_all fuel2 1 tag_re s.
Proof.
  induction fuel1 as [|fuel1 IH]; intros fuel2 s H1 H2; [lia|].
  destruct fuel2 as [|fuel2]; [lia|]. simpl.
  destruct (exec 1 tag_re s) as [m|] eqn:Hm; [|done].
  apply tag_search_consumes in Hm. f_equal. apply IH; lia.
Qed.

Lemma tokens_fuel fuel xml :
  (length xml < fuel)%nat ->
  tokens xml = map token_of_match (exec_all fuel 1 tag_re xml).
Proof.
  intros H. unfold tokens. f_equal. apply exec_all_fuel; lia.
Qed.

End CaptureFacts.

Definition failed_dump (trailer : jsstring) : jsstring :=
  str "ERROR: null root node returned by UiTestAutomationBridge."
  ++ newline ++ trailer.

Definition unexpected (excerpt : jsstring) : jsstring :=
  str "UIAutomator dump returned unexpected output: " ++ excerpt.

(** C4, where the code departs from it and where it agrees.  The trailer
    as the device tool spells it (hierchary) is not removed: the pattern
    accepts hierarchy and hierarcy only, so the error excerpt still
    carries the trailer.  With the spelling hierarchy the trailer is
    removed.  And a dump text without the envelope marker anywhere always
    ends in the error, with the first 200 characters of the cleaned text,
    and never in a forest. *)
Theorem getUiHierarchy_trailer_and_envelope :
  (forall h,
     getUiHierarchy (failed_dump (str "UI hierchary dumped to: /dev/tty")) h
     = Some (Thrown (unexpected
                       (failed_dump (str "UI hierchary dumped to: /dev/tty"))),
             h)) /\
  (forall h,
     getUiHierarchy (failed_dump (str "UI hierarchy dumped to: /dev/tty")) h
     = Some (Thrown (unexpected
               (str "ERROR: null root node returned by UiTestAutomationBridge.")),
             h)) /\
  (forall xml h,
     includes (str "<hierarchy") xml = false ->
     getUiHierarchy xml h
     = Some (Thrown (unexpected
                       (take 200%nat (trim (Regex.replace_empty 0 trailer_re xml)))),
             h)).
Proof.
  split; [|split].
  - intros h. unfold getUiHierarchy.
    replace (trim (Regex.replace_empty 0 trailer_re
               (failed_dump (str "UI hierchary dumped to: /dev/tty"))))
      with (failed_dump (str "UI hierchary dumped to: /dev/tty"))
      by (by vm_compute).
    reflexivity.
  - intros h. unfold getUiHierarchy.
    replace (trim (Regex.replace_empty 0 trailer_re
               (failed_dump (str "UI hierarchy dumped to: /dev/tty"))))
      with (str "ERROR: null root node returned by UiTestAutomationBridge.")
      by (by vm_compute).
    reflexivity.
  - intros xml h Hno. unfold getUiHierarchy.
    destruct (includes (str "<hierarchy")
                (trim (Regex.replace_empty 0 trailer_re xml))) eqn:Hi.
    + apply CaptureFacts.includes_cleaned in Hi. congruence.
    + reflexivity.
Qed.

Lemma getUiHierarchy_trailer_and_envelope_witness :
  getUiHierarchy (str "error: no devices/emulators found") []
  = Some (Thrown (unexpected (str "error: no devices/emulators found")), []).
Proof.
  exact (proj2 (proj2 getUiHierarchy_trailer_and_envelope)
           (str "error: no devices/emulators found") [] eq_refl).
Defined.

(* ===================================================================== *)
(** ** Shared objects: what the tree operations do to the heap *)
(* ===================================================================== *)

Module SharedFacts.
Import Heap.

(** The fuel that a walk over a forest needs: one unit for each nested
    call or iteration on the longest way through it. *)
Fixpoint fuel_list (f : UiElement -> nat) (l : list UiElement) : nat :=
  match l with
  | [] => 1
  | t :: r => S (Nat.max (f t) (fuel_list f r))
  end.

Fixpoint walk_fuel_el (t : UiElement) : nat :=
  fuel_list walk_fuel_el (children t).

Definition walk_fuel (forest : list UiElement) : nat :=
  fuel_list walk_fuel_el forest.

(** The fields that an element object holds by value agree with a tree
    node. *)
Definition same_fields (n : node) (t : UiElement) : Prop :=
  n_resource_id n = resource_id t /\ n_text n = text t /\
  n_content_desc n = content_desc t /\ n_class n = class t /\
  n_package n = package t /\ n_clickable n = clickable t /\
  n_enabled n = enabled t /\ n_scrollable n = scrollable t.

(** The object at [l] stands for the tree [t]: its fields, its rectangle
    and, through its children array, its subtrees. *)
#[local] Unset Elimination Schemes.
Inductive repr (h : heap) : UiElement -> loc -> Prop :=
| repr_node t l n items :
    h !! l = Some (ONode n) ->
    same_fields n t ->
    h !! n_bounds n = Some (OBounds (bounds t)) ->
    h !! n_children n = Some (OArray items) ->
    Forall2 (repr h) (children t) items ->
    repr h t l.
#[local] Set Elimination Schemes.

(** The array at [roots] stands for a forest. *)
Definition repr_forest (h : heap) (forest : list UiElement) (roots : loc)
    : Prop :=
  exists items, h !! roots = Some (OArray items) /\
                Forall2 (repr h) forest items.

Lemma repr_grow h h' t :
  h `prefix_of` h' -> forall l, repr h t l -> repr h' t l.
Proof.
  intros Hp.
  induction t as [rid tx cd c p b cl en sc kids IH] using UiElement_ind.
  intros l H. inversion H as [t' l' n items Hl Hf Hb Hc Hkids]; subst.
  apply (repr_node _ _ _ n items);
    try (by eapply prefix_lookup_Some); [done|].
  simpl in *. clear -IH Hkids.
  induction Hkids as [|k i ks its Hk _ IHk]; [constructor|].
  inversion IH; subst. constructor; auto.
Qed.

Lemma reprs_grow h h' forest items :
  h `prefix_of` h' ->
  Forall2 (repr h) forest items -> Forall2 (repr h') forest items.
Proof.
  intros Hp. induction 1; constructor; [by eapply repr_grow|done].
Qed.

Section WalkFacts.
Context {Out B : Type}.
Variable visit : nat -> loc -> M (list Out).
Variable descend : nat -> bool.
Variable pure_out : nat -> UiElement -> list B.
Variable rel : heap -> list B -> list Out -> Prop.
Variable h0 : heap.

Hypothesis visit_ok :
  forall h d t l,
    h0 `prefix_of` h -> repr h t l ->
    exists h' out,
      visit d l h = Some (out, h') /\ h `prefix_of` h' /\
      rel h' (pure_out d t) out.
Hypothesis rel_grow :
  forall h h' bs os, h `prefix_of` h' -> rel h bs os -> rel h' bs os.
Hypothesis rel_app :
  forall h b1 o1 b2 o2,
    rel h b1 o1 -> rel h b2 o2 -> rel h (b1 ++ b2) (o1 ++ o2).
Hypothesis rel_nil : forall h, rel h [] [].
Hypothesis descend_mono :
  forall d d', (d <= d')%nat -> descend d = false -> descend d' = false.

(** What the walk pushes, read off the tree. *)
Definition visited (d : nat) (forest : list UiElement) : list B :=
  flat_map (fun p => pure_out (fst p) (snd p))
    (List.filter (fun p => descend (fst p)) (preorder_from d forest)).

Lemma visited_deep d forest :
  descend d = false -> visited d forest = [].
Proof.
  intros Hd. unfold visited, preorder_from.
  rewrite filter_flat_map.
  induction forest as [|e l IH]; simpl; [done|].
  rewrite flat_map_app, IH, app_nil_r.
  generalize (preorder_at_depth d e).
  induction 1 as [|q qs Hq _ IHq]; simpl; [done|].
  by rewrite (descend_mono _ _ Hq Hd).
Qed.

Lemma visited_cons d t ts :
  descend d = true ->
  visited d (t :: ts)
  = pure_out d t ++ visited (S d) (children t) ++ visited d ts.
Proof.
  intros Hd. unfold visited, preorder_from. destruct t. simpl.
  rewrite Hd. simpl. by rewrite List.filter_app, flat_map_app.
Qed.

Lemma walk_fuel_cons t ts :
  walk_fuel (t :: ts) = S (Nat.max (walk_fuel (children t)) (walk_fuel ts)).
Proof. by destruct t. Qed.

Lemma walk_ok fuel :
  forall forest h d acc elements done rest,
    (walk_fuel forest <= fuel)%nat ->
    descend d = true ->
    h0 `prefix_of` h ->
    h !! elements = Some (OArray (done ++ rest)) ->
    Forall2 (repr h) forest rest ->
    exists h' out,
      Shared.walk visit descend fuel elements (length done) d acc h
      = Some (acc ++ out, h') /\
      h `prefix_of` h' /\ rel h' (visited d forest) out.
Proof.
  induction fuel as [|fuel IH];
    intros forest h d acc elements done rest Hfuel Hd Hh0 Hel Hrepr.
  { unfold walk_fuel in Hfuel. destruct forest; simpl in Hfuel; lia. }
  simpl. rewrite ParserFacts.bind_unfold.
  unfold read_array, read. rewrite ParserFacts.bind_unfold, Hel. simpl.
  destruct Hrepr as [|t l ts ls Ht Hts].
  - rewrite lookup_ge_None_2 by (rewrite length_app; simpl; lia).
    exists h, []. rewrite app_nil_r. split; [done|].
    split; [done|apply rel_nil].
  - rewrite walk_fuel_cons in Hfuel.
    rewrite lookup_app_r by lia. rewrite Nat.sub_diag. simpl.
    destruct (visit_ok h d t l Hh0 Ht) as (h1 & out1 & Hv & Hp1 & Hr1).
    rewrite ParserFacts.bind_unfold, Hv.
    pose proof (repr_grow _ _ _ Hp1 _ Ht) as Ht1.
    inversion Ht1 as [t' l' n items Hl Hf Hb Hc Hkids]; subst t' l'.
    unfold read_node, read. rewrite !ParserFacts.bind_unfold, Hl. simpl.
    assert (Hstep :
      exists h2 out2,
        (if descend (S d)
         then Shared.walk visit descend fuel (n_children n) 0 (S d) (acc ++ out1)
         else ret (acc ++ out1)) h1
        = Some ((acc ++ out1) ++ out2, h2) /\
        h1 `prefix_of` h2 /\
        rel h2 (visited (S d) (children t)) out2).
    { destruct (descend (S d)) eqn:Hsd.
      - apply (IH (children t) h1 (S d) (acc ++ out1) (n_children n) []
                 items); [lia|done|by etrans|done|done].
      - exists h1, []. rewrite app_nil_r. split; [done|]. split; [done|].
        rewrite visited_deep by done. apply rel_nil. }
    destruct Hstep as (h2 & out2 & Hw2 & Hp2 & Hr2).
    rewrite ParserFacts.bind_unfold, Hw2.
    assert (Hp02 : h `prefix_of` h2) by (by etrans).
    destruct (IH ts h2 d ((acc ++ out1) ++ out2) elements (done ++ [l]) ls)
      as (h3 & out3 & Hw3 & Hp3 & Hr3); [lia|done|by etrans| | |].
    { rewrite <- app_assoc. by eapply prefix_lookup_Some. }
    { by eapply reprs_grow. }
    rewrite length_app in Hw3. simpl in Hw3.
    replace (length done + 1)%nat with (S (length done)) in Hw3 by lia.
    exists h3, (out1 ++ out2 ++ out3).
    split; [by rewrite Hw3, <- !app_assoc|].
    split; [by etrans|].
    rewrite visited_cons by done.
    apply rel_app; [|apply rel_app; [|done]].
    + apply (rel_grow h1); [by etrans|done].
    + by apply (rel_grow h2).
Qed.

(** A walk whose loop body only reads leaves the heap as it was. *)
Hypothesis visit_reads :
  forall d l h out h', visit d l h = Some (out, h') -> h' = h.

Lemma walk_reads fuel :
  forall elements i d acc h out h',
    Shared.walk visit descend fuel elements i d acc h = Some (out, h') -> h' = h.
Proof.
  induction fuel as [|fuel IH]; intros elements i d acc h out h'; [done|].
  simpl. rewrite ParserFacts.bind_unfold. unfold read_array, read.
  rewrite ParserFacts.bind_unfold.
  destruct (h !! elements) as [[n|items|r]|]; try done. simpl.
  destruct (items !! i) as [el|]; [|by intros [= _ <-]].
  rewrite ParserFacts.bind_unfold.
  destruct (visit d el h) as [[pushed h1]|] eqn:Hv; [|done].
  apply visit_reads in Hv. subst h1.
  unfold read_node, read. rewrite !ParserFacts.bind_unfold.
  destruct (h !! el) as [[n|its|r]|]; try done. simpl.
  rewrite ParserFacts.bind_unfold.
  destruct (descend (S d)).
  - destruct (Shared.walk visit descend fuel (n_children n) 0 (S d) (acc ++ pushed) h)
      as [[acc1 h1]|] eqn:Hw; [|done].
    apply IH in Hw. subst h1. apply IH.
  - simpl. apply IH.
Qed.
End WalkFacts.

(** A record of [flattenHierarchy] in the heap [h'], for a call that
    started in the heap [h]: a new object with the fields and the depth of
    the record, the rectangle of the original, and a new, empty children
    array. *)
Definition flat_repr (h h' : heap) (fr : FlatElement) (l : loc) : Prop :=
  (length h <= l)%nat /\
  exists n,
    h' !! l = Some (ONode n) /\
    same_fields n (element fr) /\
    n_depth n = Some (depth fr) /\
    h' !! n_bounds n = Some (OBounds (bounds (element fr))) /\
    (length h <= n_children n)%nat /\
    h' !! n_children n = Some (OArray []).

Lemma find_visit_ok selector h d t l :
  repr h t l ->
  Shared.find_visit selector d l h
  = Some (if selector_match selector t then [l] else [], h).
Proof.
  intros Ht. inversion Ht as [t' l' n items Hl Hf Hb Hc Hkids]; subst.
  unfold Shared.find_visit, read_node, read. rewrite !ParserFacts.bind_unfold, Hl.
  simpl. destruct Hf as (-> & -> & -> & _). done.
Qed.

Lemma compact_visit_ok h d t l :
  repr h t l ->
  Shared.compact_visit d l h = Some ([compact_line d t], h).
Proof.
  intros Ht. inversion Ht as [t' l' n items Hl Hf Hb Hc Hkids]; subst.
  unfold Shared.compact_visit, read_node, read_bounds, read.
  rewrite !ParserFacts.bind_unfold, Hl. simpl.
  rewrite !ParserFacts.bind_unfold, Hb. simpl.
  destruct Hf as (-> & -> & -> & -> & _ & -> & _ & ->). done.
Qed.

Lemma flatten_visit_ok h0 h d t l :
  h0 `prefix_of` h -> repr h t l ->
  exists h' out,
    Shared.flatten_visit d l h = Some (out, h') /\ h `prefix_of` h' /\
    Forall2 (flat_repr h0 h') [flat_record t d] out.
Proof.
  intros Hp Ht. inversion Ht as [t' l' n items Hl Hf Hb Hc Hkids]; subst.
  unfold Shared.flatten_visit, read_node, read, alloc.
  rewrite !ParserFacts.bind_unfold, Hl. simpl.
  rewrite !ParserFacts.bind_unfold. simpl.
  eexists _, _. split; [reflexivity|].
  split; [rewrite <- app_assoc; by apply prefix_app_r|].
  constructor; [|constructor].
  apply prefix_length in Hp.
  rewrite length_app. simpl. split; [lia|].
  eexists. split.
  { rewrite lookup_app_r by (rewrite length_app; simpl; lia).
    rewrite length_app. simpl.
    by replace (length h + 1 - (length h + 1))%nat with 0%nat by lia. }
  simpl. split; [exact Hf|]. split; [done|]. split.
  { rewrite <- app_assoc. by apply lookup_app_l_Some. }
  split; [lia|].
  rewrite <- app_assoc. rewrite lookup_app_r by lia.
  by rewrite Nat.sub_diag.
Qed.

Lemma flat_repr_grow h0 h h' bs os :
  h `prefix_of` h' ->
  Forall2 (flat_repr h0 h) bs os -> Forall2 (flat_repr h0 h') bs os.
Proof.
  intros Hp. apply Forall2_impl.
  intros fr l (Hl & n & Hn & Hf & Hd & Hb & Hcl & Hc).
  split; [done|]. exists n.
  split; [by eapply prefix_lookup_Some|]. split; [done|]. split; [done|].
  split; [by eapply prefix_lookup_Some|]. split; [done|].
  by eapply prefix_lookup_Some.
Qed.

Lemma limit_mono m d d' :
  (d <= d')%nat -> negb (js_gt d m) = false -> negb (js_gt d' m) = false.
Proof.
  intros Hd. rewrite !negb_false_iff. by apply js_gt_mono.
Qed.

Lemma visited_singletons {B} (f : nat -> UiElement -> B) m d forest :
  visited (fun d => negb (js_gt d m)) (fun d t => [f d t]) d forest
  = emitted f m (preorder_from d forest).
Proof.
  unfold visited, emitted.
  generalize (preorder_from d forest). intros l.
  induction l as [|p l IH]; simpl; [done|].
  unfold within at 1. destruct (negb (js_gt (fst p) m)); simpl; by rewrite IH.
Qed.

Lemma visited_find selector forest :
  visited (fun _ => true)
    (fun _ t => if selector_match selector t then [t] else []) 0 forest
  = findElements forest selector.
Proof.
  rewrite findElements_filter. unfold visited, preorder.
  generalize (preorder_from 0 forest). intros l.
  induction l as [|p l IH]; simpl; [done|].
  rewrite IH. by destruct (selector_match selector (snd p)).
Qed.

(** A tree that [reify] reads is represented where it was read. *)
Lemma reify_repr fuel h :
  forall l t, reify fuel h l = Some t -> repr h t l.
Proof.
  induction fuel as [|fuel IH]; intros l t; [done|]. simpl.
  destruct (h !! l) as [[n|its|r]|] eqn:Hl; try done.
  destruct (h !! n_bounds n) as [[n'|its|r]|] eqn:Hb; try done.
  destruct (h !! n_children n) as [[n'|items|r']|] eqn:Hc; try done.
  destruct (mapM (reify fuel h) items) as [kids|] eqn:Hk; [|done].
  simpl. intros [= <-].
  apply (repr_node _ _ _ n items); [done|by repeat split|done|done|].
  simpl. apply mapM_Some in Hk. clear -IH Hk.
  induction Hk; constructor; auto.
Qed.

Lemma reify_forest_repr fuel h roots forest :
  reify_forest fuel h roots = Some forest -> repr_forest h forest roots.
Proof.
  unfold reify_forest, repr_forest.
  destruct (h !! roots) as [[n|items|r]|]; try done.
  intros Hk. exists items. split; [done|].
  apply mapM_Some in Hk. induction Hk; constructor; [|done].
  by eapply reify_repr.
Qed.

End SharedFacts.

Import SharedFacts.

(** C10. On a heap that holds a forest, the three read-only operations
    return what the tree functions compute and leave every object of the
    forest as it was: [findElements] and [formatCompactTree] return the
    heap they were given, the former returning the matching element
    objects themselves; [flattenHierarchy] only adds objects at the end of
    the heap, each record being a new object with a new, empty children
    array, so that the forest is still represented afterwards. *)
Theorem read_only_operations_frame :
  forall (h : heap) (roots : loc) (forest : list UiElement) (fuel : nat),
    repr_forest h forest roots ->
    (walk_fuel forest <= fuel)%nat ->
    (forall selector, exists results,
        Shared.findElements fuel roots selector h = Some (results, h) /\
        Forall2 (repr h) (findElements forest selector) results) /\
    (forall maxDepth,
        Shared.formatCompactTree fuel roots maxDepth h
        = Some (formatCompactTree forest maxDepth, h)) /\
    (forall maxDepth, exists records ext,
        Shared.flattenHierarchy fuel roots maxDepth h
        = Some (records, h ++ ext) /\
        Forall2 (flat_repr h (h ++ ext))
          (flattenHierarchy forest maxDepth) records /\
        repr_forest (h ++ ext) forest roots).
Proof.
  intros h roots forest fuel (items & Hroots & Hitems) Hfuel.
  split; [|split].
  - intros selector.
    assert (Hvisit : forall h1 d t l,
              h `prefix_of` h1 -> repr h1 t l ->
              exists h' out,
                Shared.find_visit selector d l h1 = Some (out, h') /\
                h1 `prefix_of` h' /\
                Forall2 (repr h')
                  (if selector_match selector t then [t] else []) out).
    { intros h1 d t l _ Ht.
      exists h1, (if selector_match selector t then [l] else []).
      split; [by apply find_visit_ok|]. split; [done|].
      destruct (selector_match selector t); repeat constructor; done. }
    destruct (walk_ok (Shared.find_visit selector) (fun _ => true)
                (fun _ t => if selector_match selector t then [t] else [])
                (fun h bs os => Forall2 (repr h) bs os) h Hvisit
                (fun h1 h2 bs os Hp Hr => reprs_grow h1 h2 bs os Hp Hr)
                (fun h1 b1 o1 b2 o2 H1 H2 => Forall2_app H1 H2)
                (fun h1 => Forall2_nil _)
                (fun d d' _ (Hd : true = false) => Hd)
                fuel forest h 0%nat [] roots [] items Hfuel eq_refl
                (reflexivity h) Hroots Hitems)
      as (h' & out & Hw & Hp & Hr).
    simpl in Hw. rewrite visited_find in Hr.
    assert (h' = h) as ->.
    { eapply (walk_reads (Shared.find_visit selector)); [|exact Hw].
      intros d l h1 out1 h1'. unfold Shared.find_visit, read_node, read.
      rewrite !ParserFacts.bind_unfold.
      destruct (h1 !! l) as [[n|its|r]|]; try done. by intros [= _ <-]. }
    by exists out.
  - intros maxDepth. unfold Shared.formatCompactTree, formatCompactTree.
    set (m := default (JNum 15) maxDepth).
    rewrite ParserFacts.bind_unfold. unfold compact_lines, compact_walk.
    destruct (js_gt 0 m) eqn:Hgt; [done|].
    assert (Hvisit : forall h1 d t l,
              h `prefix_of` h1 -> repr h1 t l ->
              exists h' out,
                Shared.compact_visit d l h1 = Some (out, h') /\
                h1 `prefix_of` h' /\ [compact_line d t] = out).
    { intros h1 d t l _ Ht. exists h1, [compact_line d t].
      split; [by apply compact_visit_ok|done]. }
    assert (Happ : forall (h1 : heap) (b1 o1 b2 o2 : list jsstring),
              b1 = o1 -> b2 = o2 -> b1 ++ b2 = o1 ++ o2)
      by (by intros h1 b1 o1 b2 o2 -> ->).
    assert (Hd0 : negb (js_gt 0 m) = true) by (by rewrite Hgt).
    destruct (walk_ok Shared.compact_visit (fun d => negb (js_gt d m))
                (fun d t => [compact_line d t])
                (fun _ bs os => bs = os) h Hvisit
                (fun h1 h2 bs os _ Hr => Hr) Happ (fun _ => eq_refl)
                (limit_mono m)
                fuel forest h 0%nat [] roots [] items Hfuel Hd0
                (reflexivity h) Hroots Hitems)
      as (h' & out & Hw & Hp & Hr).
    simpl in Hw. rewrite Hw.
    assert (h' = h) as ->.
    { eapply (walk_reads Shared.compact_visit); [|exact Hw].
      intros d l h1 out1 h1'.
      unfold Shared.compact_visit, read_node, read_bounds, read.
      rewrite !ParserFacts.bind_unfold.
      destruct (h1 !! l) as [[n|its|r]|]; try done. simpl.
      rewrite !ParserFacts.bind_unfold.
      destruct (h1 !! n_bounds n) as [[n'|its|r]|]; try done.
      by intros [= _ <-]. }
    subst out. rewrite visited_singletons.
    pose proof (compact_walk_emitted m forest 0 []) as He.
    unfold compact_walk in He. rewrite Hgt in He. simpl in He.
    by rewrite He.
  - intros maxDepth. unfold Shared.flattenHierarchy, flattenHierarchy.
    set (m := default (JNum 20) maxDepth). unfold flatten_walk.
    destruct (js_gt 0 m) eqn:Hgt.
    { exists [], []. rewrite app_nil_r. split; [done|]. split; [constructor|].
      by exists items. }
    assert (Hd0 : negb (js_gt 0 m) = true) by (by rewrite Hgt).
    destruct (walk_ok Shared.flatten_visit (fun d => negb (js_gt d m))
                (fun d t => [flat_record t d])
                (fun h' bs os => Forall2 (flat_repr h h') bs os) h
                (fun h1 d t l Hp Ht => flatten_visit_ok h h1 d t l Hp Ht)
                (fun h1 h2 bs os Hp Hr => flat_repr_grow h h1 h2 bs os Hp Hr)
                (fun h1 b1 o1 b2 o2 H1 H2 => Forall2_app H1 H2)
                (fun h1 => Forall2_nil _)
                (limit_mono m)
                fuel forest h 0%nat [] roots [] items Hfuel Hd0
                (reflexivity h) Hroots Hitems)
      as (h' & out & Hw & [ext ->] & Hr).
    simpl in Hw. exists out, ext. split; [exact Hw|].
    rewrite visited_singletons in Hr.
    pose proof (flatten_walk_emitted m forest 0 []) as He.
    unfold flatten_walk in He. rewrite Hgt in He. simpl in He.
    rewrite He. split; [exact Hr|].
    exists items. split; [by apply lookup_app_l_Some|].
    eapply reprs_grow; [|exact Hitems]. by apply prefix_app_r.
Qed.

Definition example_xml : jsstring :=
  strq "<node class='android.widget.FrameLayout' bounds='[0,0][10,10]'><node class='android.widget.Button' resource-id='app:id/x' clickable='true' bounds='[1,1][2,5]' /></node>".

Definition example_heap : heap :=
  match Heap.parseUiAutomatorXml example_xml [] with
  | Some (_, h) => h
  | None => []
  end.

Definition example_forest : list UiElement :=
  default [] (Heap.parsed_forest example_xml).

Lemma read_only_operations_frame_witness :
  repr_forest example_heap example_forest 0%nat /\
  (walk_fuel example_forest <= 3)%nat /\
  Shared.formatCompactTree 3 0%nat None example_heap
  = Some (formatCompactTree example_forest None, example_heap) /\
  exists records ext,
    Shared.flattenHierarchy 3 0%nat None example_heap
    = Some (records, example_heap ++ ext) /\
    Forall2 (flat_repr example_heap (example_heap ++ ext))
      (flattenHierarchy example_forest None) records /\
    repr_forest (example_heap ++ ext) example_forest 0%nat.
Proof.
  assert (Hrepr : repr_forest example_heap example_forest 0%nat).
  { apply (reify_forest_repr (length example_heap)). by vm_compute. }
  assert (Hfuel : (walk_fuel example_forest <= 3)%nat).
  { apply Nat.leb_le. by vm_compute. }
  destruct (read_only_operations_frame example_heap 0%nat example_forest 3
              Hrepr Hfuel) as (_ & Hcompact & Hflat).
  split; [exact Hrepr|]. split; [exact Hfuel|].
  split; [exact (Hcompact None)|exact (Hflat None)].
Defined.

(* ===================================================================== *)
(** * Further properties of the code *)
(* ===================================================================== *)

Import RegexFacts CaptureFacts.

(* ===================================================================== *)
(** ** Short ids and short class names *)
(* ===================================================================== *)

Module NameFacts.

Lemma lastIndexOf_none c s : lastIndexOf c s = None <-> ~ In c s.
Proof.
  induction s as [|d s IH]; simpl; [tauto|].
  destruct (lastIndexOf c s) as [i|] eqn:Hl.
  - split; [done|]. intros H. exfalso.
    assert (Hin : ~ In c s) by (intros Hin; apply H; by right).
    apply IH in Hin. done.
  - destruct (N.eqb_spec d c) as [->|Hne].
    + split; [done|]. intros H. exfalso. apply H. by left.
    + split; [|done]. intros _ [Hd|Hin]; [done|]. by apply (proj1 IH).
Qed.

Lemma lastIndexOf_some c s i :
  lastIndexOf c s = Some i ->
  s !! i = Some c /\ ~ In c (drop (S i) s).
Proof.
  revert i. induction s as [|d s IH]; intros i; simpl; [done|].
  destruct (lastIndexOf c s) as [j|] eqn:Hl.
  - intros [= <-]. simpl. by apply IH.
  - destruct (N.eqb_spec d c) as [->|Hne]; [|done].
    intros [= <-]. simpl. split; [done|]. rewrite drop_0.
    by apply lastIndexOf_none.
Qed.

Lemma lastIndexOf_app c pre x :
  ~ In c x -> lastIndexOf c (pre ++ c :: x) = Some (length pre).
Proof.
  intros Hx. induction pre as [|d pre IH]; simpl.
  - apply lastIndexOf_none in Hx. by rewrite Hx, N.eqb_refl.
  - by rewrite IH.
Qed.

Lemma drop_past {A} (pre : list A) c x : drop (S (length pre)) (pre ++ c :: x) = x.
Proof. induction pre as [|d pre IH]; simpl; [by rewrite drop_0|exact IH]. Qed.

Lemma startsWith_app p s : startsWith p (p ++ s) = true.
Proof. apply startsWith_spec. by exists s. Qed.


End NameFacts.

(** X1. The short id that the search compares and the compact renderer
    prints never contains a slash; it is the text after the last slash,
    the whole id when there is no slash; taking it twice changes
    nothing. *)
Theorem idPart_short_id :
  (forall rid, ~ In (ch "/") (idPart rid)) /\
  (forall pre x, ~ In (ch "/") x -> idPart (pre ++ ch "/" :: x) = x) /\
  (forall rid, ~ In (ch "/") rid -> idPart rid = rid) /\
  (forall rid, idPart (idPart rid) = idPart rid).
Proof.
  assert (H1 : forall rid, ~ In (ch "/") (idPart rid)).
  { intros rid. rewrite idPart_after_last_slash. unfold after_last_slash.
    destruct (lastIndexOf (ch "/") rid) as [i|] eqn:Hl.
    - by apply NameFacts.lastIndexOf_some in Hl as [_ Hl].
    - by apply NameFacts.lastIndexOf_none. }
  assert (H3 : forall rid, ~ In (ch "/") rid -> idPart rid = rid).
  { intros rid Hno. rewrite idPart_after_last_slash. unfold after_last_slash.
    apply NameFacts.lastIndexOf_none in Hno. by rewrite Hno. }
  split; [exact H1|]. split; [|split; [exact H3|]].
  - intros pre x Hx. rewrite idPart_after_last_slash. unfold after_last_slash.
    rewrite (NameFacts.lastIndexOf_app _ pre x Hx).
    apply NameFacts.drop_past.
  - intros rid. apply H3, H1.
Qed.

Lemma idPart_short_id_witness :
  ~ In (ch "/") (str "name") /\
  idPart (str "com.app:id" ++ ch "/" :: str "name") = str "name".
Proof.
  assert (Hno : ~ In (ch "/") (str "name")).
  { intros H. vm_compute in H. intuition discriminate. }
  split; [exact Hno|].
  exact (proj1 (proj2 idPart_short_id) (str "com.app:id") (str "name") Hno).
Defined.



(* ===================================================================== *)
(** ** The two renderers against each other *)
(* ===================================================================== *)

Module RenderFacts.

(** Depths that never rise by more than one from one entry to the next;
    [prev] is the depth before the first entry. *)
Fixpoint climbs (prev : nat) (l : list nat) : Prop :=
  match l with
  | [] => True
  | d :: r => (d <= S prev)%nat /\ climbs d r
  end.

Lemma climbs_weaken p p' l : (p <= p')%nat -> climbs p l -> climbs p' l.
Proof. destruct l as [|d r]; simpl; [done|]. intros Hp [Hd Hr]. split; [lia|done]. Qed.

Lemma last_default {A} (x : A) l p q : List.last (x :: l) p = List.last (x :: l) q.
Proof.
  revert x. induction l as [|y l IH]; intros x; [done|].
  change (List.last (y :: l) p = List.last (y :: l) q). apply IH.
Qed.

Lemma climbs_app p l1 l2 :
  climbs p l1 -> climbs (List.last l1 p) l2 -> climbs p (l1 ++ l2).
Proof.
  revert p. induction l1 as [|d r IH]; intros p; [done|].
  intros [Hd Hr] H2. split; [done|]. apply IH; [done|].
  destruct r as [|n r]; [done|].
  change (List.last (d :: n :: r) p) with (List.last (n :: r) p) in H2.
  by rewrite (last_default n r d p).
Qed.

Lemma last_ge d p l :
  (d <= p)%nat -> Forall (fun x => (d <= x)%nat) l -> (d <= List.last l p)%nat.
Proof.
  intros Hp Hl. revert p Hp. induction Hl as [|x l Hx _ IH]; intros p Hp; [done|].
  simpl. destruct l; [done|]. by apply IH.
Qed.

Lemma preorder_depths_ge d forest :
  Forall (fun x => (d <= x)%nat) (map fst (preorder_from d forest)).
Proof.
  apply Forall_map. unfold preorder_from. apply Forall_flat_map.
  apply Forall_forall. intros e _. apply preorder_at_depth.
Qed.

Lemma preorder_at_climbs el :
  forall d p, (d <= S p)%nat -> climbs p (map fst (preorder_at d el)).
Proof.
  induction el as [rid t cd c pk b cl en sc kids IH] using UiElement_ind.
  intros d p Hd. simpl. split; [done|].
  fold (preorder_from (S d) kids).
  assert (Hkids : forall q, (d <= q)%nat ->
            climbs q (map fst (preorder_from (S d) kids))).
  { clear Hd p. induction IH as [|k ks Hk _ IHks]; intros q Hq; [done|].
    unfold preorder_from. simpl. rewrite map_app. apply climbs_app.
    - apply Hk. lia.
    - apply IHks.
      apply (last_ge d); [done|].
      generalize (preorder_at_depth (S d) k). rewrite <- Forall_map.
      apply List.Forall_impl. intros x. simpl. lia. }
  by apply Hkids.
Qed.

Lemma preorder_from_climbs d forest :
  forall p, (d <= S p)%nat -> climbs p (map fst (preorder_from d forest)).
Proof.
  induction forest as [|e l IH]; intros p Hp; [done|].
  unfold preorder_from. simpl. rewrite map_app. apply climbs_app.
  - by apply preorder_at_climbs.
  - apply IH.
    assert (H : (d <= List.last (map fst (preorder_at d e)) (d + p))%nat).
    { apply last_ge; [lia|]. apply Forall_map, preorder_at_depth. }
    destruct e. cbn [preorder_at map fst] in *.
    match goal with
    | |- context [List.last (?x :: ?l) p] =>
        rewrite (last_default x l p (d + p)%nat)
    end. lia.
Qed.

(** Dropping every depth over a limit keeps the property: [q] is the
    depth seen last, [p] the depth kept last. *)
Lemma climbs_filter m l :
  forall p q, ((q <= p)%nat \/ js_gt (S p) m = true) -> climbs q l ->
              climbs p (List.filter (fun d => negb (js_gt d m)) l).
Proof.
  induction l as [|d r IH]; intros p q Hpq; simpl; [done|].
  intros [Hd Hr]. destruct (js_gt d m) eqn:Hg; simpl.
  - apply (IH p d); [|done].
    destruct Hpq as [Hq|Hs]; [|by right].
    destruct (decide (d <= p)%nat) as [Hle|Hgt]; [by left|].
    right. by replace (S p) with d by lia.
  - split.
    + destruct Hpq as [Hq|Hs]; [lia|].
      destruct (decide (S p <= d)%nat) as [Hle|Hgt]; [|lia].
      by rewrite (js_gt_mono (S p) d m Hle Hs) in Hg.
    + apply (IH d d); [by left|done].
Qed.

End RenderFacts.

(** X3. In the output of [flattenHierarchy] the first record has depth 0
    and the depth never rises by more than one from a record to the next,
    whatever the depth limit. *)
Theorem flattenHierarchy_depth_steps :
  forall (forest : list UiElement) (maxDepth : option jsnum),
    RenderFacts.climbs 0 (map depth (flattenHierarchy forest maxDepth)) /\
    (forall r rest, flattenHierarchy forest maxDepth = r :: rest -> depth r = 0%nat).
Proof.
  intros forest maxDepth. unfold flattenHierarchy.
  set (m := default (JNum 20) maxDepth).
  rewrite flatten_walk_emitted. simpl. unfold emitted.
  assert (Heq : forall l : list (nat * UiElement),
            map depth (map (fun p => flat_record (snd p) (fst p))
                         (List.filter (within m) l))
            = List.filter (fun d => negb (js_gt d m)) (map fst l)).
  { induction l as [|q l IH]; simpl; [done|]. unfold within at 1.
    destruct (negb (js_gt (fst q) m)); simpl; [|exact IH].
    by f_equal. }
  split.
  - rewrite Heq. apply (RenderFacts.climbs_filter m _ 0%nat 0%nat); [by left|].
    apply RenderFacts.preorder_from_climbs. lia.
  - intros r rest Hr. destruct forest as [|e l]; [done|].
    destruct (js_gt 0 m) eqn:Hg.
    + by rewrite (filter_within_deep m 0 (e :: l) Hg) in Hr.
    + destruct e. unfold preorder_from in Hr. simpl in Hr.
      unfold within in Hr at 1. simpl in Hr. rewrite Hg in Hr. simpl in Hr.
      by injection Hr as <- _.
Qed.

(** X4. With the same depth limit the compact rendering is the flattened
    list rendered record by record: line [i] is built from record [i]
    alone, indented by its depth. *)
Theorem formatCompactTree_from_flattenHierarchy :
  forall (forest : list UiElement) (m : jsnum),
    formatCompactTree forest (Some m)
    = join newline
        (map (fun r => compact_line (depth r) (element r))
           (flattenHierarchy forest (Some m))) /\
    length (compact_lines forest m)
    = length (flattenHierarchy forest (Some m)).
Proof.
  intros forest m.
  assert (H : compact_lines forest m
              = map (fun r => compact_line (depth r) (element r))
                  (flattenHierarchy forest (Some m))).
  { unfold compact_lines, flattenHierarchy. simpl default.
    rewrite compact_walk_emitted, flatten_walk_emitted. simpl.
    unfold emitted. rewrite map_map. apply map_ext.
    intros [d el]. by destruct el. }
  split.
  - unfold formatCompactTree. simpl default. by rewrite H.
  - by rewrite H, length_map.
Qed.

(* ===================================================================== *)
(** ** Decimal digits *)
(* ===================================================================== *)

Module DigitFacts.

Lemma decimal_value_snoc ds c :
  decimal_value (ds ++ [c]) = 10 * decimal_value ds + digit_value c.
Proof. unfold decimal_value. by rewrite fold_left_app. Qed.

(** The character of a digit value. *)
Definition digit_char (d : Z) : N := (Z.to_N d + 48)%N.

Lemma digit_char_is_digit d : 0 <= d < 10 -> is_digit (digit_char d) = true.
Proof.
  intros Hd. unfold is_digit, digit_char.
  rewrite andb_true_iff, !N.leb_le. lia.
Qed.

Lemma digit_value_char d : 0 <= d < 10 -> digit_value (digit_char d) = d.
Proof. intros Hd. unfold digit_value, digit_char. lia. Qed.

Lemma digit_char_value c : is_digit c = true -> digit_char (digit_value c) = c.
Proof.
  unfold is_digit, digit_char, digit_value.
  rewrite andb_true_iff, !N.leb_le. lia.
Qed.

Lemma digit_value_range c : is_digit c = true -> 0 <= digit_value c < 10.
Proof.
  unfold is_digit, digit_value. rewrite andb_true_iff, !N.leb_le. lia.
Qed.

(** A digit string as [decimal_digits] writes it: no leading zero on
    more than one digit. *)
Definition canonical (ds : jsstring) : Prop :=
  is_digits ds /\ (forall r, ds = ch "0" :: r -> r = []).

(** What [digits_aux] computes with enough fuel. *)
Lemma digits_aux_spec fuel :
  forall n acc, 0 <= n < 10 ^ Z.of_nat (S fuel) ->
    exists ds, digits_aux (S fuel) n acc = ds ++ acc /\
               decimal_value ds = n /\ is_digits ds /\
               (forall r, ds = ch "0" :: r -> n = 0 /\ r = []).
Proof.
  assert (Hsmall : forall f n acc, 0 <= n < 10 ->
            exists ds, digits_aux (S f) n acc = ds ++ acc /\
               decimal_value ds = n /\ is_digits ds /\
               (forall r, ds = ch "0" :: r -> n = 0 /\ r = [])).
  { clear fuel. intros f n acc Hlt. exists [digit_char (n mod 10)].
    cbn [digits_aux].
    assert (Hb : (n <? 10) = true) by (apply Z.ltb_lt; lia). rewrite Hb.
    rewrite Z.mod_small by lia.
    split; [done|]. split; [|split].
    - unfold decimal_value. simpl. rewrite digit_value_char; lia.
    - split; [done|]. constructor; [|constructor].
      apply digit_char_is_digit. lia.
    - intros r [= Hc <-]. split; [|done].
      unfold digit_char, ch in Hc. simpl in Hc. lia. }
  induction fuel as [|fuel IH]; intros n acc Hn.
  - apply Hsmall. simpl in Hn. lia.
  - destruct (Z_lt_dec n 10) as [Hlt|Hge]; [apply Hsmall; lia|].
    assert (Hb : (n <? 10) = false) by (apply Z.ltb_ge; lia).
    change (digits_aux (S (S fuel)) n acc)
      with (if n <? 10 then digit_char (n mod 10) :: acc
            else digits_aux (S fuel) (n / 10) (digit_char (n mod 10) :: acc)).
    rewrite Hb.
    destruct (IH (n / 10) (digit_char (n mod 10) :: acc)) as (ds & He & Hv & Hd & Hz).
    { split; [apply Z.div_pos; lia|].
      apply Z.div_lt_upper_bound; [lia|].
      rewrite (Nat2Z.inj_succ (S fuel)), Z.pow_succ_r in Hn; lia. }
    exists (ds ++ [digit_char (n mod 10)]).
    split; [by rewrite <- app_assoc|]. split; [|split].
    + rewrite decimal_value_snoc, Hv, digit_value_char
        by (apply Z.mod_pos_bound; lia).
      pose proof (Z.div_mod n 10). lia.
    + destruct Hd as [Hne Hall]. split; [by destruct ds|].
      apply Forall_app. split; [done|]. constructor; [|constructor].
      apply digit_char_is_digit, Z.mod_pos_bound. lia.
    + intros r Hr. destruct ds as [|c ds]; [by destruct Hd|].
      injection Hr as -> Hr'. destruct (Hz ds eq_refl) as [Hq _].
      pose proof (Z.div_mod n 10). pose proof (Z.mod_pos_bound n 10). lia.
Qed.

Lemma decimal_fuel n : 0 <= n -> n < 10 ^ Z.of_nat (S (Z.to_nat (Z.log2 n))).
Proof.
  intros Hn. destruct (Z.eq_dec n 0) as [->|Hne]; [done|].
  pose proof (Z.log2_nonneg n) as Hl.
  rewrite Nat2Z.inj_succ, Z2Nat.id by done.
  apply Z.lt_le_trans with (2 ^ Z.succ (Z.log2 n)).
  - apply Z.log2_spec. lia.
  - apply Z.pow_le_mono_l. lia.
Qed.

Lemma decimal_digits_spec n :
  0 <= n ->
  decimal_value (decimal_digits n) = n /\ canonical (decimal_digits n).
Proof.
  intros Hn. unfold decimal_digits.
  destruct (digits_aux_spec (Z.to_nat (Z.log2 n)) n [])
    as (ds & He & Hv & Hd & Hz).
  { split; [done|]. by apply decimal_fuel. }
  rewrite He, app_nil_r. split; [done|]. split; [done|].
  intros r Hr. by destruct (Hz r Hr).
Qed.

(** A canonical digit string is the one that is written for its value. *)
Lemma canonical_value_pos c ds :
  canonical (c :: ds) -> ds <> [] -> 1 <= decimal_value (c :: ds) /\
  10 ^ Z.of_nat (length ds) <= decimal_value (c :: ds).
Proof.
  intros [[_ Hall] Hz] Hne.
  assert (Hc : 1 <= digit_value c).
  { pose proof (Forall_inv Hall) as Hc. simpl in Hc.
    pose proof (digit_value_range c Hc).
    destruct (Z.eq_dec (digit_value c) 0) as [H0|]; [|lia].
    exfalso. apply Hne. apply Hz. f_equal.
    rewrite <- (digit_char_value c Hc), H0. done. }
  apply Forall_inv_tail in Hall. clear Hz Hne.
  assert (H : 10 ^ Z.of_nat (length ds) <= decimal_value (c :: ds)).
  { induction ds as [|d ds IH] using rev_ind.
    - unfold decimal_value. simpl. lia.
    - apply Forall_app in Hall. destruct Hall as [Hall Hd].
      apply Forall_inv in Hd. simpl in Hd.
      pose proof (digit_value_range d Hd).
      change (c :: ds ++ [d]) with ((c :: ds) ++ [d]).
      rewrite decimal_value_snoc, length_app. simpl length.
      rewrite Nat2Z.inj_add. simpl Z.of_nat.
      rewrite Z.pow_add_r by lia. specialize (IH Hall). lia. }
  split; [|done].
  pose proof (Z.pow_pos_nonneg 10 (Z.of_nat (length ds))). lia.
Qed.

Lemma digits_aux_canonical ds :
  canonical ds ->
  forall fuel acc, (length ds <= fuel)%nat ->
    digits_aux fuel (decimal_value ds) acc = ds ++ acc.
Proof.
  induction ds as [|d ds IH] using rev_ind; intros Hcan fuel acc Hfuel.
  - by destruct Hcan as [[? _] _].
  - destruct fuel as [|fuel]; [rewrite length_app in Hfuel; simpl in Hfuel; lia|].
    destruct Hcan as [[_ Hall] Hz].
    apply Forall_app in Hall. destruct Hall as [Hall Hd].
    apply Forall_inv in Hd. simpl in Hd.
    pose proof (digit_value_range d Hd) as Hr.
    rewrite decimal_value_snoc. cbn [digits_aux].
    replace ((10 * decimal_value ds + digit_value d) mod 10)
      with (digit_value d)
      by (rewrite Z.add_comm, Z.mul_comm, Z.mod_add, Z.mod_small; lia).
    fold (digit_char (digit_value d)). rewrite (digit_char_value d Hd).
    destruct ds as [|c ds].
    + unfold decimal_value at 1. simpl.
      assert (Hlt : (10 * 0 + digit_value d <? 10) = true)
        by (apply Z.ltb_lt; lia).
      by rewrite Hlt.
    + assert (Hcan' : canonical (c :: ds)).
      { split; [by split|]. intros r [= -> <-].
        destruct ds as [|e ds]; [done|].
        by specialize (Hz (e :: ds ++ [d]) eq_refl). }
      assert (Hpos : 1 <= decimal_value (c :: ds)).
      { destruct ds as [|e ds].
        - destruct Hcan' as [[_ Hc] _]. apply Forall_inv in Hc. simpl in Hc.
          pose proof (digit_value_range c Hc).
          destruct (Z.eq_dec (digit_value c) 0) as [H0|];
            [|unfold decimal_value; simpl; lia].
          exfalso. assert (Hc0 : c = ch "0").
          { rewrite <- (digit_char_value c Hc), H0. done. }
          subst c. by specialize (Hz [d] eq_refl).
        - by apply canonical_value_pos. }
      assert (Hge : (10 * decimal_value (c :: ds) + digit_value d <? 10) = false)
        by (apply Z.ltb_ge; lia).
      rewrite Hge.
      replace ((10 * decimal_value (c :: ds) + digit_value d) / 10)
        with (decimal_value (c :: ds))
        by (rewrite Z.add_comm, Z.mul_comm, Z.div_add, Z.div_small; lia).
      rewrite IH; [by rewrite <- app_assoc|done|].
      rewrite length_app in Hfuel. simpl in *. lia.
Qed.

Lemma decimal_digits_value ds :
  canonical ds -> decimal_digits (decimal_value ds) = ds.
Proof.
  intros Hcan. unfold decimal_digits.
  rewrite (digits_aux_canonical ds Hcan); [by rewrite app_nil_r|].
  destruct ds as [|c ds]; [simpl; lia|].
  destruct ds as [|d ds]; [simpl; lia|].
  destruct (canonical_value_pos c (d :: ds) Hcan) as [Hpos Hpow]; [done|].
  set (v := decimal_value (c :: d :: ds)) in *.
  set (n := length (d :: ds)) in *.
  assert (Hlog : Z.of_nat n <= Z.log2 v).
  { apply Z.log2_le_pow2; [lia|].
    apply Z.le_trans with (10 ^ Z.of_nat n); [|done].
    apply Z.pow_le_mono_l. lia. }
  change (length (c :: d :: ds)) with (S n). lia.
Qed.

End DigitFacts.

Module PrintFacts.
Import DigitFacts.

Lemma num_to_string_digits ds :
  canonical ds -> decimal_value ds <= 2 ^ 53 ->
  num_to_string (to_double (decimal_value ds)) = ds.
Proof.
  intros Hcan Hle. pose proof Hcan as [[_ Hall] _].
  pose proof (decimal_value_nonneg ds Hall) as H0.
  rewrite to_double_exact by lia. unfold num_to_string, positive_to_string.
  assert (H1 : (decimal_value ds <? 0) = false) by (apply Z.ltb_ge; lia).
  assert (H2 : (decimal_value ds <=? 2 ^ 53) = true) by (by apply Z.leb_le).
  rewrite H1, H2. by apply decimal_digits_value.
Qed.

Lemma num_to_string_diff a b :
  0 <= a <= b -> b <= 2 ^ 53 ->
  num_to_string (js_sub (to_double b) (to_double a)) = decimal_digits (b - a).
Proof.
  intros Ha Hb. rewrite !to_double_exact by lia. simpl.
  rewrite to_double_exact by lia. unfold num_to_string, positive_to_string.
  assert (H1 : (b - a <? 0) = false) by (apply Z.ltb_ge; lia).
  assert (H2 : (b - a <=? 2 ^ 53) = true) by (apply Z.leb_le; lia).
  by rewrite H1, H2.
Qed.

(** Beyond 2^53 the digits written are the shortest that round to the
    number, with zeros after them; up to there the shortest digits are
    all the digits. *)
Lemma num_to_string_shortest :
  num_to_string (JNum (2 ^ 63)) = str "9223372036854776000" /\
  num_to_string (JNum (2 ^ 53 + 2)) = str "9007199254740994" /\
  num_to_string (JNum (2 ^ 70)) = str "1.1805916207174113e+21" /\
  fixed_notation 1234500 = decimal_digits 1234500 /\
  fixed_notation (2 ^ 53) = decimal_digits (2 ^ 53).
Proof. by vm_compute. Qed.

Lemma compact_parts_bounds cls txt rid cd b cl sc :
  In (str "[" ++ num_to_string (x b) ++ str "," ++ num_to_string (y b)
      ++ str " " ++ num_to_string (width b) ++ str "x"
      ++ num_to_string (height b) ++ str "]")
     (compact_parts_of cls txt rid cd b cl sc).
Proof.
  unfold compact_parts_of.
  set (part := str "[" ++ _).
  destruct txt, rid, cd, cl, sc; rewrite ?in_app_iff; simpl; tauto.
Qed.

End PrintFacts.

(** X5. The compact line of an element whose rectangle was read from a
    bounds attribute shows the left and top coordinates with the very
    digits of the attribute, followed by the width and the height as
    differences, as long as the digit strings carry no leading zero, the
    values do not exceed 2^53 and the right and bottom are not smaller
    than the left and top. *)
Theorem compact_line_shows_parsed_bounds :
  forall (s pre da db dc dd suf cls txt rid cd : jsstring) (cl sc : bool),
    first_bounds_occurrence s pre da db dc dd suf ->
    DigitFacts.canonical da -> DigitFacts.canonical db ->
    decimal_value da <= decimal_value dc <= 2 ^ 53 ->
    decimal_value db <= decimal_value dd <= 2 ^ 53 ->
    In (str "[" ++ da ++ str "," ++ db ++ str " "
        ++ decimal_digits (decimal_value dc - decimal_value da) ++ str "x"
        ++ decimal_digits (decimal_value dd - decimal_value db) ++ str "]")
       (compact_parts_of cls txt rid cd (parseBounds s) cl sc).
Proof.
  intros s pre da db dc dd suf cls txt rid cd cl sc Hocc Ha Hb Hx Hy.
  pose proof (PrintFacts.compact_parts_bounds cls txt rid cd (parseBounds s) cl sc)
    as Hin.
  rewrite (parseBounds_first s pre da db dc dd suf Hocc) in Hin at 1 2 3 4.
  cbn [x y width height] in Hin.
  pose proof Ha as [[_ Hda] _]. pose proof Hb as [[_ Hdb] _].
  pose proof (decimal_value_nonneg da Hda).
  pose proof (decimal_value_nonneg db Hdb).
  rewrite !PrintFacts.num_to_string_digits in Hin by (done || lia).
  rewrite !PrintFacts.num_to_string_diff in Hin by lia.
  exact Hin.
Qed.

Lemma compact_line_shows_parsed_bounds_witness :
  In (str "[10,20 90x180]")
     (compact_parts_of (str "android.widget.Button") (str "OK") [] []
        (parseBounds (str "[10,20][100,200]")) true false).
Proof.
  apply (compact_line_shows_parsed_bounds (str "[10,20][100,200]") []
           (str "10") (str "20") (str "100") (str "200") []).
  - split.
    + split; [reflexivity|].
      repeat split; (done || (repeat constructor)).
    + intros pre' da' db' dc' dd' suf' _. simpl. lia.
  - split; [split; [done|repeat constructor]|by intros r [=]].
  - split; [split; [done|repeat constructor]|by intros r [=]].
  - by vm_compute.
  - by vm_compute.
Defined.

(** X6. The point that [elementCenter] gives for an element whose
    rectangle was read from a bounds attribute lies between the left and
    right and between the top and bottom that the attribute states, both
    ends included, when these are in order and their sums stay below
    2^53; it is short of the right (bottom) end as soon as the rectangle
    is two or more wide (high), and on the right (bottom) end itself
    when the rectangle is one wide (high). *)
Theorem elementCenter_within_parsed_bounds :
  forall (el : UiElement) (s pre da db dc dd suf : jsstring),
    first_bounds_occurrence s pre da db dc dd suf ->
    bounds el = parseBounds s ->
    decimal_value da <= decimal_value dc ->
    decimal_value db <= decimal_value dd ->
    decimal_value da + decimal_value dc < 2 ^ 53 ->
    decimal_value db + decimal_value dd < 2 ^ 53 ->
    exists cx cy,
      elementCenter el = mkPoint (JNum cx) (JNum cy) /\
      decimal_value da <= cx <= decimal_value dc /\
      decimal_value db <= cy <= decimal_value dd /\
      (decimal_value da + 2 <= decimal_value dc -> cx < decimal_value dc) /\
      (decimal_value db + 2 <= decimal_value dd -> cy < decimal_value dd) /\
      (decimal_value dc = decimal_value da + 1 -> cx = decimal_value dc) /\
      (decimal_value dd = decimal_value db + 1 -> cy = decimal_value dd).
Proof.
  intros el s pre da db dc dd suf Hocc Hb Hx Hy Hsx Hsy.
  pose proof Hocc as [(_ & [_ Ha] & [_ Hb'] & [_ Hc] & [_ Hd]) _].
  pose proof (decimal_value_nonneg da Ha).
  pose proof (decimal_value_nonneg db Hb').
  set (a := decimal_value da) in *. set (b := decimal_value db) in *.
  set (c := decimal_value dc) in *. set (d := decimal_value dd) in *.
  exists ((a + c + 1) / 2), ((b + d + 1) / 2).
  split; [|split; [|split; [|split; [|split; [|split]]]]].
  - unfold elementCenter. rewrite Hb, (parseBounds_first s pre da db dc dd suf Hocc).
    fold a b c d. cbn [x y width height].
    rewrite !to_double_exact by lia. cbn [js_sub].
    rewrite !to_double_exact by lia. cbn [js_div2 js_add_half].
    unfold to_double_half.
    assert (H1 : (Z.abs (2 * a + (c - a)) <? 2 ^ 53) = true)
      by (apply Z.ltb_lt; lia).
    assert (H2 : (Z.abs (2 * b + (d - b)) <? 2 ^ 53) = true)
      by (apply Z.ltb_lt; lia).
    rewrite H1, H2. cbn [Math_round]. do 2 f_equal; f_equal; lia.
  - split.
    + apply Z.div_le_lower_bound; lia.
    + apply Z.lt_succ_r. apply Z.div_lt_upper_bound; lia.
  - split.
    + apply Z.div_le_lower_bound; lia.
    + apply Z.lt_succ_r. apply Z.div_lt_upper_bound; lia.
  - intros Hw. apply Z.div_lt_upper_bound; lia.
  - intros Hh. apply Z.div_lt_upper_bound; lia.
  - intros Hw. rewrite Hw.
    replace (a + (a + 1) + 1) with ((a + 1) * 2) by lia.
    by rewrite Z.div_mul.
  - intros Hh. rewrite Hh.
    replace (b + (b + 1) + 1) with ((b + 1) * 2) by lia.
    by rewrite Z.div_mul.
Qed.

Lemma elementCenter_within_parsed_bounds_witness :
  (exists cx cy,
     elementCenter (with_bounds (parseBounds (str "[10,20][100,201]")))
     = mkPoint (JNum cx) (JNum cy) /\
     10 <= cx < 100 /\ 20 <= cy < 201) /\
  elementCenter (with_bounds (parseBounds (str "[10,20][11,21]")))
  = mkPoint (JNum 11) (JNum 21).
Proof.
  split.
  - destruct (elementCenter_within_parsed_bounds
                (with_bounds (parseBounds (str "[10,20][100,201]")))
                (str "[10,20][100,201]") []
                (str "10") (str "20") (str "100") (str "201") [])
      as (cx & cy & H & Hx & Hy & Hx2 & Hy2 & _).
    + split.
      * split; [reflexivity|].
        repeat split; (done || (repeat constructor)).
      * intros pre' da' db' dc' dd' suf' _. simpl. lia.
    + reflexivity.
    + by vm_compute.
    + by vm_compute.
    + by vm_compute.
    + by vm_compute.
    + exists cx, cy. split; [exact H|].
      split; (split; [tauto|]); [apply Hx2|apply Hy2]; by vm_compute.
  - destruct (elementCenter_within_parsed_bounds
                (with_bounds (parseBounds (str "[10,20][11,21]")))
                (str "[10,20][11,21]") []
                (str "10") (str "20") (str "11") (str "21") [])
      as (cx & cy & H & _ & _ & _ & _ & Hx1 & Hy1).
    + split.
      * split; [reflexivity|].
        repeat split; (done || (repeat constructor)).
      * intros pre' da' db' dc' dd' suf' _. simpl. lia.
    + reflexivity.
    + by vm_compute.
    + by vm_compute.
    + by vm_compute.
    + by vm_compute.
    + rewrite H, (Hx1 eq_refl), (Hy1 eq_refl). reflexivity.
Defined.

(* ===================================================================== *)
(** ** Attribute lists *)
(* ===================================================================== *)

(** The text of a list of attributes as a dump writes it: each one as
    its name, an equals sign and its value between double quotes, a
    space between two of them. *)
Module AttrList.

Definition render_attr (p : jsstring * jsstring) : jsstring :=
  attr_open (fst p) ++ snd p ++ [quote].

Definition render_attrs (ps : list (jsstring * jsstring)) : jsstring :=
  join (str " ") (map render_attr ps).

(** The value of the first attribute with a given name, the empty string
    when there is none. *)
Fixpoint lookup_attr (name : jsstring) (ps : list (jsstring * jsstring))
    : jsstring :=
  match ps with
  | [] => []
  | p :: rest => if jseq (fst p) name then snd p else lookup_attr name rest
  end.

(** What the text of an attribute must avoid for a name to be looked up
    in it as text: a double quote in its name or its value, the name
    looked up at the end of a longer name, and the name looked up with an
    equals sign at the end of its value. *)
Definition plain_for (name : jsstring) (p : jsstring * jsstring) : Prop :=
  ~ In quote (fst p) /\ ~ In quote (snd p) /\
  (name `suffix_of` fst p -> fst p = name) /\
  ~ (name ++ str "=") `suffix_of` snd p.

(** The attributes up to the first one that bears the name are plain
    for it, and the value of that one holds no double quote. *)
Fixpoint plain_until (name : jsstring) (ps : list (jsstring * jsstring))
    : Prop :=
  match ps with
  | [] => True
  | p :: rest =>
      if jseq (fst p) name then ~ In quote (snd p)
      else plain_for name p /\ plain_until name rest
  end.

(** Every attribute with a space in front. *)
Definition items (ps : list (jsstring * jsstring)) : jsstring :=
  flat_map (fun p => str " " ++ render_attr p) ps.

Lemma render_attrs_items ps : str " " ++ render_attrs ps = items ps \/ ps = [].
Proof.
  induction ps as [|p ps IH]; [by right|]. left.
  destruct IH as [IH| ->].
  - unfold render_attrs in *. cbn [map join]. destruct ps as [|q ps].
    + unfold items. simpl. by rewrite app_nil_r.
    + cbn [map] in *. unfold items in *. cbn [flat_map] in *.
      rewrite <- IH. by rewrite <- !app_assoc.
  - unfold render_attrs, items. simpl. by rewrite app_nil_r.
Qed.

Lemma first_quote a b a' b' :
  ~ In quote a -> ~ In quote a' ->
  a ++ quote :: b = a' ++ quote :: b' -> a = a' /\ b = b'.
Proof.
  revert a'. induction a as [|c a IH]; intros a' Ha Ha' H.
  - destruct a' as [|c' a']; simpl in *.
    + by injection H as <-.
    + injection H as <- _. exfalso. apply Ha'. by left.
  - destruct a' as [|c' a']; simpl in *.
    + injection H as -> _. exfalso. apply Ha. by left.
    + injection H as <- H. destruct (IH a') as [-> ->]; auto.
Qed.

(** An occurrence of a quote-free text followed by a quote, in a string
    that begins with a quote-free segment and a quote: it ends the
    segment or lies after that quote. *)
Lemma occurrence_step w seg pre suf rest :
  ~ In quote w -> ~ In quote seg ->
  pre ++ w ++ quote :: suf = seg ++ quote :: rest ->
  (pre ++ w = seg /\ suf = rest) \/
  (exists pre', pre = seg ++ quote :: pre' /\
                pre' ++ w ++ quote :: suf = rest).
Proof.
  intros Hw Hseg. revert seg Hseg.
  induction pre as [|c pre IH]; intros seg Hseg H.
  - left. simpl in *. by apply first_quote.
  - destruct seg as [|d seg]; simpl in H.
    + injection H as -> H. right. by exists pre.
    + injection H as <- H.
      destruct (IH seg) as [[<- ->]|(pre' & -> & <-)];
        [intros Hx; apply Hseg; by right|done| |].
      * by left.
      * right. by exists pre'.
Qed.

Section Lookup.
Variable name : jsstring.
Hypothesis name_quote : ~ In quote name.
Hypothesis name_space : ~ In (ch " ") name.

Lemma name_eq_quote : ~ In quote (name ++ str "=").
Proof.
  rewrite in_app_iff. intros [H|H]; [done|].
  destruct H as [H|[]]. discriminate H.
Qed.

(** Where the name can be found among attributes that come before the
    one that bears it: nowhere. *)
Lemma occurrence_after ps :
  Forall (plain_for name) ps ->
  Forall (fun p => fst p <> name) ps ->
  forall pre suf tail,
    pre ++ attr_open name ++ suf = items ps ++ tail ->
    exists pre', pre = items ps ++ pre' /\
                 pre' ++ attr_open name ++ suf = tail.
Proof.
  intros Hplain Hne. induction Hplain as [|p ps Hp _ IH]; intros pre suf tail H.
  - by exists pre.
  - apply Forall_cons_1 in Hne. destruct Hne as [Hpn Hne].
    destruct Hp as (Hq1 & Hq2 & Hsuf & Hval).
    unfold items in H. cbn [flat_map] in H. fold (items ps) in H.
    unfold render_attr, attr_open in H. rewrite <- !app_assoc in H.
    assert (H1 : pre ++ (name ++ str "=") ++ quote :: suf
                 = (str " " ++ fst p ++ str "=")
                   ++ quote :: (snd p ++ quote :: (items ps ++ tail))).
    { rewrite <- !app_assoc. exact H. }
    clear H. rename H1 into H.
    apply occurrence_step in H; [|apply name_eq_quote|].
    2:{ rewrite !in_app_iff. intros [Hs|[Hn|He]]; [|done|].
        - destruct Hs as [Hs|[]]. discriminate Hs.
        - destruct He as [He|[]]. discriminate He. }
    destruct H as [[H _]|(pre1 & -> & H)].
    + exfalso. rewrite !app_assoc in H. apply app_inj_tail in H.
      destruct H as [H _].
      destruct (decide (length name <= length (fst p))%nat) as [Hl|Hl].
      * apply Hpn, Hsuf.
        destruct pre as [|c pre].
        -- simpl in H. rewrite H in Hl. simpl in Hl. lia.
        -- injection H as _ H. by exists pre.
      * assert (Hlen : length (pre ++ name) = length (str " " ++ fst p))
          by (by rewrite H).
        rewrite !length_app in Hlen. simpl in Hlen.
        destruct pre as [|c pre]; [|simpl in Hlen; lia].
        simpl in H. apply name_space. rewrite H. by left.
    + apply occurrence_step in H; [|apply name_eq_quote|done].
      destruct H as [[H _]|(pre2 & -> & H)].
      * exfalso. apply Hval. by exists pre1.
      * destruct (IH Hne pre2 suf tail) as (pre3 & -> & H3).
        { unfold attr_open. rewrite <- H. by rewrite <- !app_assoc. }
        exists pre3. split; [|done].
        unfold items at 2. cbn [flat_map]. fold (items ps).
        unfold render_attr, attr_open. by rewrite <- !app_assoc.
Qed.

Lemma lookup_cases ps :
  (Forall (fun p => fst p <> name) ps /\ lookup_attr name ps = []) \/
  (exists before v after,
     ps = before ++ (name, v) :: after /\
     Forall (fun p => fst p <> name) before /\
     lookup_attr name ps = v).
Proof.
  induction ps as [|[n v] ps IH]; [by left|]. simpl. unfold jseq.
  destruct (decide (n = name)) as [->|Hne].
  - rewrite bool_decide_eq_true_2 by done.
    right. by exists [], v, ps.
  - rewrite bool_decide_eq_false_2 by done.
    destruct IH as [[Hall Hl]|(before & w & after & -> & Hall & Hl)].
    + left. split; [by constructor|done].
    + right. exists ((n, v) :: before), w, after.
      split; [done|]. split; [by constructor|done].
Qed.

Lemma plain_until_before before v after :
  Forall (fun p => fst p <> name) before ->
  plain_until name (before ++ (name, v) :: after) ->
  Forall (plain_for name) before /\ ~ In quote v.
Proof.
  induction 1 as [|p before Hp _ IH]; simpl; unfold jseq.
  - by rewrite bool_decide_eq_true_2.
  - rewrite bool_decide_eq_false_2 by done. intros [Hpl Hrest].
    destruct (IH Hrest) as [Hb Hv]. split; [by constructor|done].
Qed.

Lemma plain_until_absent ps :
  Forall (fun p => fst p <> name) ps ->
  plain_until name ps -> Forall (plain_for name) ps.
Proof.
  induction 1 as [|p ps Hp _ IH]; simpl; unfold jseq; [done|].
  rewrite bool_decide_eq_false_2 by done. intros [Hpl Hrest].
  constructor; [done|]. by apply IH.
Qed.

Lemma extractAttr_rendered ps :
  plain_until name ps ->
  extractAttr (render_attrs ps) name = lookup_attr name ps.
Proof.
  intros Hplain.
  destruct (lookup_cases ps) as [[Hall ->]|(before & v & after & -> & Hall & ->)].
  - apply (plain_until_absent ps Hall) in Hplain.
    apply extractAttr_absent. intros (pre & suf & H).
    destruct (render_attrs_items ps) as [Hi| ->].
    + assert (H' : (str " " ++ pre) ++ attr_open name ++ suf = items ps ++ []).
      { rewrite app_nil_r, <- Hi, H. by rewrite <- app_assoc. }
      apply (occurrence_after ps Hplain Hall) in H'.
      destruct H' as (pre' & _ & H'). unfold attr_open in H'.
      by destruct pre', name.
    + unfold render_attrs in H. simpl in H. unfold attr_open in H.
      by destruct pre, name.
  - apply extractAttr_value.
    destruct (plain_until_before before v after Hall Hplain) as [Hb Hv].
    destruct (render_attrs_items (before ++ (name, v) :: after)) as [Hi|Hi];
      [|by destruct before].
    assert (Hitems : items (before ++ (name, v) :: after)
                     = (items before ++ str " ") ++ attr_open name ++ v
                       ++ [quote] ++ items after).
    { unfold items. rewrite flat_map_app. cbn [flat_map].
      unfold render_attr. simpl fst. simpl snd. by rewrite <- !app_assoc. }
    assert (Hlead : exists pre0, items before ++ str " " = str " " ++ pre0).
    { destruct before as [|b before]; [by exists []|].
      unfold items. cbn [flat_map]. rewrite <- !app_assoc. eauto. }
    destruct Hlead as [pre0 Hpre0].
    exists pre0, (items after). split; [|split].
    + rewrite Hitems, Hpre0, <- app_assoc in Hi. by apply app_inv_head in Hi.
    + apply Forall_forall. intros c Hc ->. by apply Hv.
    + intros pre' suf' H.
      assert (H' : (str " " ++ pre') ++ attr_open name ++ suf'
                   = items before ++ (str " " ++ attr_open name ++ v
                                      ++ [quote] ++ items after)).
      { rewrite <- app_assoc, <- H, Hi, Hitems. by rewrite <- !app_assoc. }
      apply (occurrence_after before Hb Hall) in H'.
      destruct H' as (pre2 & Hp & H2).
      assert (Hne2 : pre2 <> []).
      { intros ->. simpl in H2. unfold attr_open in H2.
        destruct name as [|c name']; [discriminate H2|].
        injection H2 as -> _. apply name_space. by left. }
      assert (Hlen : length (str " " ++ pre') = length (items before ++ pre2))
        by (by rewrite Hp).
      assert (Hlen0 : length (items before ++ str " ") = length (str " " ++ pre0))
        by (by rewrite Hpre0).
      rewrite !length_app in Hlen, Hlen0. simpl in Hlen, Hlen0.
      destruct pre2; [done|]. simpl in Hlen. lia.
Qed.

End Lookup.

End AttrList.

(* ===================================================================== *)
(** ** Properly nested tags *)
(* ===================================================================== *)

Module NestingFacts.
Import Heap.

(** A property of every node of a tree. *)
Fixpoint every (P : UiElement -> Prop) (t : UiElement) : Prop :=
  P t /\
  (fix all (l : list UiElement) : Prop :=
     match l with
     | [] => True
     | k :: r => every P k /\ all r
     end) (children t).

Lemma every_unfold P t : every P t <-> P t /\ Forall (every P) (children t).
Proof.
  destruct t as [rid tx cd c p b cl en sc kids]. simpl.
  assert (H : (fix all (l : list UiElement) : Prop :=
                 match l with
                 | [] => True
                 | k :: r => every P k /\ all r
                 end) kids <-> Forall (every P) kids).
  { induction kids as [|k r IH]; [by split|]. split.
    - intros [Hk Hr]. constructor; [done|]. by apply IH.
    - intros Hf. apply Forall_cons_1 in Hf. destruct Hf as [Hk Hr].
      split; [done|]. by apply IH. }
  tauto.
Qed.

Lemma every_impl (P Q : UiElement -> Prop) :
  (forall t, P t -> Q t) -> forall t, every P t -> every Q t.
Proof.
  intros HPQ t.
  induction t as [rid tx cd c p b cl en sc kids IH] using UiElement_ind.
  rewrite !every_unfold. intros [Hp Hk]. split; [by apply HPQ|].
  simpl in *. rewrite Forall_forall in IH, Hk. apply Forall_forall.
  intros k Hin. apply IH; [done|]. by apply Hk.
Qed.

(** The attribute substring [attrs] of a tag describes the node [t]:
    the object literal of the parser, evaluated on [attrs], has the
    fields of [t]. *)
Definition decodes (attrs : jsstring) (t : UiElement) : Prop :=
  extractAttr attrs (str "resource-id") = resource_id t /\
  extractAttr attrs (str "text") = text t /\
  extractAttr attrs (str "content-desc") = content_desc t /\
  extractAttr attrs (str "class") = class t /\
  extractAttr attrs (str "package") = package t /\
  parseBounds (extractAttr attrs (str "bounds")) = bounds t /\
  jseq (extractAttr attrs (str "clickable")) (str "true") = clickable t /\
  jseq (extractAttr attrs (str "enabled")) (str "true") = enabled t /\
  jseq (extractAttr attrs (str "scrollable")) (str "true") = scrollable t.

(** The element object of a node, given where its rectangle and its
    children array are. *)
Definition node_of (t : UiElement) (bounds children : loc) : node :=
  mkNode (resource_id t) (text t) (content_desc t) (class t) (package t)
    bounds (clickable t) (enabled t) (scrollable t) children None.

(** The objects that parsing a tree adds to a heap of [base] objects, in
    the order of their creation: for each node its rectangle, its
    children array and the element itself, then the objects of its
    subtrees.  The children array is shown with its final content. *)
Fixpoint block (t : UiElement) (base : nat) : list obj :=
  let kids :=
    (fix go (l : list UiElement) (b : nat) : list loc * list obj :=
       match l with
       | [] => ([], [])
       | k :: r =>
           let bk := block k b in
           let rest := go r (b + length bk)%nat in
           (S (S b) :: fst rest, bk ++ snd rest)
       end) (children t) (S (S (S base))) in
  [OBounds (bounds t); OArray (fst kids); ONode (node_of t base (S base))]
  ++ snd kids.

Fixpoint forest_layout (l : list UiElement) (b : nat) : list loc * list obj :=
  match l with
  | [] => ([], [])
  | k :: r =>
      let bk := block k b in
      let rest := forest_layout r (b + length bk)%nat in
      (S (S b) :: fst rest, bk ++ snd rest)
  end.

Lemma block_unfold t base :
  block t base
  = [OBounds (bounds t);
     OArray (fst (forest_layout (children t) (S (S (S base)))));
     ONode (node_of t base (S base))]
    ++ snd (forest_layout (children t) (S (S (S base)))).
Proof.
  destruct t as [rid tx cd c p b cl en sc kids]. cbn [block children].
  set (go := fix go (l : list UiElement) (b : nat) : list loc * list obj :=
       match l with
       | [] => ([], [])
       | k :: r =>
           let bk := block k b in
           let rest := go r (b + length bk)%nat in
           (S (S b) :: fst rest, bk ++ snd rest)
       end).
  assert (H : forall l b0, go l b0 = forest_layout l b0).
  { induction l as [|k r IH]; intros b0; [done|]. simpl. by rewrite IH. }
  by rewrite H.
Qed.

Section Tokens.
(** How the tags of a node are written: its attribute substring, and
    whether a node without children is written as a self-closing tag. *)
Variable attrs_of : UiElement -> jsstring.
Variable self_closing : UiElement -> bool.

Definition is_leaf (t : UiElement) : bool :=
  match children t with
  | [] => true
  | _ => false
  end.

(** The tags of a tree, in the order of the text. *)
Fixpoint element_tokens (t : UiElement) : list token :=
  if is_leaf t && self_closing t then [Open (attrs_of t) true]
  else Open (attrs_of t) false
         :: flat_map element_tokens (children t) ++ [Close].

Definition forest_tokens (forest : list UiElement) : list token :=
  flat_map element_tokens forest.

Lemma element_tokens_unfold t :
  element_tokens t
  = if is_leaf t && self_closing t then [Open (attrs_of t) true]
    else Open (attrs_of t) false :: forest_tokens (children t) ++ [Close].
Proof. by destruct t. Qed.

Definition described (t : UiElement) : Prop := decodes (attrs_of t) t.

(** The array that the next element is pushed to. *)
Definition target (h : heap) (elements : loc) (stack : list loc) (a : loc)
    : Prop :=
  match stack with
  | [] => a = elements
  | top :: _ => exists n, h !! top = Some (ONode n) /\ n_children n = a
  end.

Definition scans (ts : list token) (forest : list UiElement) : Prop :=
  forall h elements stack a items0,
    h !! a = Some (OArray items0) ->
    target h elements stack a ->
    scan elements stack ts h
    = Some (stack,
            <[a := OArray (items0 ++ fst (forest_layout forest (length h)))]> h
            ++ snd (forest_layout forest (length h))).

Lemma build_described t h :
  described t ->
  build_element (attrs_of t) h
  = Some (S (S (length h)),
          h ++ [OBounds (bounds t); OArray [];
                ONode (node_of t (length h) (S (length h)))]).
Proof.
  intros (H1 & H2 & H3 & H4 & H5 & H6 & H7 & H8 & H9).
  rewrite build_element_eq. unfold built_node, node_of.
  by rewrite H1, H2, H3, H4, H5, H6, H7, H8, H9.
Qed.

(** Pushing the new element to the target array. *)
Lemma open_step t sc h elements stack a items0 :
  described t ->
  h !! a = Some (OArray items0) ->
  target h elements stack a ->
  step elements stack (Open (attrs_of t) sc) h
  = Some (if sc then stack else S (S (length h)) :: stack,
          <[a := OArray (items0 ++ [S (S (length h))])]> h
          ++ [OBounds (bounds t); OArray [];
              ONode (node_of t (length h) (S (length h)))]).
Proof.
  intros Hd Ha Ht. cbn [step]. rewrite bind_unfold, (build_described t h Hd).
  set (h1 := h ++ _).
  assert (Ha1 : h1 !! a = Some (OArray items0)) by (by apply lookup_app_l_Some).
  assert (Hlt : (a < length h)%nat) by (by eapply lookup_lt_Some).
  destruct stack as [|top rest]; simpl in Ht.
  - subst a. rewrite bind_unfold, (array_push_eq _ _ _ _ Ha1).
    unfold h1. by rewrite insert_app_l.
  - destruct Ht as (n & Hn & <-).
    assert (Hn1 : h1 !! top = Some (ONode n)) by (by apply lookup_app_l_Some).
    rewrite !bind_unfold. unfold read_node, read.
    rewrite !bind_unfold, Hn1.
    simpl. rewrite (array_push_eq _ _ _ _ Ha1).
    unfold h1. by rewrite insert_app_l.
Qed.

Lemma scans_forest forest :
  Forall (fun t => scans (element_tokens t) [t]) forest ->
  scans (forest_tokens forest) forest.
Proof.
  induction 1 as [|t rest Ht _ IH]; intros h elements stack a items0 Ha Htg.
  - simpl. rewrite !app_nil_r. by rewrite list_insert_id.
  - unfold forest_tokens. cbn [flat_map]. rewrite scan_app.
    rewrite (Ht h elements stack a items0 Ha Htg).
    cbn [forest_layout fst snd]. rewrite !app_nil_r.
    set (l := S (S (length h))).
    set (bk := block t (length h)).
    assert (Hlt : (a < length h)%nat) by (by eapply lookup_lt_Some).
    set (h1 := <[a := OArray (items0 ++ [l])]> h ++ bk).
    assert (Ha1 : h1 !! a = Some (OArray (items0 ++ [l]))).
    { unfold h1. apply lookup_app_l_Some. by apply list_lookup_insert_eq. }
    assert (Htg1 : target h1 elements stack a).
    { destruct stack as [|top rs]; [done|]. simpl in *.
      destruct Htg as (n & Hn & Hc). exists n. split; [|done].
      unfold h1. apply lookup_app_l_Some.
      rewrite list_lookup_insert_ne; [done|]. intros ->.
      rewrite Hn in Ha. discriminate Ha. }
    fold (forest_tokens rest).
    etrans; [exact (IH h1 elements stack a (items0 ++ [l]) Ha1 Htg1)|].
    assert (Hlen : length h1 = (length h + length bk)%nat)
      by (unfold h1; by rewrite length_app, length_insert).
    rewrite Hlen. f_equal. f_equal.
    unfold h1. rewrite insert_app_l by (by rewrite length_insert).
    rewrite list_insert_insert_eq. rewrite <- !app_assoc. by simpl.
Qed.

Lemma scans_element t :
  every described t -> scans (element_tokens t) [t].
Proof.
  induction t as [rid tx cd c p b cl en sc kids IH] using UiElement_ind.
  set (t := mkUiElement rid tx cd c p b cl en sc kids).
  intros Hev. apply every_unfold in Hev. destruct Hev as [Hd Hkids].
  assert (Hforest : scans (forest_tokens kids) kids).
  { apply scans_forest. apply Forall_forall. intros k Hk.
    rewrite Forall_forall in IH, Hkids. apply IH; [done|]. by apply Hkids. }
  intros h elements stack a items0 Ha Htg.
  assert (Hlt : (a < length h)%nat) by (by eapply lookup_lt_Some).
  cbn [forest_layout fst snd]. rewrite !app_nil_r, block_unfold.
  rewrite element_tokens_unfold. change (children t) with kids.
  destruct (is_leaf t && self_closing t) eqn:Hleaf.
  - apply andb_true_iff in Hleaf. destruct Hleaf as [Hleaf _].
    assert (Hk : kids = []) by (unfold is_leaf, t in Hleaf; simpl in Hleaf;
                                by destruct kids).
    cbn [scan]. rewrite bind_unfold.
    rewrite (open_step t true h elements stack a items0 Hd Ha Htg).
    rewrite Hk. by simpl.
  - clear Hleaf. cbn [scan]. rewrite bind_unfold.
    rewrite (open_step t false h elements stack a items0 Hd Ha Htg).
    set (l := S (S (length h))).
    set (h1 := <[a := OArray (items0 ++ [l])]> h ++ _).
    rewrite scan_app.
    assert (Hlen : length h1 = S (S (S (length h)))).
    { unfold h1. rewrite length_app, length_insert. simpl. lia. }
    assert (Hc : h1 !! S (length h) = Some (OArray [])).
    { unfold h1. rewrite lookup_app_r by (rewrite length_insert; lia).
      rewrite length_insert.
      by replace (S (length h) - length h)%nat with 1%nat by lia. }
    assert (Htg1 : target h1 elements (l :: stack) (S (length h))).
    { exists (node_of t (length h) (S (length h))). split; [|done].
      unfold h1, l. rewrite lookup_app_r by (rewrite length_insert; lia).
      rewrite length_insert.
      by replace (S (S (length h)) - length h)%nat with 2%nat by lia. }
    rewrite (Hforest h1 elements (l :: stack) (S (length h)) [] Hc Htg1).
    cbn [scan step]. rewrite bind_unfold. cbn [ret tail]. unfold ret.
    rewrite Hlen. f_equal. f_equal.
    unfold h1.
    replace (S (length h))
      with (length (<[a := OArray (items0 ++ [l])]> h) + 1)%nat
      by (rewrite length_insert; lia).
    rewrite insert_app_r. rewrite length_insert.
    replace (length h + 1)%nat with (S (length h)) by lia.
    rewrite <- !app_assoc. by simpl.
Qed.

Lemma scans_described forest :
  Forall (every described) forest -> scans (forest_tokens forest) forest.
Proof.
  intros H. apply scans_forest. revert H. apply List.Forall_impl.
  intros t. apply scans_element.
Qed.

End Tokens.

(** The objects of a tree stand for the tree, wherever they lie. *)
Definition lays_out (t : UiElement) : Prop :=
  forall pre post,
    repr (pre ++ block t (length pre) ++ post) t (S (S (length pre))).

Lemma forest_layout_repr forest :
  Forall lays_out forest ->
  forall pre post,
    Forall2 (repr (pre ++ snd (forest_layout forest (length pre)) ++ post))
      forest (fst (forest_layout forest (length pre))).
Proof.
  induction 1 as [|t rest Ht _ IH]; intros pre post; [constructor|].
  cbn [forest_layout fst snd]. constructor.
  - rewrite <- app_assoc. apply Ht.
  - specialize (IH (pre ++ block t (length pre)) post).
    rewrite length_app in IH. rewrite <- !app_assoc in IH.
    rewrite <- !app_assoc. exact IH.
Qed.

Lemma block_repr t : lays_out t.
Proof.
  induction t as [rid tx cd c p b cl en sc kids IH] using UiElement_ind.
  set (t := mkUiElement rid tx cd c p b cl en sc kids).
  intros pre post. rewrite block_unfold. change (children t) with kids.
  set (base := length pre).
  set (lay := forest_layout kids (S (S (S base)))).
  set (n := node_of t base (S base)).
  set (h := pre ++ _).
  assert (H0 : h !! base = Some (OBounds b)).
  { unfold h, base. rewrite lookup_app_r by lia. by rewrite Nat.sub_diag. }
  assert (H1 : h !! S base = Some (OArray (fst lay))).
  { unfold h, base. rewrite lookup_app_r by lia.
    by replace (S (length pre) - length pre)%nat with 1%nat by lia. }
  assert (H2 : h !! S (S base) = Some (ONode n)).
  { unfold h, base. rewrite lookup_app_r by lia.
    by replace (S (S (length pre)) - length pre)%nat with 2%nat by lia. }
  apply (repr_node h t (S (S base)) n (fst lay)); [done| |done|done|].
  - by repeat split.
  - change (children t) with kids.
    pose proof (forest_layout_repr kids IH
                  (pre ++ [OBounds b; OArray (fst lay); ONode n]) post) as Hk.
    rewrite length_app in Hk. simpl length in Hk.
    replace (length pre + 3)%nat with (S (S (S base))) in Hk by (unfold base; lia).
    fold lay in Hk. unfold h. rewrite <- !app_assoc in Hk.
    rewrite <- !app_assoc. exact Hk.
Qed.

(** Reading a tree back from the objects that stand for it. *)
Lemma repr_reify h t :
  forall l fuel, repr h t l -> (walk_fuel_el t <= fuel)%nat ->
                 reify fuel h l = Some t.
Proof.
  induction t as [rid tx cd c p b cl en sc kids IH] using UiElement_ind.
  intros l fuel Hr Hfuel.
  inversion Hr as [t' l' n items Hl Hf Hb Hc Hkids]; subst.
  destruct fuel as [|fuel].
  { simpl in Hfuel. destruct kids; simpl in Hfuel; lia. }
  simpl in Hb, Hkids. cbn [reify]. rewrite Hl, Hb, Hc.
  assert (Hm : mapM (reify fuel h) items = Some kids).
  { apply mapM_Some. simpl in Hfuel.
    clear -IH Hkids Hfuel. induction Hkids as [|k i ks its Hk _ IHk].
    - constructor.
    - apply Forall_cons_1 in IH. destruct IH as [IHk0 IHks].
      simpl in Hfuel. constructor.
      + apply IHk0; [done|]. lia.
      + apply IHk; [done|]. lia. }
  rewrite Hm. simpl.
  destruct Hf as (-> & -> & -> & -> & -> & -> & -> & ->). done.
Qed.

Lemma repr_forest_reify h forest roots fuel :
  repr_forest h forest roots -> (walk_fuel forest <= S fuel)%nat ->
  reify_forest fuel h roots = Some forest.
Proof.
  intros (items & Hroots & Hitems) Hfuel. unfold reify_forest. rewrite Hroots.
  apply mapM_Some. unfold walk_fuel in Hfuel. clear Hroots.
  induction Hitems as [|t i ts its Ht _ IH]; [constructor|].
  simpl in Hfuel. constructor.
  - apply repr_reify; [done|]. lia.
  - apply IH. lia.
Qed.

(** The walks need less fuel than the heap has objects. *)
Lemma block_length t b : (3 <= length (block t b))%nat.
Proof. rewrite block_unfold, length_app. simpl. lia. Qed.

Lemma layout_fuel forest :
  forall b, (walk_fuel forest
             <= 1 + length (snd (forest_layout forest b)))%nat.
Proof.
  assert (Hel : forall t, Forall (fun k => forall b,
                    (walk_fuel_el k <= length (block k b))%nat)
                    (children t) ->
                  forall b, (walk_fuel_el t <= length (block t b))%nat).
  { intros t Hk b. rewrite block_unfold.
    destruct t as [rid tx cd c p bd cl en sc kids]. simpl in Hk.
    cbn [walk_fuel_el children]. rewrite length_app. simpl length.
    generalize (S (S (S b))). intros b0.
    induction Hk as [|k ks Hk0 _ IHk] in b0 |- *; simpl; [lia|].
    rewrite length_app. specialize (Hk0 b0).
    pose proof (block_length k b0).
    specialize (IHk (b0 + length (block k b0))%nat). lia. }
  assert (Hall : forall t b, (walk_fuel_el t <= length (block t b))%nat).
  { induction t as [rid tx cd c p bd cl en sc kids IH] using UiElement_ind.
    apply Hel. exact IH. }
  unfold walk_fuel. induction forest as [|t rest IH]; intros b; simpl; [lia|].
  rewrite length_app. specialize (Hall t b). pose proof (block_length t b).
  specialize (IH (b + length (block t b))%nat). lia.
Qed.

(** Parsing a text whose tags are those of a forest. *)
Lemma parse_described attrs_of self_closing forest xml h :
  tokens xml = forest_tokens attrs_of self_closing forest ->
  Forall (every (described attrs_of)) forest ->
  parseUiAutomatorXml xml h
  = Some (length h,
          h ++ OArray (fst (forest_layout forest (S (length h))))
               :: snd (forest_layout forest (S (length h)))) /\
  repr_forest
    (h ++ OArray (fst (forest_layout forest (S (length h))))
          :: snd (forest_layout forest (S (length h))))
    forest (length h).
Proof.
  intros Htok Hdesc.
  set (lay := forest_layout forest (S (length h))).
  split.
  - unfold parseUiAutomatorXml. rewrite bind_unfold. unfold alloc at 1.
    rewrite bind_unfold, Htok.
    rewrite (scans_described attrs_of self_closing forest Hdesc
               (h ++ [OArray []]) (length h) [] (length h) []).
    + cbn [ret]. unfold ret. rewrite length_app. simpl length.
      replace (length h + 1)%nat with (S (length h)) by lia. fold lay.
      f_equal. f_equal.
      replace (length h) with (length h + 0)%nat at 1 by lia.
      rewrite insert_app_r. simpl. by rewrite <- app_assoc.
    + rewrite lookup_app_r by lia. by rewrite Nat.sub_diag.
    + done.
  - exists (fst lay). split.
    + rewrite lookup_app_r by lia. by rewrite Nat.sub_diag.
    + assert (Hall : Forall lays_out forest)
        by (apply Forall_forall; intros t _; apply block_repr).
      pose proof (forest_layout_repr forest Hall (h ++ [OArray (fst lay)]) [])
        as Hr.
      rewrite length_app in Hr. simpl length in Hr.
      replace (length h + 1)%nat with (S (length h)) in Hr by lia.
      fold lay in Hr. rewrite app_nil_r, <- app_assoc in Hr. exact Hr.
Qed.

Lemma parsed_forest_described attrs_of self_closing forest xml :
  tokens xml = forest_tokens attrs_of self_closing forest ->
  Forall (every (described attrs_of)) forest ->
  parsed_forest xml = Some forest.
Proof.
  intros Htok Hdesc.
  destruct (parse_described attrs_of self_closing forest xml [] Htok Hdesc)
    as [Hp Hr].
  unfold parsed_forest. rewrite Hp. simpl length. simpl app in *.
  apply repr_forest_reify; [exact Hr|].
  pose proof (layout_fuel forest 1). lia.
Qed.

End NestingFacts.

(* ===================================================================== *)
(** ** The tag pattern on well-formed tags *)
(* ===================================================================== *)

Module TagFacts.

(** The end of an opening tag, read deterministically: white space, an
    optional slash and the closing angle bracket. *)
Definition tag_tail (s : jsstring) : option jsstring :=
  match drop_while is_space s with
  | c :: r =>
      if (c =? ch "/")%N then
        match r with
        | d :: r' => if (d =? ch ">")%N then Some r' else None
        | [] => None
        end
      else if (c =? ch ">")%N then Some r
      else None
  | [] => None
  end.

Lemma run_tail {A} s caps (k : jsstring -> captures -> option A) :
  run (Seq (Star true is_space)
         (Seq (Opt (Chr (one (ch "/")))) (Chr (one (ch ">"))))) s caps k
  = r ← tag_tail s; k r caps.
Proof.
  rewrite run_Seq. cbn [run].
  rewrite star_greedy_longest.
  - unfold tag_tail, Opt. rewrite run_Alt. cbn [run]. unfold one.
    destruct (drop_while is_space s) as [|c r]; [done|].
    destruct (N.eq_dec c (ch "/")) as [->|Hne].
    + change (ch "/" =? ch "/")%N with true.
      change (ch "/" =? ch ">")%N with false. cbv iota.
      destruct r as [|d r']; [done|].
      destruct (d =? ch ">")%N; [|done]. simpl.
      by destruct (k r' caps).
    + apply N.eqb_neq in Hne. rewrite Hne.
      by destruct (c =? ch ">")%N.
  - intros c s' Hc. unfold Opt. rewrite run_Alt. cbn [run]. unfold one.
    destruct (c =? ch "/")%N eqn:H1.
    { apply N.eqb_eq in H1. subst c. discriminate Hc. }
    destruct (c =? ch ">")%N eqn:H2; [|done].
    apply N.eqb_eq in H2. subst c. discriminate Hc.
Qed.

(** Inside an attribute substring that ends with a proper character the
    tag cannot end. *)
Definition closes_attrs (z : N) : Prop :=
  is_space z = false /\ z <> ch "/" /\ z <> ch ">".

Lemma tag_tail_inside x z y :
  ~ In (ch ">") x -> closes_attrs z -> tag_tail (x ++ z :: y) = None.
Proof.
  intros Hx (Hz1 & Hz2 & Hz3). unfold tag_tail.
  induction x as [|c x IH]; simpl.
  - rewrite Hz1.
    destruct (z =? ch "/")%N eqn:H1; [by apply N.eqb_eq in H1|].
    destruct (z =? ch ">")%N eqn:H2; [by apply N.eqb_eq in H2|]. done.
  - destruct (is_space c) eqn:Hc.
    + apply IH. intros H. apply Hx. by right.
    + assert (Hc2 : (c =? ch ">")%N = false).
      { apply N.eqb_neq. intros ->. apply Hx. by left. }
      rewrite Hc2. destruct (c =? ch "/")%N; [|done].
      destruct x as [|d x]; simpl.
      * destruct (z =? ch ">")%N eqn:H2; [by apply N.eqb_eq in H2|done].
      * assert (Hd : (d =? ch ">")%N = false).
        { apply N.eqb_neq. intros ->. apply Hx. right. by left. }
        by rewrite Hd.
Qed.

Lemma star_lazy_first {A} p (K : jsstring -> option A) u v x :
  (forall u1 u2, u = u1 ++ u2 -> u2 <> [] -> K (u2 ++ v) = None) ->
  Forall (fun c => p c = true) u ->
  K v = Some x ->
  star_lazy p K (u ++ v) = Some x.
Proof.
  intros Hnone Hu Hv. induction Hu as [|c u Hc _ IH].
  - simpl. destruct v; simpl; by rewrite Hv.
  - assert (H0 : K (c :: u ++ v) = None) by (by apply (Hnone [] (c :: u))).
    simpl. rewrite H0, Hc.
    apply IH. intros u1 u2 -> Hne. by apply (Hnone (c :: u1) u2).
Qed.

(** An attribute substring that the pattern captures whole. *)
Definition tag_safe (attrs : jsstring) : Prop :=
  ~ In (ch ">") attrs /\
  (exists c r, attrs = c :: r /\ is_space c = false) /\
  (exists x z, attrs = x ++ [z] /\ closes_attrs z).

Definition open_tag (attrs : jsstring) : jsstring :=
  str "<node " ++ attrs ++ str ">".
Definition self_closing_tag (attrs : jsstring) : jsstring :=
  str "<node " ++ attrs ++ str " />".
Definition close_tag : jsstring := str "</node>".

Lemma run_class {A} p c s caps (k : jsstring -> captures -> option A) :
  run (Chr p) (c :: s) caps k = if p c then k s caps else None.
Proof. done. Qed.

Lemma run_Star_greedy {A} p s caps (k : jsstring -> captures -> option A) :
  run (Star true p) s caps k = star_greedy p (fun s' => k s' caps) s.
Proof. done. Qed.

Lemma run_Star_lazy {A} p s caps (k : jsstring -> captures -> option A) :
  run (Star false p) s caps k = star_lazy p (fun s' => k s' caps) s.
Proof. done. Qed.

Lemma run_Group {A} i r s caps (k : jsstring -> captures -> option A) :
  run (Group i r) s caps k
  = run r s caps (fun s' caps' =>
      k s' (<[i := Some (take (length s - length s') s)]> caps')).
Proof. done. Qed.

Lemma match_here_tag attrs tail rest :
  tag_safe attrs ->
  tag_tail (tail ++ rest) = Some rest ->
  match_here 1 tag_re (str "<node " ++ attrs ++ tail ++ rest)
  = Some (rest, [None; Some attrs]).
Proof.
  intros (Hgt & (c & r & Hhead & Hc) & (x0 & z & Hlast & Hz)) Htail.
  unfold match_here, tag_re. rewrite run_Alt.
  change (str "<node " ++ attrs ++ tail ++ rest)
    with (str "<node" ++ ch " " :: attrs ++ tail ++ rest).
  rewrite run_Seq, run_Lit. unfold Plus. rewrite !run_Seq, run_class.
  change (is_space (ch " ")) with true. cbv iota.
  rewrite run_Star_greedy.
  assert (Hstar : forall (K : jsstring -> option (jsstring * captures)),
            star_greedy is_space K (attrs ++ tail ++ rest)
            = K (attrs ++ tail ++ rest)).
  { intros K. rewrite Hhead. simpl. by rewrite Hc. }
  rewrite Hstar, run_Seq, run_Group, run_Star_lazy.
  erewrite (star_lazy_first (none_of (ch ">")) _ attrs (tail ++ rest)).
  - done.
  - intros u1 u2 Hu Hne. cbv beta. rewrite run_tail.
    assert (Hu2 : exists x', u2 = x' ++ [z] /\ ~ In (ch ">") x').
    { destruct (exists_last Hne) as (x' & z' & ->).
      rewrite Hlast, app_assoc in Hu. apply app_inj_tail in Hu.
      destruct Hu as [Hx <-]. exists x'. split; [done|].
      intros Hin. apply Hgt. rewrite Hlast, Hx, !in_app_iff. auto. }
    destruct Hu2 as (x' & -> & Hx'). rewrite <- app_assoc. simpl.
    by rewrite (tag_tail_inside x' z (tail ++ rest) Hx' Hz).
  - apply Forall_forall. intros d Hd. unfold none_of.
    apply negb_true_iff, N.eqb_neq. intros ->. by apply Hgt.
  - cbv beta. rewrite run_tail, Htail. simpl. do 3 f_equal.
    replace (length (attrs ++ tail ++ rest) - length (tail ++ rest))%nat
      with (length attrs) by (rewrite length_app; lia).
    by rewrite take_app_length.
Qed.

(** *** The scanning loop, one tag at a time *)

Lemma search_from_shift n r s :
  forall idx,
    search_from n r idx s
    = (m ← search_from n r 0 s;
       Some (MatchResult (idx + m_index m) (m_full m) (m_groups m) (m_rest m))).
Proof.
  induction s as [|c s IH]; intros idx; simpl.
  - destruct (match_here n r []) as [[rest caps]|]; simpl; [|done].
    do 2 f_equal. lia.
  - destruct (match_here n r (c :: s)) as [[rest caps]|]; simpl.
    + do 2 f_equal. lia.
    + rewrite (IH (S idx)), (IH 1%nat).
      destruct (search_from n r 0 s) as [m|]; simpl; [|done].
      do 2 f_equal. lia.
Qed.

Lemma exec_all_S fuel n r s :
  exec_all (S fuel) n r s
  = match exec n r s with
    | Some m => m :: exec_all fuel n r (m_rest m)
    | None => []
    end.
Proof. done. Qed.

Lemma tokens_match s rest caps :
  match_here 1 tag_re s = Some (rest, caps) ->
  tokens s
  = token_of_match (MatchResult 0 (take (length s - length rest) s) caps rest)
    :: tokens rest.
Proof.
  intros Hm. pose proof (tag_match_consumes s rest caps Hm) as Hlt.
  unfold tokens. rewrite (exec_all_S (length s)). unfold exec.
  assert (Hs : search_from 1 tag_re 0 s
               = Some (MatchResult 0 (take (length s - length rest) s)
                         caps rest)).
  { destruct s; cbn [search_from]; by rewrite Hm. }
  rewrite Hs. cbn [map m_rest]. f_equal. f_equal.
  apply exec_all_fuel; lia.
Qed.

Lemma tokens_skip c s :
  match_here 1 tag_re (c :: s) = None -> tokens (c :: s) = tokens s.
Proof.
  intros Hm. unfold tokens.
  rewrite (exec_all_S (length (c :: s))), (exec_all_S (length s)).
  unfold exec. cbn [search_from]. rewrite Hm, search_from_shift.
  destruct (search_from 1 tag_re 0 s) as [m|] eqn:Hs; [|done].
  cbn [mbind option_bind map m_rest]. f_equal.
  apply tag_search_consumes in Hs.
  f_equal. apply exec_all_fuel; simpl; lia.
Qed.

Lemma tokens_nil : tokens [] = [].
Proof. reflexivity. Qed.

(** A place where a tag could begin: the text from there on is the
    beginning of [<node] followed by white space, or of [</node>], or
    runs out while it still agrees with one of them. *)
Definition tag_start (q : jsstring) : bool :=
  startsWith q (str "<node")
  || startsWith (str "<node") q
     && match drop 5 q with
        | c :: _ => is_space c
        | [] => false
        end
  || startsWith q (str "</node>")
  || startsWith (str "</node>") q.

(** Text in which no tag begins. *)
Fixpoint tag_free (s : jsstring) : bool :=
  match s with
  | [] => true
  | _ :: s' => negb (tag_start s) && tag_free s'
  end.

Lemma run_Lit_mismatch {A} l :
  forall q rest caps (k : jsstring -> captures -> option A),
    startsWith q l = false -> startsWith l q = false ->
    run (Lit l) (q ++ rest) caps k = None.
Proof.
  induction l as [|c l IH]; intros q rest caps k H1 H2.
  - by destruct q.
  - destruct q as [|d q]; [done|]. simpl in *. unfold one.
    rewrite (N.eqb_sym c d) in H2.
    destruct (d =? c)%N eqn:Hd; [|done]. simpl in *. by apply IH.
Qed.

Lemma tag_start_none q rest :
  q <> [] -> tag_start q = false -> match_here 1 tag_re (q ++ rest) = None.
Proof.
  intros Hne Hq. unfold tag_start in Hq.
  rewrite !orb_false_iff in Hq. destruct Hq as [[[H1 H2] H3] H4].
  unfold match_here, tag_re. rewrite run_Alt.
  assert (Hfirst : forall R (k : jsstring -> captures -> option (jsstring * captures)),
            run (Seq (Lit (str "<node")) (Seq (Plus true is_space) R))
              (q ++ rest) (replicate 2 None) k = None).
  { intros R k. rewrite run_Seq.
    destruct (startsWith (str "<node") q) eqn:Hs.
    - apply startsWith_spec in Hs. destruct Hs as [q1 ->].
      rewrite <- app_assoc, run_Lit. unfold Plus. rewrite !run_Seq.
      rewrite drop_app_length' in H2 by done. simpl in H2.
      destruct q1 as [|c q1]; [by rewrite app_nil_r in H1|].
      simpl. by rewrite H2.
    - by apply run_Lit_mismatch. }
  rewrite Hfirst. by apply run_Lit_mismatch.
Qed.

Lemma tokens_tag_free pre rest :
  tag_free pre = true -> tokens (pre ++ rest) = tokens rest.
Proof.
  induction pre as [|c pre IH]; intros H; [done|].
  cbn [tag_free] in H. apply andb_true_iff in H. destruct H as [Hc Hpre].
  apply negb_true_iff in Hc.
  change ((c :: pre) ++ rest) with (c :: pre ++ rest).
  rewrite tokens_skip; [by apply IH|].
  by apply (tag_start_none (c :: pre) rest).
Qed.

(** *** The three kinds of tag *)

Lemma tokens_close rest : tokens (close_tag ++ rest) = Close :: tokens rest.
Proof.
  rewrite (tokens_match (close_tag ++ rest) rest [None; None]).
  - f_equal. unfold token_of_match. cbn [m_full].
    replace (length (close_tag ++ rest) - length rest)%nat
      with (length close_tag) by (rewrite length_app; lia).
    rewrite take_app_length. by unfold jseq; rewrite bool_decide_eq_true_2.
  - unfold match_here, tag_re. rewrite run_Alt.
    assert (H1 : forall R (k : jsstring -> captures -> option (jsstring * captures)),
              run (Seq (Lit (str "<node")) R) (close_tag ++ rest)
                (replicate 2 None) k = None).
    { intros R k. rewrite run_Seq.
      apply (run_Lit_mismatch (str "<node") close_tag); reflexivity. }
    rewrite H1. unfold close_tag. by rewrite run_Lit.
Qed.

Lemma jseq_open_tag attrs tail :
  jseq (str "<node " ++ attrs ++ tail) (str "</node>") = false.
Proof. unfold jseq. apply bool_decide_eq_false_2. intros H. discriminate H. Qed.

Lemma endsWith_two a b s c d :
  endsWith [a; b] (s ++ [c; d]) = ((b =? d)%N && ((a =? c)%N && true)).
Proof. unfold endsWith. by rewrite rev_app_distr. Qed.

Lemma tokens_open attrs rest :
  tag_safe attrs ->
  tokens (open_tag attrs ++ rest) = Open attrs false :: tokens rest.
Proof.
  intros Hsafe. unfold open_tag. rewrite <- !app_assoc.
  rewrite (tokens_match _ rest [None; Some attrs]).
  - f_equal. unfold token_of_match. cbn [m_full].
    replace (length (str "<node " ++ attrs ++ str ">" ++ rest) - length rest)%nat
      with (length (str "<node " ++ attrs ++ str ">"))
      by (rewrite !length_app; lia).
    rewrite !app_assoc, take_app_length, <- !app_assoc.
    rewrite jseq_open_tag. unfold group. cbn [m_groups lookup list_lookup].
    f_equal. destruct Hsafe as (_ & _ & (x0 & z & -> & _ & Hz & _)).
    replace (str "<node " ++ (x0 ++ [z]) ++ str ">")
      with ((str "<node " ++ x0) ++ [z; ch ">"])
      by (by rewrite <- !app_assoc).
    change (str "/>") with [ch "/"; ch ">"]. rewrite endsWith_two.
    assert (Hzz : (ch "/" =? z)%N = false)
      by (apply N.eqb_neq; intros H; by apply Hz).
    rewrite Hzz. by rewrite andb_false_r.
  - apply (match_here_tag attrs (str ">") rest Hsafe). reflexivity.
Qed.

Lemma tokens_self_closing attrs rest :
  tag_safe attrs ->
  tokens (self_closing_tag attrs ++ rest) = Open attrs true :: tokens rest.
Proof.
  intros Hsafe. unfold self_closing_tag. rewrite <- !app_assoc.
  rewrite (tokens_match _ rest [None; Some attrs]).
  - f_equal. unfold token_of_match. cbn [m_full].
    replace (length (str "<node " ++ attrs ++ str " />" ++ rest) - length rest)%nat
      with (length (str "<node " ++ attrs ++ str " />"))
      by (rewrite !length_app; lia).
    rewrite !app_assoc, take_app_length, <- !app_assoc.
    rewrite jseq_open_tag. unfold group. cbn [m_groups lookup list_lookup].
    f_equal.
    replace (str "<node " ++ attrs ++ str " />")
      with ((str "<node " ++ attrs ++ str " ") ++ [ch "/"; ch ">"])
      by (by rewrite <- !app_assoc).
    change (str "/>") with [ch "/"; ch ">"]. by rewrite endsWith_two.
  - apply (match_here_tag attrs (str " />") rest Hsafe). reflexivity.
Qed.

End TagFacts.

(* ===================================================================== *)
(** ** The text of a dump *)
(* ===================================================================== *)

Module DumpText.
Import Heap NestingFacts TagFacts AttrList DigitFacts.

Section Dump.
Variable attrs_of : UiElement -> jsstring.
Variable self_closing : UiElement -> bool.

(** The text of a tree: a node without children may be written as a
    self-closing tag, any other node as an opening tag, the texts of its
    children and a closing tag. *)
Fixpoint dump_element (t : UiElement) : jsstring :=
  if is_leaf t && self_closing t then self_closing_tag (attrs_of t)
  else open_tag (attrs_of t)
       ++ flat_map dump_element (children t) ++ close_tag.

Definition dump (forest : list UiElement) : jsstring :=
  flat_map dump_element forest.

Lemma dump_element_unfold t :
  dump_element t
  = if is_leaf t && self_closing t then self_closing_tag (attrs_of t)
    else open_tag (attrs_of t) ++ dump (children t) ++ close_tag.
Proof. by destruct t. Qed.

Definition safe (t : UiElement) : Prop := tag_safe (attrs_of t).

Definition reads (forest : list UiElement) : Prop :=
  forall rest,
    tokens (dump forest ++ rest)
    = forest_tokens attrs_of self_closing forest ++ tokens rest.

Lemma reads_forest forest :
  Forall (fun t => reads [t]) forest -> reads forest.
Proof.
  induction 1 as [|t r Ht _ IH]; intros rest; [done|].
  pose proof (Ht (dump r ++ rest)) as Ht'. specialize (IH rest).
  unfold dump, forest_tokens in *. cbn [flat_map] in *.
  rewrite !app_nil_r in Ht'. rewrite <- !app_assoc, Ht'. by rewrite IH.
Qed.

Lemma reads_element t : every safe t -> reads [t].
Proof.
  induction t as [rid tx cd c p b cl en sc kids IH] using UiElement_ind.
  set (t := mkUiElement rid tx cd c p b cl en sc kids).
  intros Hev. apply every_unfold in Hev. destruct Hev as [Hs Hkids].
  assert (Hforest : reads kids).
  { apply reads_forest. apply Forall_forall. intros k Hk.
    rewrite Forall_forall in IH, Hkids. apply IH; [done|]. by apply Hkids. }
  intros rest. unfold dump, forest_tokens. cbn [flat_map].
  rewrite !app_nil_r, dump_element_unfold, element_tokens_unfold.
  change (children t) with kids.
  destruct (is_leaf t && self_closing t).
  - by apply tokens_self_closing.
  - rewrite <- !app_assoc, (tokens_open _ _ Hs), Hforest, tokens_close.
    simpl. by rewrite <- app_assoc.
Qed.

Lemma tokens_dump forest pre post :
  Forall (every safe) forest ->
  tag_free pre = true -> tag_free post = true ->
  tokens (pre ++ dump forest ++ post)
  = forest_tokens attrs_of self_closing forest.
Proof.
  intros Hsafe Hpre Hpost. rewrite (tokens_tag_free pre _ Hpre).
  assert (Hr : reads forest).
  { apply reads_forest. revert Hsafe. apply List.Forall_impl.
    intros t. apply reads_element. }
  rewrite Hr. rewrite <- (app_nil_r post), (tokens_tag_free post [] Hpost).
  by rewrite tokens_nil, app_nil_r.
Qed.

End Dump.

(** *** The attributes of a node *)

Definition bool_text (b : bool) : jsstring :=
  if b then str "true" else str "false".

(** The bounds attribute of a rectangle of integers: left, top, right
    and bottom. *)
Definition bounds_value (r : Rect) : jsstring :=
  match x r, y r, width r, height r with
  | JNum a, JNum b, JNum w, JNum h =>
      bounds_text (decimal_digits a) (decimal_digits b)
        (decimal_digits (a + w)) (decimal_digits (b + h))
  | _, _, _, _ => []
  end.

(** A rectangle that a bounds attribute can state exactly. *)
Definition printable_bounds (r : Rect) : Prop :=
  exists a b w h,
    r = mkRect (JNum a) (JNum b) (JNum w) (JNum h) /\
    0 <= a <= 2 ^ 53 /\ 0 <= b <= 2 ^ 53 /\
    0 <= a + w <= 2 ^ 53 /\ 0 <= b + h <= 2 ^ 53.

(** The attributes that the parser reads, with the text that stands for
    each field of a node. *)
Definition fields (t : UiElement) : list (jsstring * jsstring) :=
  [(str "resource-id", resource_id t);
   (str "text", text t);
   (str "content-desc", content_desc t);
   (str "class", class t);
   (str "package", package t);
   (str "bounds", bounds_value (bounds t));
   (str "clickable", bool_text (clickable t));
   (str "enabled", bool_text (enabled t));
   (str "scrollable", bool_text (scrollable t))].

(** An attribute that can stand in a tag: a name without double quote,
    closing angle bracket or white space, a value without double quote
    or closing angle bracket. *)
Definition name_char (c : N) : Prop :=
  c <> quote /\ c <> ch ">" /\ is_space c = false.

Definition attr_ok (p : jsstring * jsstring) : Prop :=
  fst p <> [] /\ Forall name_char (fst p) /\
  ~ In quote (snd p) /\ ~ In (ch ">") (snd p).

(** The attribute list [ps] states the node [t]. *)
Definition well_written (ps : list (jsstring * jsstring)) (t : UiElement)
    : Prop :=
  ps <> [] /\ Forall attr_ok ps /\
  Forall (fun f => plain_until (fst f) ps /\ lookup_attr (fst f) ps = snd f)
    (fields t) /\
  printable_bounds (bounds t).

Lemma parseBounds_value r :
  printable_bounds r -> parseBounds (bounds_value r) = r.
Proof.
  intros (a & b & w & h & -> & Ha & Hb & Hw & Hh). unfold bounds_value.
  cbn [x y width height].
  destruct (decimal_digits_spec a) as [Va [Da _]]; [lia|].
  destruct (decimal_digits_spec b) as [Vb [Db _]]; [lia|].
  destruct (decimal_digits_spec (a + w)) as [Vc [Dc _]]; [lia|].
  destruct (decimal_digits_spec (b + h)) as [Vd [Dd _]]; [lia|].
  rewrite (parseBounds_first _ [] (decimal_digits a) (decimal_digits b)
             (decimal_digits (a + w)) (decimal_digits (b + h)) []).
  - rewrite Va, Vb, Vc, Vd. rewrite !to_double_exact by lia. cbn [js_sub].
    rewrite !to_double_exact by lia. do 2 f_equal; f_equal; lia.
  - split.
    + split; [by rewrite app_nil_r|done].
    + intros. simpl. lia.
Qed.

Lemma jseq_bool_text b : jseq (bool_text b) (str "true") = b.
Proof. by destruct b. Qed.

Lemma render_attr_gt p : attr_ok p -> ~ In (ch ">") (render_attr p).
Proof.
  intros (_ & Hn & _ & Hv). unfold render_attr, attr_open.
  rewrite !in_app_iff. intros [[H|[H|H]]|[H|H]].
  - rewrite Forall_forall in Hn. destruct (Hn _ H) as (_ & Hgt & _). done.
  - destruct H as [H|[]]. discriminate H.
  - destruct H as [H|[]]. discriminate H.
  - done.
  - destruct H as [H|[]]. discriminate H.
Qed.

Lemma render_attrs_safe ps :
  ps <> [] -> Forall attr_ok ps -> tag_safe (render_attrs ps).
Proof.
  intros Hne Hok. split; [|split].
  - clear Hne. unfold render_attrs.
    induction Hok as [|p ps Hp _ IH]; [simpl; tauto|].
    cbn [map join]. destruct ps as [|q ps].
    + by apply render_attr_gt.
    + cbn [map] in *. rewrite !in_app_iff. intros [H|[H|H]].
      * by apply (render_attr_gt p).
      * destruct H as [H|[]]. discriminate H.
      * by apply IH.
  - destruct ps as [|p ps]; [done|].
    apply Forall_cons_1 in Hok. destruct Hok as [(Hn & Hc & _) _].
    destruct (fst p) as [|c n] eqn:Hp; [done|].
    apply Forall_cons_1 in Hc. destruct Hc as [(_ & _ & Hs) _].
    unfold render_attrs. cbn [map join]. unfold render_attr, attr_open.
    rewrite Hp. destruct ps; simpl; eauto.
  - clear Hok. unfold render_attrs.
    induction ps as [|p ps IH]; [done|]. cbn [map join].
    destruct ps as [|q ps].
    + exists (attr_open (fst p) ++ snd p), quote. cbn [map].
      split; [unfold render_attr; by rewrite <- app_assoc|].
      split; [done|]. split; discriminate.
    + destruct IH as (x0 & z & Hx & Hz); [done|].
      cbn [map] in *. rewrite Hx.
      exists (render_attr p ++ str " " ++ x0), z.
      split; [by rewrite <- !app_assoc|done].
Qed.

Ltac not_in_name :=
  let H := fresh in intros H; vm_compute in H; intuition discriminate.

Lemma well_written_decodes ps t :
  well_written ps t ->
  decodes (render_attrs ps) t /\ tag_safe (render_attrs ps).
Proof.
  intros (Hne & Hok & Hf & Hb). split; [|by apply render_attrs_safe].
  unfold fields in Hf.
  repeat match type of Hf with
         | Forall _ (_ :: _) =>
             apply Forall_cons_1 in Hf;
             let H := fresh "Hfield" in destruct Hf as [H Hf]
         end.
  assert (Hx : forall f,
            plain_until (fst f) ps /\ lookup_attr (fst f) ps = snd f ->
            ~ In quote (fst f) -> ~ In (ch " ") (fst f) ->
            extractAttr (render_attrs ps) (fst f) = snd f).
  { intros f [Hp Hl] Hq Hs. rewrite <- Hl. by apply extractAttr_rendered. }
  apply Hx in Hfield; [|not_in_name..].
  apply Hx in Hfield0; [|not_in_name..].
  apply Hx in Hfield1; [|not_in_name..].
  apply Hx in Hfield2; [|not_in_name..].
  apply Hx in Hfield3; [|not_in_name..].
  apply Hx in Hfield4; [|not_in_name..].
  apply Hx in Hfield5; [|not_in_name..].
  apply Hx in Hfield6; [|not_in_name..].
  apply Hx in Hfield7; [|not_in_name..].
  cbn [fst snd] in *. unfold decodes.
  rewrite Hfield, Hfield0, Hfield1, Hfield2, Hfield3, Hfield4, Hfield5,
    Hfield6, Hfield7.
  rewrite !jseq_bool_text, (parseBounds_value _ Hb). done.
Qed.

(** *** A writer for the nine attributes *)

(** The attributes that the parser reads, in the order in which a dump
    writes them. *)
Definition node_attrs (t : UiElement) : list (jsstring * jsstring) :=
  [(str "text", text t);
   (str "resource-id", resource_id t);
   (str "class", class t);
   (str "package", package t);
   (str "content-desc", content_desc t);
   (str "clickable", bool_text (clickable t));
   (str "enabled", bool_text (enabled t));
   (str "scrollable", bool_text (scrollable t));
   (str "bounds", bounds_value (bounds t))].

Definition node_text (t : UiElement) : jsstring :=
  render_attrs (node_attrs t).

(** A value that can be written between double quotes and read back. *)
Definition value_ok (v : jsstring) : Prop :=
  ~ In quote v /\ ~ In (ch ">") v /\ ~ str "=" `suffix_of` v.

(** A node that the nine attributes state exactly. *)
Definition printable (t : UiElement) : Prop :=
  value_ok (text t) /\ value_ok (resource_id t) /\ value_ok (class t) /\
  value_ok (package t) /\ value_ok (content_desc t) /\
  printable_bounds (bounds t).

Lemma suffix_endsWith (a b : jsstring) : a `suffix_of` b -> endsWith a b = true.
Proof.
  intros [k ->]. unfold endsWith. rewrite rev_app_distr.
  apply startsWith_spec. by exists (rev k).
Qed.

Ltac not_suffix :=
  let H := fresh in
  intros H; apply suffix_endsWith in H; vm_compute in H; discriminate H.

Lemma value_ok_bool b : value_ok (bool_text b).
Proof. destruct b; (split; [not_in_name|split; [not_in_name|not_suffix]]). Qed.

Lemma digits_plain ds c :
  Forall (fun d => is_digit d = true) ds -> is_digit c = false -> ~ In c ds.
Proof.
  intros Hds Hc Hin. rewrite Forall_forall in Hds.
  specialize (Hds c Hin). congruence.
Qed.

Lemma value_ok_bounds r : printable_bounds r -> value_ok (bounds_value r).
Proof.
  intros (a & b & w & h & -> & Ha & Hb & Hw & Hh). unfold bounds_value.
  cbn [x y width height].
  destruct (decimal_digits_spec a) as [_ [[_ Da] _]]; [lia|].
  destruct (decimal_digits_spec b) as [_ [[_ Db] _]]; [lia|].
  destruct (decimal_digits_spec (a + w)) as [_ [[_ Dc] _]]; [lia|].
  destruct (decimal_digits_spec (b + h)) as [_ [[_ Dd] _]]; [lia|].
  assert (Hno : forall c, is_digit c = false ->
                  c <> ch "[" -> c <> ch "," -> c <> ch "]" ->
                  ~ In c (bounds_text (decimal_digits a) (decimal_digits b)
                            (decimal_digits (a + w)) (decimal_digits (b + h)))).
  { intros c Hc H1 H2 H3. unfold bounds_text. rewrite !in_app_iff.
    intros H.
    repeat match type of H with
           | _ \/ _ => destruct H as [H|H]
           end;
      try (first [exact (digits_plain _ c Da Hc H)
                 |exact (digits_plain _ c Db Hc H)
                 |exact (digits_plain _ c Dc Hc H)
                 |exact (digits_plain _ c Dd Hc H)]);
      vm_compute in H;
      repeat (destruct H as [H|H];
              [subst c; first [by apply H1|by apply H2|by apply H3]|]);
      destruct H. }
  split; [|split].
  - apply Hno; by vm_compute.
  - apply Hno; by vm_compute.
  - intros [k Hk]. unfold bounds_text in Hk. rewrite !app_assoc in Hk.
    apply app_inj_tail in Hk. destruct Hk as [_ Hk]. discriminate Hk.
Qed.

Lemma plain_until_ok name ps :
  Forall (fun p => ~ In quote (fst p) /\ value_ok (snd p)) ps ->
  Forall (fun p => name `suffix_of` fst p -> fst p = name) ps ->
  plain_until name ps.
Proof.
  induction 1 as [|p ps [Hn (Hq & _ & He)] _ IH]; intros Hs; [done|].
  apply Forall_cons_1 in Hs. destruct Hs as [Hp Hs]. simpl.
  case_match; [exact Hq|].
  split; [|by apply IH]. split; [exact Hn|]. split; [exact Hq|].
  split; [exact Hp|].
  intros [k Hk]. apply He. exists (k ++ name). by rewrite <- app_assoc.
Qed.

Lemma node_attrs_values t :
  printable t ->
  Forall (fun p => ~ In quote (fst p) /\ value_ok (snd p)) (node_attrs t).
Proof.
  intros (H1 & H2 & H3 & H4 & H5 & Hb). unfold node_attrs.
  repeat (apply List.Forall_cons;
          [split; [not_in_name
                  |first [done|apply value_ok_bool|by apply value_ok_bounds]]|]).
  apply Forall_nil.
Qed.

Lemma node_attrs_well_written t :
  printable t -> well_written (node_attrs t) t.
Proof.
  intros Hp. pose proof (node_attrs_values t Hp) as Hv.
  pose proof Hp as (H1 & H2 & H3 & H4 & H5 & Hb).
  split; [done|]. split; [|split; [|done]].
  - unfold node_attrs.
    repeat (apply List.Forall_cons;
            [split; [done|]; split;
             [repeat (apply List.Forall_cons;
                      [split; [done|]; split; [done|reflexivity]|]);
              apply Forall_nil|];
             cbn [snd];
             first [by destruct H1 as (? & ? & ?)
                   |by destruct H2 as (? & ? & ?)
                   |by destruct H3 as (? & ? & ?)
                   |by destruct H4 as (? & ? & ?)
                   |by destruct H5 as (? & ? & ?)
                   |by destruct (value_ok_bool (clickable t)) as (? & ? & ?)
                   |by destruct (value_ok_bool (enabled t)) as (? & ? & ?)
                   |by destruct (value_ok_bool (scrollable t)) as (? & ? & ?)
                   |by destruct (value_ok_bounds _ Hb) as (? & ? & ?)]|]).
    apply Forall_nil.
  - unfold fields.
    repeat (apply List.Forall_cons;
            [split;
             [apply plain_until_ok; [exact Hv|];
              unfold node_attrs;
              repeat (apply List.Forall_cons;
                      [cbn [fst]; first [by intros _|not_suffix]|]);
              apply Forall_nil
             |by vm_compute]|]).
    apply Forall_nil.
Qed.

End DumpText.

(** X7. On an attribute list written as a dump writes it, each attribute
    as its name, an equals sign and its value between double quotes, with
    a space between two attributes, [extractAttr] returns the value of
    the first attribute that bears the name and the empty string when
    none does.  This holds when the name is literal (no character with
    a meaning of its own in a pattern), has no double quote and no
    space, and every attribute before the one found is plain for the
    name: no double quote in its name or value, the name looked up not
    at the end of its longer name, and its value not ending with the
    name and an equals sign. *)
Theorem extractAttr_looks_up_written_attributes :
  forall (name : jsstring) (ps : list (jsstring * jsstring)),
    literal_name name = true ->
    ~ In quote name -> ~ In (ch " ") name ->
    AttrList.plain_until name ps ->
    extractAttr (AttrList.render_attrs ps) name = AttrList.lookup_attr name ps.
Proof. intros name ps _ Hq Hs. by apply AttrList.extractAttr_rendered. Qed.

Lemma extractAttr_looks_up_written_attributes_witness :
  extractAttr
    (AttrList.render_attrs
       [(str "text", str "OK"); (str "clickable", str "true");
        (str "long-clickable", str "false")])
    (str "clickable")
  = str "true".
Proof.
  apply (extractAttr_looks_up_written_attributes (str "clickable")
           [(str "text", str "OK"); (str "clickable", str "true");
            (str "long-clickable", str "false")]).
  - reflexivity.
  - DumpText.not_in_name.
  - DumpText.not_in_name.
  - cbn [AttrList.plain_until fst snd].
    change (jseq (str "text") (str "clickable")) with false.
    change (jseq (str "clickable") (str "clickable")) with true.
    cbv iota. split; [|DumpText.not_in_name].
    split; [DumpText.not_in_name|]. split; [DumpText.not_in_name|].
    split; DumpText.not_suffix.
Defined.

(** X8. When the tags of a text are those of a forest, each node written
    as an opening tag, the tags of its children and a closing tag, or as
    a self-closing tag when it has no children, and the attribute
    substring of each tag decodes to the fields of its node, then
    [parseUiAutomatorXml] returns a new array that stands for that
    forest: the nesting of the tags becomes the nesting of the elements,
    in the order of the text.  The heap it was given is kept and only
    extended. *)
Theorem nested_tags_build_forest :
  forall (attrs_of : UiElement -> jsstring) (self_closing : UiElement -> bool)
         (forest : list UiElement) (xml : jsstring) (h : Heap.heap),
    tokens xml = NestingFacts.forest_tokens attrs_of self_closing forest ->
    Forall (NestingFacts.every (NestingFacts.described attrs_of)) forest ->
    (exists ext,
       Heap.parseUiAutomatorXml xml h = Some (length h, h ++ ext) /\
       repr_forest (h ++ ext) forest (length h)) /\
    Heap.parsed_forest xml = Some forest.
Proof.
  intros attrs_of self_closing forest xml h Htok Hdesc. split.
  - destruct (NestingFacts.parse_described attrs_of self_closing forest xml h
                Htok Hdesc) as [Hp Hr].
    eexists. split; [exact Hp|exact Hr].
  - by eapply NestingFacts.parsed_forest_described.
Qed.

(** A button inside a frame, for the examples. *)
Definition sample_button : UiElement :=
  mkUiElement (str "com.app:id/ok") (str "OK") []
    (str "android.widget.Button") (str "com.app")
    (mkRect (JNum 10) (JNum 20) (JNum 90) (JNum 180))
    true true false [].

Definition sample_forest : list UiElement :=
  [mkUiElement [] [] [] (str "android.widget.FrameLayout") (str "com.app")
     (mkRect (JNum 0) (JNum 0) (JNum 1080) (JNum 1920))
     false true false [sample_button]].

(** The same forest as a text with a line break after each tag. *)
Definition sample_text : jsstring :=
  strq "<node text='' resource-id='' class='android.widget.FrameLayout' package='com.app' content-desc='' clickable='false' enabled='true' scrollable='false' bounds='[0,0][1080,1920]'>"
  ++ newline
  ++ strq "<node text='OK' resource-id='com.app:id/ok' class='android.widget.Button' package='com.app' content-desc='' clickable='true' enabled='true' scrollable='false' bounds='[10,20][100,200]' />"
  ++ newline ++ str "</node>" ++ newline.

Lemma sample_forest_well_written :
  Forall (NestingFacts.every
            (fun t => DumpText.well_written (DumpText.node_attrs t) t))
    sample_forest.
Proof.
  assert (Hv : forall v : jsstring,
            endsWith (str "=") v = false ->
            forallb (fun c => negb (c =? 34)%N && negb (c =? 62)%N) v = true ->
            DumpText.value_ok v).
  { intros v He Hf. rewrite forallb_forall in Hf.
    split; [|split].
    - intros Hin. specialize (Hf _ Hin). discriminate Hf.
    - intros Hin. specialize (Hf _ Hin). discriminate Hf.
    - intros Hs. apply DumpText.suffix_endsWith in Hs. congruence. }
  assert (Hp : forall t,
            DumpText.value_ok (text t) -> DumpText.value_ok (resource_id t) ->
            DumpText.value_ok (class t) -> DumpText.value_ok (package t) ->
            DumpText.value_ok (content_desc t) ->
            DumpText.printable_bounds (bounds t) ->
            DumpText.well_written (DumpText.node_attrs t) t).
  { intros t H1 H2 H3 H4 H5 H6. apply DumpText.node_attrs_well_written.
    exact (conj H1 (conj H2 (conj H3 (conj H4 (conj H5 H6))))). }
  constructor; [|constructor].
  apply NestingFacts.every_unfold. split.
  - apply Hp; try (apply Hv; reflexivity).
    exists 0, 0, 1080, 1920. split; [reflexivity|]. repeat split; by vm_compute.
  - constructor; [|constructor].
    apply NestingFacts.every_unfold. split; [|constructor].
    apply Hp; try (apply Hv; reflexivity).
    exists 10, 20, 90, 180. split; [reflexivity|]. repeat split; by vm_compute.
Defined.

Lemma nested_tags_build_forest_witness :
  Heap.parsed_forest sample_text = Some sample_forest.
Proof.
  apply (nested_tags_build_forest DumpText.node_text (fun _ => true)
           sample_forest sample_text []).
  - by vm_compute.
  - repeat constructor; by vm_compute.
Defined.

(** X9. Parsing reads back what a dump writes.  Take a forest in which
    every node is stated by its attribute list (the nine attributes that
    the parser reads are found by name and hold the fields of the node,
    the rectangle as left, top, right and bottom in decimal digits, the
    three flags as true or false), write each node as an opening tag,
    its children and a closing tag, or as a self-closing tag when it has
    no children, and put any text in which no tag begins before and
    after: [parseUiAutomatorXml] on an empty heap builds that very
    forest. *)
Theorem parse_reads_back_dump :
  forall (attr_list : UiElement -> list (jsstring * jsstring))
         (self_closing : UiElement -> bool)
         (forest : list UiElement) (pre post : jsstring),
    Forall (NestingFacts.every
              (fun t => DumpText.well_written (attr_list t) t)) forest ->
    TagFacts.tag_free pre = true -> TagFacts.tag_free post = true ->
    Heap.parsed_forest
      (pre ++ DumpText.dump (fun t => AttrList.render_attrs (attr_list t))
                self_closing forest ++ post)
    = Some forest.
Proof.
  intros attr_list self_closing forest pre post Hw Hpre Hpost.
  apply (NestingFacts.parsed_forest_described
           (fun t => AttrList.render_attrs (attr_list t)) self_closing).
  - apply DumpText.tokens_dump; [|done|done].
    revert Hw. apply List.Forall_impl. apply NestingFacts.every_impl.
    intros t Ht. by destruct (DumpText.well_written_decodes _ _ Ht).
  - revert Hw. apply List.Forall_impl. apply NestingFacts.every_impl.
    intros t Ht. by destruct (DumpText.well_written_decodes _ _ Ht).
Qed.

Lemma parse_reads_back_dump_witness :
  Heap.parsed_forest
    (str "<?xml version='1.0' encoding='UTF-8' standalone='yes' ?>"
     ++ strq "<hierarchy rotation='0'>"
     ++ DumpText.dump DumpText.node_text (fun _ => true) sample_forest
     ++ str "</hierarchy>")
  = Some sample_forest.
Proof.
  rewrite app_assoc.
  apply (parse_reads_back_dump DumpText.node_attrs (fun _ => true)
           sample_forest).
  - exact sample_forest_well_written.
  - reflexivity.
  - reflexivity.
Defined.

(** X10. The capture step returns the forest of a dump.  When what is
    left of the output of the device tool, once the trailer pattern has
    been applied and the ends trimmed, holds the envelope marker and is
    the text of a forest between texts in which no tag begins,
    [getUiHierarchy] returns a new array that reads back as that forest.
    The trailer as the tool spells it is such a text, so leaving it in
    place does not change the forest. *)
Theorem getUiHierarchy_returns_dumped_forest :
  forall (attr_list : UiElement -> list (jsstring * jsstring))
         (self_closing : UiElement -> bool)
         (forest : list UiElement) (raw pre post : jsstring),
    trim (Regex.replace_empty 0 Heap.trailer_re raw)
    = pre ++ DumpText.dump (fun t => AttrList.render_attrs (attr_list t))
               self_closing forest ++ post ->
    includes (str "<hierarchy") pre = true ->
    Forall (NestingFacts.every
              (fun t => DumpText.well_written (attr_list t) t)) forest ->
    TagFacts.tag_free pre = true -> TagFacts.tag_free post = true ->
    exists h,
      Heap.getUiHierarchy raw [] = Some (Heap.Returned 0%nat, h) /\
      Heap.reify_forest (length h) h 0%nat = Some forest.
Proof.
  intros attr_list self_closing forest raw pre post Hclean Hmark Hw Hpre Hpost.
  unfold Heap.getUiHierarchy. rewrite Hclean.
  set (xml := pre ++ _).
  assert (Hinc : includes (str "<hierarchy") xml = true).
  { apply includes_spec. apply includes_spec in Hmark.
    destruct Hmark as (a & b & ->). unfold xml.
    exists a, (b ++ DumpText.dump
                      (fun t => AttrList.render_attrs (attr_list t))
                      self_closing forest ++ post).
    by rewrite <- !app_assoc. }
  rewrite Hinc. cbn [negb].
  assert (Htok : tokens xml
                 = NestingFacts.forest_tokens
                     (fun t => AttrList.render_attrs (attr_list t))
                     self_closing forest).
  { apply DumpText.tokens_dump; [|done|done].
    revert Hw. apply List.Forall_impl. apply NestingFacts.every_impl.
    intros t Ht. by destruct (DumpText.well_written_decodes _ _ Ht). }
  assert (Hdesc : Forall (NestingFacts.every
                    (NestingFacts.described
                       (fun t => AttrList.render_attrs (attr_list t))))
                    forest).
  { revert Hw. apply List.Forall_impl. apply NestingFacts.every_impl.
    intros t Ht. by destruct (DumpText.well_written_decodes _ _ Ht). }
  destruct (NestingFacts.parse_described _ self_closing forest xml [] Htok Hdesc)
    as [Hp Hr].
  rewrite bind_unfold, Hp. eexists. split; [reflexivity|].
  apply NestingFacts.repr_forest_reify; [exact Hr|].
  pose proof (NestingFacts.layout_fuel forest 1). simpl length. lia.
Qed.

(** The output of the device tool for the sample forest, with the
    trailer as the tool spells it. *)
Definition sample_capture : jsstring :=
  str "<?xml version='1.0' encoding='UTF-8' standalone='yes' ?>"
  ++ strq "<hierarchy rotation='0'>"
  ++ DumpText.dump DumpText.node_text (fun _ => true) sample_forest
  ++ str "</hierarchy>" ++ newline
  ++ str "UI hierchary dumped to: /dev/tty" ++ newline.

Lemma getUiHierarchy_returns_dumped_forest_witness :
  exists h,
    Heap.getUiHierarchy sample_capture [] = Some (Heap.Returned 0%nat, h) /\
    Heap.reify_forest (length h) h 0%nat = Some sample_forest.
Proof.
  apply (getUiHierarchy_returns_dumped_forest DumpText.node_attrs
           (fun _ => true) sample_forest sample_capture
           (str "<?xml version='1.0' encoding='UTF-8' standalone='yes' ?>"
            ++ strq "<hierarchy rotation='0'>")
           (str "</hierarchy>" ++ newline
            ++ str "UI hierchary dumped to: /dev/tty")).
  - by vm_compute.
  - reflexivity.
  - exact sample_forest_well_written.
  - reflexivity.
  - reflexivity.
Defined.

(* ===================================================================== *)
(** ** Escaping typed text *)
(* ===================================================================== *)

Module EscapeFacts.
Import Server.

Definition escape_char (c : N) : jsstring :=
  if is_special c then [ch "\"; c] else [c].

(** Reading an escaped text as a shell does outside quotes: a backslash
    stands for the character after it. *)
Fixpoint unescape (s : jsstring) : jsstring :=
  match s with
  | [] => []
  | c :: r =>
      if (c =? ch "\")%N then
        match r with
        | d :: r' => d :: unescape r'
        | [] => []
        end
      else c :: unescape r
  end.

(** No character of the class stands without a backslash before it. *)
Fixpoint guarded (s : jsstring) : bool :=
  match s with
  | [] => true
  | c :: r =>
      if (c =? ch "\")%N then
        match r with
        | _ :: r' => guarded r'
        | [] => false
        end
      else negb (is_special c) && guarded r
  end.

Lemma match_here_escape s :
  match_here 1 escape_re s
  = match s with
    | c :: r => if is_special c then Some (r, [None; Some [c]]) else None
    | [] => None
    end.
Proof.
  unfold match_here, escape_re. destruct s as [|c r]; [done|]. simpl.
  destruct (is_special c); [|done]. do 3 f_equal.
  replace (S (length r) - length r)%nat with 1%nat by lia. done.
Qed.

Lemma search_escape s :
  forall idx,
    search_from 1 escape_re idx s
    = match drop_while (fun c => negb (is_special c)) s with
      | c :: r =>
          Some (MatchResult
                  (idx + length (take_while (fun c => negb (is_special c)) s))
                  [c] [None; Some [c]] r)
      | [] => None
      end.
Proof.
  induction s as [|c s IH]; intros idx.
  - done.
  - cbn [search_from]. rewrite match_here_escape. simpl.
    destruct (is_special c); simpl.
    + replace (S (length s) - length s)%nat with 1%nat by lia.
      do 2 f_equal. lia.
    + rewrite IH. destruct (drop_while _ s); [done|]. do 2 f_equal. lia.
Qed.

Lemma flat_map_plain s :
  Forall (fun c => negb (is_special c) = true) s ->
  flat_map escape_char s = s.
Proof.
  induction 1 as [|c s Hc _ IH]; [done|]. simpl. unfold escape_char at 1.
  apply negb_true_iff in Hc. rewrite Hc. simpl. by rewrite IH.
Qed.

Lemma replace_all_escape fuel :
  forall s, (length s < fuel)%nat ->
    replace_all fuel 1 escape_re (fun m => ch "\" :: group m 1) s
    = flat_map escape_char s.
Proof.
  induction fuel as [|fuel IH]; intros s Hlen; [lia|].
  cbn [replace_all]. unfold exec. rewrite search_escape.
  pose proof (take_drop_while (fun c => negb (is_special c)) s) as Hs.
  pose proof (take_while_all (fun c => negb (is_special c)) s) as Hall.
  pose proof (drop_while_stops (fun c => negb (is_special c)) s) as Hstop.
  destruct (drop_while (fun c => negb (is_special c)) s) as [|c r] eqn:Hd.
  - rewrite app_nil_r in Hs. rewrite Hs in Hall. symmetry.
    by apply flat_map_plain.
  - cbn [m_index m_rest]. simpl in Hstop. apply negb_false_iff in Hstop.
    remember (take_while (fun c => negb (is_special c)) s) as pre eqn:Hpre.
    clear Hpre Hd. subst s.
    rewrite flat_map_app, flat_map_plain by done.
    change (0 + length pre)%nat with (length pre).
    rewrite take_app_length. f_equal. cbn [flat_map].
    unfold escape_char at 1. rewrite Hstop. unfold group. simpl.
    f_equal. f_equal. apply IH.
    rewrite length_app in Hlen. simpl in Hlen. lia.
Qed.

Lemma escape_text_chars text : escape_text text = flat_map escape_char text.
Proof. unfold escape_text. apply replace_all_escape. lia. Qed.

Lemma unescape_escape s : unescape (flat_map escape_char s) = s.
Proof.
  induction s as [|c s IH]; [done|]. cbn [flat_map]. unfold escape_char at 1.
  destruct (is_special c) eqn:Hc.
  - simpl. change (ch "\" =? ch "\")%N with true. cbv iota. by rewrite IH.
  - simpl. destruct (c =? ch "\")%N eqn:Hb.
    + apply N.eqb_eq in Hb. subst c. discriminate Hc.
    + by rewrite IH.
Qed.

Lemma guarded_escape s : guarded (flat_map escape_char s) = true.
Proof.
  induction s as [|c s IH]; [done|]. cbn [flat_map]. unfold escape_char at 1.
  destruct (is_special c) eqn:Hc.
  - simpl. change (ch "\" =? ch "\")%N with true. cbv iota. exact IH.
  - simpl. destruct (c =? ch "\")%N eqn:Hb.
    + apply N.eqb_eq in Hb. subst c. discriminate Hc.
    + by rewrite Hc, IH.
Qed.

End EscapeFacts.

(** X11. The escaping of [type_text] works character by character: each
    of the 22 characters of the class gets one backslash in front, every
    other character is copied.  So the text can be read back by taking
    each backslash as standing for the character after it, no character
    of the class is left without a backslash before it, and the escaped
    text is longer by the number of characters of the class. *)
Theorem escape_text_lossless :
  forall text : jsstring,
    Server.escape_text text = flat_map EscapeFacts.escape_char text /\
    EscapeFacts.unescape (Server.escape_text text) = text /\
    EscapeFacts.guarded (Server.escape_text text) = true /\
    length (Server.escape_text text)
    = (length text + length (List.filter Server.is_special text))%nat.
Proof.
  intros text. rewrite EscapeFacts.escape_text_chars.
  split; [done|]. split; [apply EscapeFacts.unescape_escape|].
  split; [apply EscapeFacts.guarded_escape|].
  induction text as [|c s IH]; [done|]. cbn [flat_map List.filter].
  rewrite length_app, IH. unfold EscapeFacts.escape_char.
  destruct (Server.is_special c); simpl; lia.
Qed.

(* ===================================================================== *)
(** ** The device list: what an identifier looks like *)
(* ===================================================================== *)

Module AdbFacts.
Import Adb.

Definition no_space (s : jsstring) : Prop :=
  Forall (fun c => is_space c = false) s.

Lemma split_ws_pieces s : Forall no_space (split_ws s).
Proof.
  induction s as [|c r IH]; [by repeat constructor|]. cbn [split_ws].
  destruct (is_space c) eqn:Hc.
  - destruct r as [|d r']; [by repeat constructor|].
    destruct (is_space d); [done|]. constructor; [constructor|done].
  - destruct (split_ws r) as [|w ws]; [by repeat constructor|].
    apply Forall_cons_1 in IH. destruct IH as [Hw Hws].
    constructor; [by constructor|done].
Qed.

Lemma split_ws_head c r :
  is_space c = false -> exists w ws, split_ws (c :: r) = (c :: w) :: ws.
Proof.
  intros Hc. cbn [split_ws]. rewrite Hc.
  destruct (split_ws r) as [|w ws]; eauto.
Qed.

Lemma trimStart_stops s : stops is_space (trimStart s).
Proof.
  induction s as [|c s IH]; [done|]. simpl.
  destruct (is_space c) eqn:Hc; [done|]. simpl. exact Hc.
Qed.

Lemma trimStart_fixed s : stops is_space s -> trimStart s = s.
Proof. destruct s as [|c s]; [done|]. simpl. by intros ->. Qed.

(** A trimmed string begins with a character that is not white space. *)
Lemma trim_stops s : stops is_space (trim s).
Proof.
  unfold trim.
  pose proof (trimStart_stops s) as H1.
  destruct (trimStart_suffix (rev (trimStart s))) as [pre Hpre].
  pose proof (trimStart_stops (rev (trimStart s))) as H2.
  destruct (trimStart (rev (trimStart s))) as [|z t] eqn:Ht; [done|].
  assert (Hs : trimStart s = rev t ++ z :: rev pre).
  { rewrite <- (rev_involutive (trimStart s)), Hpre, rev_app_distr.
    simpl. by rewrite <- app_assoc. }
  simpl. destruct (rev t) as [|c u] eqn:Hr.
  - simpl. exact H2.
  - simpl. rewrite Hs in H1. exact H1.
Qed.

Lemma parse_device_line_id line :
  trim line <> [] ->
  dev_id (parse_device_line line) <> [] /\
  no_space (dev_id (parse_device_line line)).
Proof.
  intros Hne. unfold parse_device_line. cbn [dev_id].
  pose proof (trim_stops line) as Hstop.
  pose proof (split_ws_pieces (trim line)) as Hall.
  destruct (trim line) as [|c r]; [done|]. simpl in Hstop.
  destruct (split_ws_head c r Hstop) as (w & ws & Hsplit).
  rewrite Hsplit in *. split; [done|].
  by apply Forall_cons_1 in Hall as [Hw _].
Qed.


Lemma star_greedy_total {A} p (K : jsstring -> option A) s :
  (forall s', K s' <> None) -> star_greedy p K s = K (drop_while p s).
Proof.
  intros HK. induction s as [|c s IH]; simpl; [done|].
  destruct (p c); [|done]. rewrite IH.
  destruct (K (drop_while p s)) eqn:Hk; [done|]. by destruct (HK _ Hk).
Qed.



Lemma listDevices_lines output d :
  In d (listDevices output) ->
  exists line, In line (drop 1 (split 10%N (trim output))) /\
               trim line <> [] /\ d = parse_device_line line.
Proof.
  unfold listDevices. rewrite in_map_iff. intros (line & <- & Hin).
  apply filter_In in Hin. destruct Hin as [Hin Hne].
  exists line. split; [done|]. split; [|done].
  intros H. rewrite H in Hne. discriminate Hne.
Qed.

End AdbFacts.


(** X13. [resolveDevice] returns the identifier it is given whenever
    that is not the empty string, without looking at the device list; an
    empty identifier counts as none.  Without one it returns an
    identifier only when exactly one reported device has the status
    device, and then the identifier of that device, which is not empty
    and holds no white space; a device in any other state (offline,
    unauthorized) is never chosen, and with no or several devices in
    that state the call throws. *)
Theorem resolveDevice_choice :
  (forall (id output : jsstring),
     id <> [] -> Adb.resolveDevice (Some id) output = Heap.Returned id) /\
  (forall output : jsstring,
     Adb.resolveDevice (Some []) output = Adb.resolveDevice None output) /\
  (forall (output id : jsstring),
     Adb.resolveDevice None output = Heap.Returned id ->
     exists d,
       List.filter Adb.is_online (Adb.listDevices output) = [d] /\
       Adb.dev_id d = id /\ Adb.dev_status d = Some (str "device") /\
       id <> [] /\ AdbFacts.no_space id) /\
  (forall (output message : jsstring),
     Adb.resolveDevice None output = Heap.Thrown message ->
     length (List.filter Adb.is_online (Adb.listDevices output)) <> 1%nat).
Proof.
  split; [|split; [|split]].
  - intros id output Hne. by destruct id.
  - done.
  - intros output id. unfold Adb.resolveDevice.
    destruct (List.filter Adb.is_online (Adb.listDevices output))
      as [|d [|d' rest]] eqn:Hf; [done| |done].
    intros [= <-]. exists d. split; [done|]. split; [done|].
    assert (Hin : In d (List.filter Adb.is_online (Adb.listDevices output)))
      by (rewrite Hf; by left).
    apply filter_In in Hin. destruct Hin as [Hin Hon].
    destruct (AdbFacts.listDevices_lines output d Hin) as (line & _ & Hne & ->).
    destruct (AdbFacts.parse_device_line_id line Hne) as [H1 H2].
    split; [|done]. unfold Adb.is_online in Hon.
    destruct (Adb.dev_status (Adb.parse_device_line line)) as [s|]; [|done].
    unfold jseq in Hon. apply bool_decide_eq_true in Hon. by subst s.
  - intros output message. unfold Adb.resolveDevice.
    by destruct (List.filter Adb.is_online (Adb.listDevices output))
      as [|d [|d' rest]].
Qed.

(** What [adb devices -l] prints with an emulator and a phone that has
    not authorised the host. *)
Definition sample_devices : jsstring :=
  str "List of devices attached" ++ newline
  ++ str "emulator-5554          device product:sdk model:Pixel_7 transport_id:1"
  ++ newline
  ++ str "R58M123ABC             unauthorized usb:1-1 transport_id:2"
  ++ newline.

Lemma resolveDevice_choice_witness :
  exists d,
    List.filter Adb.is_online (Adb.listDevices sample_devices) = [d] /\
    Adb.dev_id d = str "emulator-5554" /\
    Adb.dev_status d = Some (str "device").
Proof.
  destruct (proj1 (proj2 (proj2 resolveDevice_choice)) sample_devices
              (str "emulator-5554")) as (d & H1 & H2 & H3 & _);
    [by vm_compute|].
  by exists d.
Defined.

(** X14. When the handler of [tap_element] taps, the element it taps is
    a node of the hierarchy that satisfies every criterion that was
    given and is not empty (the resource id verbatim or by the part
    after its last slash, the text and the content description by
    equality), the point is the centre of that element, and without an
    index the element is the only one that matches.  An empty criterion
    counts as absent, and with none left nothing is searched. *)
Theorem tap_element_taps_a_match :
  forall (rid txt cd : option jsstring) (index : option Server.index_arg)
         (forest : list UiElement) (target : UiElement) (center : Point)
         (args : list jsstring),
    Server.tap_element rid txt cd index forest = Server.Tapped target center args ->
    In target (preorder forest) /\
    selector_holds
      (mkSelector (Server.given rid) (Server.given txt) (Server.given cd)) target /\
    center = elementCenter target /\
    (index = None ->
     findElements forest
       (mkSelector (Server.given rid) (Server.given txt) (Server.given cd))
     = [target]) /\
    (Server.given rid <> None \/ Server.given txt <> None \/ Server.given cd <> None).
Proof.
  intros rid txt cd index forest target center args.
  unfold Server.tap_element.
  set (sel := mkSelector (Server.given rid) (Server.given txt) (Server.given cd)).
  assert (Hcase :
    match findElements forest sel with
    | [] => Server.NoMatch sel
    | _ =>
        if (1 <? length (findElements forest sel))%nat && Server.omitted index
        then Server.Ambiguous (findElements forest sel)
        else
          match Server.at_index (findElements forest sel)
                  (default (Server.IndexInt 0) index) with
          | None => Server.OutOfRange (length (findElements forest sel))
          | Some t =>
              Server.Tapped t (elementCenter t)
                [str "shell"; str "input"; str "tap";
                 num_to_string (point_x (elementCenter t));
                 num_to_string (point_y (elementCenter t))]
          end
    end = Server.Tapped target center args ->
    In target (preorder forest) /\ selector_holds sel target /\
    center = elementCenter target /\
    (index = None -> findElements forest sel = [target])).
  { destruct (findElements forest sel) as [|m ms] eqn:Hf; [done|].
    destruct ((1 <? length (m :: ms))%nat && Server.omitted index) eqn:Hamb;
      [done|].
    destruct (Server.at_index (m :: ms) (default (Server.IndexInt 0) index))
      as [t|] eqn:Hat; [|done].
    intros [= <- <- _].
    assert (Hin : In t (findElements forest sel)).
    { rewrite Hf. unfold Server.at_index in Hat.
      destruct (default (Server.IndexInt 0) index) as [z|]; [|done].
      destruct (z <? 0); [done|].
      revert Hat. generalize (Z.to_nat z). generalize (m :: ms).
      induction l as [|y l IH]; intros [|i] Hi; try done.
      - injection Hi as ->. by left.
      - right. by apply (IH i). }
    rewrite findElements_filter in Hin. apply filter_In in Hin.
    destruct Hin as [Hpre Hm]. apply selector_match_holds in Hm.
    split; [done|]. split; [done|]. split; [done|].
    intros ->. simpl in Hamb, Hat. rewrite andb_true_r in Hamb.
    destruct ms; [|done]. by injection Hat as ->. }
  destruct (Server.given rid) as [r|] eqn:Hr;
    [|destruct (Server.given txt) as [t|] eqn:Ht;
      [|destruct (Server.given cd) as [c|] eqn:Hc; [|done]]];
    intros H; apply Hcase in H; destruct H as (H1 & H2 & H3 & H4);
    (split; [done|]; split; [done|]; split; [done|]; split; [done|]);
    [left|right; left|right; right]; done.
Qed.

Lemma tap_element_taps_a_match_witness :
  In sample_button (preorder sample_forest) /\
  elementCenter sample_button = mkPoint (JNum 55) (JNum 110).
Proof.
  destruct (tap_element_taps_a_match (Some (str "ok")) (Some []) None None
              sample_forest sample_button (mkPoint (JNum 55) (JNum 110))
              [str "shell"; str "input"; str "tap"; str "55"; str "110"])
    as (H1 & _ & H3 & _); [by vm_compute|].
  split; [exact H1|by symmetry].
Defined.

(* ===================================================================== *)
(** ** The focused activity: what the patterns capture *)
(* ===================================================================== *)

Module ActivityFacts.
Import Activity AdbFacts.

(** Patterns without a capturing group. *)
Fixpoint group_free (r : regex) : bool :=
  match r with
  | Eps | Chr _ | Star _ _ | AtEnd => true
  | Seq r1 r2 | Alt r1 r2 => group_free r1 && group_free r2
  | Group _ _ => false
  end.

(** A pattern without groups hands the captures on as they are, and
    what it leaves is the end of what it was given. *)
Lemma run_group_free {A} r :
  group_free r = true ->
  forall s caps (k : jsstring -> captures -> option A) x,
    run r s caps k = Some x ->
    exists p s', s = p ++ s' /\ k s' caps = Some x.
Proof.
  induction r as [|p|r1 IH1 r2 IH2|r1 IH1 r2 IH2|g p|i r IH|];
    intros Hg s caps k x; simpl in *.
  - intros H. by exists [], s.
  - destruct s as [|c s]; [done|]. destruct (p c); [|done].
    intros H. by exists [c], s.
  - apply andb_true_iff in Hg. destruct Hg as [Hg1 Hg2]. intros H.
    apply (IH1 Hg1) in H. destruct H as (p1 & s1 & -> & H).
    apply (IH2 Hg2) in H. destruct H as (p2 & s2 & -> & H).
    exists (p1 ++ p2), s2. by rewrite <- app_assoc.
  - apply andb_true_iff in Hg. destruct Hg as [Hg1 Hg2].
    destruct (run r1 s caps k) eqn:H1.
    + intros [= <-]. by apply (IH1 Hg1) in H1.
    + by apply (IH2 Hg2).
  - destruct g.
    + induction s as [|c s IHs]; simpl.
      * intros H. by exists [], [].
      * assert (Hk : k (c :: s) caps = Some x ->
                     exists p0 s', c :: s = p0 ++ s' /\ k s' caps = Some x)
          by (intros Hx; by exists [], (c :: s)).
        destruct (p c); [|exact Hk].
        destruct (star_greedy p (fun s' => k s' caps) s) eqn:Hgr; [|exact Hk].
        intros [= <-]. destruct (IHs eq_refl) as (p0 & s' & -> & H).
        by exists (c :: p0), s'.
    + induction s as [|c s IHs]; simpl.
      * destruct (k [] caps) eqn:Hk; [|done]. intros [= <-]. by exists [], [].
      * destruct (k (c :: s) caps) eqn:Hk.
        -- intros [= <-]. by exists [], (c :: s).
        -- destruct (p c); [|done]. intros H.
           destruct (IHs H) as (p0 & s' & -> & H'). by exists (c :: p0), s'.
  - done.
  - destruct s; [|done]. intros H. by exists [], [].
Qed.

Lemma star_greedy_inv {A} p (K : jsstring -> option A) s x :
  star_greedy p K s = Some x ->
  exists v s', s = v ++ s' /\ Forall (fun c => p c = true) v /\ K s' = Some x.
Proof.
  induction s as [|c s IH]; simpl.
  - intros H. by exists [], [].
  - assert (Hk : K (c :: s) = Some x ->
                 exists v s', c :: s = v ++ s' /\
                              Forall (fun c => p c = true) v /\ K s' = Some x)
      by (intros Hx; by exists [], (c :: s)).
    destruct (p c) eqn:Hc; [|exact Hk].
    destruct (star_greedy p K s) eqn:Hg; [|exact Hk].
    intros [= <-]. destruct (IH eq_refl) as (v & s' & -> & Hv & H).
    exists (c :: v), s'. split; [done|]. split; [by constructor|done].
Qed.

(** A captured run of one or more characters of a class. *)
Lemma run_group_plus {A} i p s caps (k : jsstring -> captures -> option A) x :
  run (Group i (Plus true p)) s caps k = Some x ->
  exists v s', s = v ++ s' /\ v <> [] /\ Forall (fun c => p c = true) v /\
               k s' (<[i := Some v]> caps) = Some x.
Proof.
  rewrite TagFacts.run_Group. unfold Plus. rewrite run_Seq.
  destruct s as [|c s0]; [done|]. rewrite TagFacts.run_class.
  destruct (p c) eqn:Hc; [|done]. rewrite TagFacts.run_Star_greedy.
  intros H. apply star_greedy_inv in H.
  destruct H as (v & s' & -> & Hv & H).
  exists (c :: v), s'. split; [done|]. split; [done|].
  split; [by constructor|].
  replace (length (c :: v ++ s') - length s')%nat with (length (c :: v)) in H
    by (simpl; rewrite length_app; lia).
  change (c :: v ++ s') with ((c :: v) ++ s') in H.
  by rewrite take_app_length in H.
Qed.

(** The last group runs to the next white space. *)
Lemma run_group_plus_end i s caps rest caps' :
  run (Group i (Plus true non_space)) s caps
    (fun s' c => Some (s', c)) = Some (rest, caps') ->
  exists v, s = v ++ rest /\ v <> [] /\ no_space v /\
            caps' = <[i := Some v]> caps /\ stops non_space rest.
Proof.
  rewrite TagFacts.run_Group. unfold Plus. rewrite run_Seq.
  destruct s as [|c s0]; [done|]. rewrite TagFacts.run_class.
  destruct (non_space c) eqn:Hc; [|done].
  rewrite TagFacts.run_Star_greedy, star_greedy_total by done.
  intros [= <- <-].
  exists (c :: take_while non_space s0).
  split; [simpl; by rewrite take_drop_while|]. split; [done|].
  split; [|split].
  - constructor; [by apply negb_true_iff in Hc|].
    generalize (take_while_all non_space s0). apply List.Forall_impl.
    intros d Hd. by apply negb_true_iff in Hd.
  - do 2 f_equal.
    rewrite <- (take_drop_while non_space s0) at 1 3.
    assert (Hl : (S (length (take_while non_space s0
                             ++ drop_while non_space s0))
                  - length (drop_while non_space s0))%nat
                 = length (c :: take_while non_space s0))
      by (simpl; rewrite length_app; lia).
    simpl length at 1. rewrite Hl.
    exact (take_app_length (c :: take_while non_space s0)
             (drop_while non_space s0)).
  - apply drop_while_stops.
Qed.

(** What the common end of the patterns captures. *)
Definition component (pkg act rest : jsstring) : Prop :=
  pkg <> [] /\ act <> [] /\ no_space pkg /\ no_space act /\
  stops non_space rest.

Lemma run_component s caps rest caps' :
  length caps = 3%nat ->
  run component_re s caps (fun s' c => Some (s', c)) = Some (rest, caps') ->
  exists pkg act,
    s = pkg ++ ch "/" :: act ++ rest /\ component pkg act rest /\
    caps' !! 1%nat = Some (Some pkg) /\ caps' !! 2%nat = Some (Some act).
Proof.
  intros Hlen. unfold component_re. rewrite run_Seq. intros H.
  apply run_group_plus in H. destruct H as (pkg & s1 & -> & Hne1 & Hp & H).
  rewrite run_Seq, run_Chr in H.
  destruct (expect (ch "/") s1) as [s2|] eqn:He; [|done].
  apply expect_inv in He. subst s1. cbn [mbind option_bind] in H.
  apply run_group_plus_end in H.
  destruct H as (act & -> & Hne2 & Ha & -> & Hstop).
  exists pkg, act. split; [done|]. split.
  - split; [done|]. split; [done|]. split; [|done].
    revert Hp. apply List.Forall_impl. intros c Hc. by apply negb_true_iff in Hc.
  - destruct caps as [|c0 [|c1 [|c2 [|]]]]; try done.
Qed.

(** A pattern that is a list of parts without groups followed by the
    common end. *)
Definition with_component (parts : list regex) : regex :=
  fold_right Seq component_re parts.

Lemma run_with_component parts :
  forallb group_free parts = true ->
  forall s caps rest caps',
    length caps = 3%nat ->
    run (with_component parts) s caps (fun s' c => Some (s', c))
    = Some (rest, caps') ->
    exists pre pkg act,
      s = pre ++ pkg ++ ch "/" :: act ++ rest /\ component pkg act rest /\
      caps' !! 1%nat = Some (Some pkg) /\ caps' !! 2%nat = Some (Some act).
Proof.
  induction parts as [|r parts IH]; intros Hg s caps rest caps' Hlen H.
  - destruct (run_component s caps rest caps' Hlen H) as (pkg & act & Hs & Hc).
    by exists [], pkg, act.
  - simpl in Hg. apply andb_true_iff in Hg. destruct Hg as [Hr Hparts].
    cbn [with_component fold_right] in H. rewrite run_Seq in H.
    apply (run_group_free r Hr) in H. destruct H as (p & s' & -> & H).
    destruct (IH Hparts s' caps rest caps' Hlen H)
      as (pre & pkg & act & -> & Hc).
    exists (p ++ pre), pkg, act. by rewrite <- app_assoc.
Qed.

(** The six patterns are of that form. *)
Definition patterns : list (list regex) :=
  [[Lit (str "mCurrentFocus="); Star false dot; Plus true is_space];
   [Lit (str "mFocusedApp="); Star false dot; Plus true is_space];
   [Lit (str "topResumedActivity="); Lit (str "ActivityRecord{");
    Star true (none_of (ch "}")); Plus true is_space];
   [Lit (str "mResumedActivity="); Lit (str "ActivityRecord{");
    Star true (none_of (ch "}")); Plus true is_space];
   [Seq (Lit (str "ResumedActivity:")) (Plus true is_space);
    Lit (str "ActivityRecord{");
    Star true (none_of (ch "}")); Plus true is_space];
   [Lit (str "focusedApp="); Star false dot]].

Lemma group_free_Lit l : group_free (Lit l) = true.
Proof. induction l as [|c l IH]; [done|]. simpl. exact IH. Qed.

Lemma patterns_group_free :
  Forall (fun parts => forallb group_free parts = true) patterns.
Proof.
  unfold patterns. repeat constructor; simpl;
    rewrite ?group_free_Lit; reflexivity.
Qed.

Lemma exec_with_component parts text m :
  forallb group_free parts = true ->
  exec 2 (with_component parts) text = Some m ->
  exists pre rest,
    text = pre ++ group m 1 ++ ch "/" :: group m 2 ++ rest /\
    component (group m 1) (group m 2) rest.
Proof.
  intros Hg Hm. unfold exec in Hm. apply search_from_inv in Hm.
  destruct Hm as (p & q & -> & Hq & _). unfold match_here in Hq.
  apply (run_with_component parts Hg) in Hq; [|done].
  destruct Hq as (pre & pkg & act & -> & Hc & H1 & H2).
  unfold group. unfold jsstring in *. rewrite H1, H2.
  exists (p ++ pre), (m_rest m). by rewrite <- app_assoc.
Qed.

Lemma first_component_shape rs text pkg act :
  Forall (fun r => exists parts,
            forallb group_free parts = true /\ r = with_component parts) rs ->
  first_component rs text = Some (pkg, act) ->
  exists pre rest,
    text = pre ++ pkg ++ ch "/" :: act ++ rest /\ component pkg act rest.
Proof.
  induction 1 as [|r rs (parts & Hg & ->) _ IH]; [done|]. simpl.
  destruct (exec 2 (with_component parts) text) as [m|] eqn:Hm; [|exact IH].
  intros [= <- <-]. by apply (exec_with_component parts).
Qed.

(** *** The focus line of the window dump, read forwards *)

Lemma star_greedy_here {A} p (K : jsstring -> option A) u v :
  Forall (fun c => p c = true) u -> stops p v ->
  (forall a b, u = a ++ b -> a <> [] -> K (b ++ v) = None) ->
  star_greedy p K (u ++ v) = K (u ++ v).
Proof.
  intros Hu Hv. induction Hu as [|c u Hc _ IH]; intros Hnone.
  - destruct v as [|d v]; [done|]. simpl in *. by rewrite Hv.
  - simpl. rewrite Hc, IH.
    + by rewrite (Hnone [c] u eq_refl).
    + intros a b -> Ha. by apply (Hnone (c :: a) b).
Qed.

Lemma star_greedy_last {A} p (K : jsstring -> option A) u1 u2 v x :
  Forall (fun c => p c = true) u1 -> Forall (fun c => p c = true) u2 ->
  stops p v ->
  K (u2 ++ v) = Some x ->
  (forall a b, u2 = a ++ b -> a <> [] -> K (b ++ v) = None) ->
  star_greedy p K (u1 ++ u2 ++ v) = Some x.
Proof.
  intros H1 H2 Hv Hx Hnone. induction H1 as [|c u1 Hc _ IH].
  - simpl. by rewrite star_greedy_here.
  - simpl. by rewrite Hc, IH.
Qed.

Lemma star_greedy_none {A} p (K : jsstring -> option A) u v :
  Forall (fun c => p c = true) u -> stops p v ->
  (forall a b, u = a ++ b -> K (b ++ v) = None) ->
  star_greedy p K (u ++ v) = None.
Proof.
  intros Hu Hv Hnone. rewrite star_greedy_here; [|done|done|].
  - by apply (Hnone [] u).
  - intros a b Hab _. by apply (Hnone a b).
Qed.

Lemma no_space_non_space v :
  no_space v -> Forall (fun c => non_space c = true) v.
Proof.
  apply List.Forall_impl. intros c Hc. unfold non_space. by rewrite Hc.
Qed.

Lemma stops_non_space_slash {A} rest caps
    (k : jsstring -> captures -> option A) r :
  stops non_space rest ->
  run (Seq (Chr (one (ch "/"))) r) rest caps k = None.
Proof.
  intros Hstop. rewrite run_Seq, run_Chr.
  destruct rest as [|c rest]; [done|]. simpl in *.
  destruct (c =? ch "/")%N eqn:Hc; [|done].
  apply N.eqb_eq in Hc. subst c. discriminate Hstop.
Qed.

Lemma run_group_end_fwd i v rest caps :
  v <> [] -> no_space v -> stops non_space rest ->
  run (Group i (Plus true non_space)) (v ++ rest) caps
    (fun s' c => Some (s', c))
  = Some (rest, <[i := Some v]> caps).
Proof.
  intros Hne Hv Hrest. destruct v as [|c v]; [done|].
  apply Forall_cons_1 in Hv. destruct Hv as [Hc Hv].
  rewrite TagFacts.run_Group. unfold Plus. rewrite run_Seq.
  change ((c :: v) ++ rest) with (c :: v ++ rest).
  rewrite TagFacts.run_class. unfold non_space at 1. rewrite Hc. cbn [negb].
  rewrite TagFacts.run_Star_greedy, star_greedy_total by done.
  destruct (take_while_app non_space v rest (no_space_non_space v Hv) Hrest)
    as [_ Hd].
  rewrite Hd. do 3 f_equal.
  replace (length (c :: v ++ rest) - length rest)%nat
    with (length (c :: v)) by (simpl; rewrite length_app; lia).
  f_equal. exact (take_app_length (c :: v) rest).
Qed.

(** The common end on a token that holds a slash: the package is what
    stands before the last slash, the activity what stands after it. *)
Lemma run_component_fwd pkg act rest caps :
  pkg <> [] -> no_space pkg -> act <> [] -> no_space act ->
  ~ In (ch "/") act -> stops non_space rest ->
  run component_re (pkg ++ ch "/" :: act ++ rest) caps
    (fun s' c => Some (s', c))
  = Some (rest, <[2%nat := Some act]> (<[1%nat := Some pkg]> caps)).
Proof.
  intros Hp Hpn Ha Han Hslash Hrest. unfold component_re.
  rewrite run_Seq, TagFacts.run_Group. unfold Plus at 1. rewrite run_Seq.
  destruct pkg as [|c pkg']; [done|].
  apply Forall_cons_1 in Hpn. destruct Hpn as [Hc Hpn].
  change ((c :: pkg') ++ ch "/" :: act ++ rest)
    with (c :: pkg' ++ (ch "/" :: act) ++ rest).
  rewrite TagFacts.run_class. unfold non_space at 1. rewrite Hc. cbn [negb].
  rewrite TagFacts.run_Star_greedy.
  rewrite (star_greedy_last non_space _ pkg' (ch "/" :: act) rest
             (rest, <[2%nat := Some act]> (<[1%nat := Some (c :: pkg')]> caps))).
  - done.
  - by apply no_space_non_space.
  - constructor; [done|]. by apply no_space_non_space.
  - done.
  - cbv beta. change ((ch "/" :: act) ++ rest) with (ch "/" :: act ++ rest).
    rewrite run_Seq, run_Chr, expect_cons. cbn [mbind option_bind].
    rewrite run_group_end_fwd by done. do 4 f_equal.
    assert (Hl : (length (c :: pkg' ++ ch "/" :: act ++ rest)
                  - length (ch "/" :: act ++ rest))%nat
                 = length (c :: pkg')).
    { cbn [length]. rewrite !length_app. cbn [length].
      rewrite !length_app. lia. }
    rewrite Hl.
    f_equal. exact (take_app_length (c :: pkg') ((ch "/" :: act) ++ rest)).
  - intros a b Hab Hne. cbv beta.
    destruct a as [|a0 a]; [done|]. injection Hab as _ ->.
    destruct b as [|d b].
    + by apply stops_non_space_slash.
    + rewrite run_Seq, run_Chr. simpl.
      destruct (d =? ch "/")%N eqn:Hd; [|done].
      apply N.eqb_eq in Hd. subst d. exfalso. apply Hslash.
      rewrite in_app_iff. right. by left.
Qed.

(** White space and then the common end. *)
Definition spaced_component : regex := Seq (Plus true is_space) component_re.

Lemma component_rejects_space c s caps :
  is_space c = true ->
  run component_re (c :: s) caps (fun s' c' => Some (s', c')) = None.
Proof.
  intros Hc. unfold component_re.
  rewrite run_Seq, TagFacts.run_Group. unfold Plus. rewrite run_Seq.
  rewrite TagFacts.run_class. unfold non_space. by rewrite Hc.
Qed.

Lemma run_spaced_fwd ws pkg act rest caps :
  ws <> [] -> Forall (fun c => is_space c = true) ws ->
  pkg <> [] -> no_space pkg -> act <> [] -> no_space act ->
  ~ In (ch "/") act -> stops non_space rest ->
  run spaced_component (ws ++ pkg ++ ch "/" :: act ++ rest) caps
    (fun s' c => Some (s', c))
  = Some (rest, <[2%nat := Some act]> (<[1%nat := Some pkg]> caps)).
Proof.
  intros Hw Hws Hp Hpn Ha Han Hslash Hrest. unfold spaced_component.
  rewrite run_Seq. unfold Plus. rewrite run_Seq.
  destruct ws as [|w ws]; [done|].
  apply Forall_cons_1 in Hws. destruct Hws as [Hw0 Hws].
  change ((w :: ws) ++ pkg ++ ch "/" :: act ++ rest)
    with (w :: ws ++ pkg ++ ch "/" :: act ++ rest).
  rewrite TagFacts.run_class, Hw0, TagFacts.run_Star_greedy.
  rewrite star_greedy_longest
    by (intros; by apply component_rejects_space).
  assert (Hstop : stops is_space (pkg ++ ch "/" :: act ++ rest)).
  { destruct pkg as [|c pkg']; [done|]. simpl.
    by apply Forall_cons_1 in Hpn as [Hc _]. }
  destruct (take_while_app is_space ws _ Hws Hstop) as [_ Hd].
  rewrite Hd. by apply run_component_fwd.
Qed.

(** The first token after the white space holds no slash: no match. *)
Lemma run_spaced_none ws t s2 caps :
  Forall (fun c => is_space c = true) ws ->
  t <> [] -> no_space t -> ~ In (ch "/") t -> stops non_space s2 ->
  run spaced_component (ws ++ t ++ s2) caps (fun s' c => Some (s', c)) = None.
Proof.
  intros Hws Ht Htn Hslash Hs2. unfold spaced_component.
  rewrite run_Seq. unfold Plus. rewrite run_Seq.
  destruct t as [|c t']; [done|].
  pose proof Htn as Htn0. apply Forall_cons_1 in Htn. destruct Htn as [Hc Htn].
  destruct ws as [|w ws].
  - simpl. by rewrite Hc.
  - apply Forall_cons_1 in Hws. destruct Hws as [Hw0 Hws].
    change ((w :: ws) ++ (c :: t') ++ s2) with (w :: ws ++ (c :: t') ++ s2).
    rewrite TagFacts.run_class, Hw0, TagFacts.run_Star_greedy.
    rewrite star_greedy_longest
      by (intros; by apply component_rejects_space).
    assert (Hstop : stops is_space ((c :: t') ++ s2)) by exact Hc.
    destruct (take_while_app is_space ws _ Hws Hstop) as [_ Hd].
    rewrite Hd. unfold component_re.
    rewrite run_Seq, TagFacts.run_Group. unfold Plus. rewrite run_Seq.
    change ((c :: t') ++ s2) with (c :: t' ++ s2).
    rewrite TagFacts.run_class. unfold non_space at 1. rewrite Hc. cbn [negb].
    rewrite TagFacts.run_Star_greedy.
    apply star_greedy_none; [by apply no_space_non_space|done|].
    intros a b Hab. cbv beta. destruct b as [|d b].
    + by apply stops_non_space_slash.
    + rewrite run_Seq, run_Chr. simpl.
      destruct (d =? ch "/")%N eqn:Hd'; [|done].
      apply N.eqb_eq in Hd'. subst d. exfalso. apply Hslash.
      right. rewrite Hab, in_app_iff. right. by left.
Qed.

(** A text that does not end with white space begins, after its white
    space, with a token. *)
Lemma first_token u z :
  is_space z = false ->
  exists ws t u3,
    u ++ [z] = ws ++ t ++ u3 /\ Forall (fun c => is_space c = true) ws /\
    t <> [] /\ no_space t /\ (u3 = [] \/ exists c r, u3 = c :: r /\ is_space c = true) /\
    (forall c, In c t -> In c (u ++ [z])).
Proof.
  intros Hz.
  set (s := u ++ [z]).
  set (ws := take_while is_space s).
  set (r := drop_while is_space s).
  set (t := take_while non_space r).
  set (u3 := drop_while non_space r).
  exists ws, t, u3.
  assert (Hs : s = ws ++ t ++ u3).
  { unfold ws, t, u3, r. by rewrite !take_drop_while. }
  assert (Hr : r <> []).
  { unfold r, s. clear -Hz. induction u as [|c u IH]; simpl.
    - by rewrite Hz.
    - by destruct (is_space c). }
  split; [done|]. split; [apply take_while_all|]. split; [|split; [|split]].
  - pose proof (drop_while_stops is_space s) as Hstop. fold r in Hstop.
    unfold t. destruct r as [|c r']; [done|]. simpl in *.
    unfold non_space at 1. by rewrite Hstop.
  - generalize (take_while_all non_space r). apply List.Forall_impl.
    intros c Hc. by apply negb_true_iff in Hc.
  - pose proof (drop_while_stops non_space r) as Hstop. fold u3 in Hstop.
    destruct u3 as [|c r']; [by left|]. right. exists c, r'.
    split; [done|]. simpl in Hstop. by apply negb_false_iff in Hstop.
  - intros c Hc. fold s. rewrite Hs, !in_app_iff. auto.
Qed.

Lemma match_here_focus key b ws pkg act rest :
  Forall (fun c => dot c = true) b -> ~ In (ch "/") b ->
  (b = [] \/ exists b' z, b = b' ++ [z] /\ is_space z = false) ->
  ws <> [] -> Forall (fun c => is_space c = true) ws ->
  component pkg act rest -> ~ In (ch "/") act ->
  match_here 2 (focus_line_re key)
    (key ++ b ++ ws ++ pkg ++ ch "/" :: act ++ rest)
  = Some (rest, [None; Some pkg; Some act]).
Proof.
  intros Hdot Hslash Hend Hw Hws (Hp & Ha & Hpn & Han & Hrest) Hact.
  unfold match_here, focus_line_re.
  rewrite run_Seq, run_Lit, run_Seq, TagFacts.run_Star_lazy.
  erewrite (TagFacts.star_lazy_first dot _ b
              (ws ++ pkg ++ ch "/" :: act ++ rest)).
  - done.
  - intros u1 u2 Hb Hne. cbv beta.
    destruct Hend as [->|(b' & z & Hbz & Hz)]; [by destruct u1, u2|].
    assert (Hu2 : exists u2', u2 = u2' ++ [z]).
    { destruct (exists_last Hne) as (u2' & z' & ->).
      rewrite Hbz, app_assoc in Hb. apply app_inj_tail in Hb.
      destruct Hb as [_ <-]. by exists u2'. }
    destruct Hu2 as (u2' & ->).
    destruct (first_token u2' z Hz)
      as (ws0 & t0 & u3 & Hdec & Hws0 & Ht0 & Htn & Hu3 & Hin).
    rewrite Hdec, <- !app_assoc.
    apply (run_spaced_none ws0 t0); [done|done|done| |].
    + intros Hs. apply Hin in Hs. apply Hslash. rewrite Hb, in_app_iff. auto.
    + destruct Hu3 as [->|(c & r & -> & Hc)].
      * destruct ws as [|w ws']; [done|]. simpl.
        apply Forall_cons_1 in Hws as [Hw0 _]. unfold non_space. by rewrite Hw0.
      * simpl. unfold non_space. by rewrite Hc.
  - done.
  - cbv beta.
    exact (run_spaced_fwd ws pkg act rest (replicate 3 None)
             Hw Hws Hp Hpn Ha Han Hact Hrest).
Qed.

End ActivityFacts.

(** X15. Whatever [getCurrentActivity] returns was read from the output
    of one of the three commands as a package, a slash and an activity:
    both are not empty and hold no white space, and the activity runs up
    to the next white space or the end of the output, so it includes
    anything that is written right after the activity name, such as a
    closing brace. *)
Theorem getCurrentActivity_component :
  forall (windows activities displays : option jsstring)
         (pkg act : jsstring),
    Activity.getCurrentActivity windows activities displays
    = Heap.Returned (pkg, act) ->
    exists text pre rest,
      (windows = Some text \/ activities = Some text \/ displays = Some text) /\
      text = pre ++ pkg ++ ch "/" :: act ++ rest /\
      ActivityFacts.component pkg act rest.
Proof.
  intros windows activities displays pkg act.
  pose proof ActivityFacts.patterns_group_free as Hall.
  unfold ActivityFacts.patterns in Hall.
  repeat match type of Hall with
         | Forall _ (_ :: _) =>
             apply Forall_cons_1 in Hall;
             let H := fresh "Hp" in destruct Hall as [H Hall]
         end.
  assert (Hs : forall (output : option jsstring) rs,
            Forall (fun r => exists parts,
                      forallb ActivityFacts.group_free parts = true /\
                      r = ActivityFacts.with_component parts) rs ->
            Activity.strategy output rs = Some (pkg, act) ->
            exists text pre rest,
              output = Some text /\
              text = pre ++ pkg ++ ch "/" :: act ++ rest /\
              ActivityFacts.component pkg act rest).
  { intros [text|] rs Hrs; [|done]. simpl. intros H.
    destruct (ActivityFacts.first_component_shape rs text pkg act Hrs H)
      as (pre & rest & Ht & Hc).
    by exists text, pre, rest. }
  unfold Activity.getCurrentActivity.
  destruct (Activity.strategy windows _) as [r1|] eqn:H1.
  { intros [= ->]. apply Hs in H1.
    - destruct H1 as (text & pre & rest & -> & Ht & Hc).
      exists text, pre, rest. auto.
    - apply List.Forall_cons; [eexists; split; [exact Hp|reflexivity]|].
      apply List.Forall_cons; [eexists; split; [exact Hp0|reflexivity]|].
      apply List.Forall_nil. }
  destruct (Activity.strategy activities _) as [r2|] eqn:H2.
  { intros [= ->]. apply Hs in H2.
    - destruct H2 as (text & pre & rest & -> & Ht & Hc).
      exists text, pre, rest. auto.
    - apply List.Forall_cons; [eexists; split; [exact Hp1|reflexivity]|].
      apply List.Forall_cons; [eexists; split; [exact Hp2|reflexivity]|].
      apply List.Forall_cons; [eexists; split; [exact Hp3|reflexivity]|].
      apply List.Forall_nil. }
  destruct (Activity.strategy displays _) as [r3|] eqn:H3; [|done].
  intros [= ->]. apply Hs in H3.
  - destruct H3 as (text & pre & rest & -> & Ht & Hc).
    exists text, pre, rest. auto.
  - apply List.Forall_cons; [eexists; split; [exact Hp4|reflexivity]|].
    apply List.Forall_nil.
Qed.

(** What [dumpsys window windows] prints about the focus. *)
Definition sample_windows : jsstring :=
  str "  mCurrentFocus=Window{1a2b3c u0 com.app/com.app.MainActivity}"
  ++ newline
  ++ str "  mFocusedApp=ActivityRecord{4d5e6f u0 com.app/.MainActivity t12}"
  ++ newline.

Lemma getCurrentActivity_component_witness :
  exists text pre rest,
    (Some sample_windows = Some text \/ None = Some text \/ None = Some text) /\
    text = pre ++ str "com.app" ++ ch "/" :: str "com.app.MainActivity}" ++ rest /\
    ActivityFacts.component (str "com.app") (str "com.app.MainActivity}") rest.
Proof.
  apply (getCurrentActivity_component (Some sample_windows) None None).
  by vm_compute.
Defined.

(** X16. The focus line of the window dump.  When the first
    mCurrentFocus= of the output is followed, on its line, by text
    without a slash that does not end with white space, then white
    space, then a token made of a package, a slash and an activity
    without a slash, [getCurrentActivity] returns that package and that
    activity, whatever the other two commands would print.  The
    activity is the whole rest of the token: on the usual line, where
    the window description ends right after the activity name, it ends
    with the closing brace. *)
Theorem getCurrentActivity_focus_line :
  forall (a b ws pkg act rest : jsstring)
         (activities displays : option jsstring),
    (forall pre' suf',
       a ++ str "mCurrentFocus=" ++ b ++ ws ++ pkg ++ ch "/" :: act ++ rest
       = pre' ++ str "mCurrentFocus=" ++ suf' ->
       (length a <= length pre')%nat) ->
    Forall (fun c => dot c = true) b -> ~ In (ch "/") b ->
    (b = [] \/ exists b' z, b = b' ++ [z] /\ is_space z = false) ->
    ws <> [] -> Forall (fun c => is_space c = true) ws ->
    ActivityFacts.component pkg act rest -> ~ In (ch "/") act ->
    Activity.getCurrentActivity
      (Some (a ++ str "mCurrentFocus=" ++ b ++ ws ++ pkg
             ++ ch "/" :: act ++ rest))
      activities displays
    = Heap.Returned (pkg, act).
Proof.
  intros a b ws pkg act rest activities displays
    Hfirst Hdot Hslash Hend Hw Hws Hc Hact.
  unfold Activity.getCurrentActivity, Activity.strategy.
  cbn [Activity.first_component]. unfold exec, Activity.focus_re.
  rewrite (search_from_first 2 (Activity.focus_line_re (str "mCurrentFocus="))
             0 a _ rest [None; Some pkg; Some act]).
  - done.
  - intros p q -> Hq.
    destruct (match_here 2 (Activity.focus_line_re (str "mCurrentFocus=")) _)
      as [[r caps]|] eqn:Hm; [|done].
    exfalso. unfold match_here, Activity.focus_line_re in Hm.
    rewrite run_Seq in Hm. apply run_Lit_inv in Hm.
    destruct Hm as (s' & Hs & _).
    assert (Hle : (length (p ++ q) <= length p)%nat).
    { apply (Hfirst p s'). by rewrite <- app_assoc, Hs. }
    rewrite length_app in Hle. destruct q; [done|]. simpl in Hle. lia.
  - by apply ActivityFacts.match_here_focus.
Qed.

Lemma getCurrentActivity_focus_line_witness :
  Activity.getCurrentActivity (Some sample_windows) None None
  = Heap.Returned (str "com.app", str "com.app.MainActivity}").
Proof.
  apply (getCurrentActivity_focus_line (str "  ") (str "Window{1a2b3c u0")
           (str " ") (str "com.app") (str "com.app.MainActivity}")
           (newline
            ++ str "  mFocusedApp=ActivityRecord{4d5e6f u0 com.app/.MainActivity t12}"
            ++ newline) None None).
  - exact (proj2 (indexOf_first (str "mCurrentFocus=") sample_windows 2%nat
                    eq_refl)).
  - by repeat constructor.
  - DumpText.not_in_name.
  - right. exists (str "Window{1a2b3c u"), (ch "0"). by split.
  - done.
  - by repeat constructor.
  - split; [done|]. split; [done|].
    split; [by repeat constructor|]. split; [by repeat constructor|done].
  - DumpText.not_in_name.
Defined.

(* ===================================================================== *)
(** ** The parser reads attributes as text *)
(* ===================================================================== *)

Module TagText.
Import Heap AttrFacts ParserFacts.







End TagText.




(* ===================================================================== *)
(** ** Flattened records and their parents *)
(* ===================================================================== *)

Module ParentFacts.

Abbreviation entry := (nat * UiElement)%type.

(** An entry of depth [S d] comes after the entry of its parent, of depth
    [d], with deeper entries only in between. *)
Definition parent_before (pre : list entry) (d : nat) (c : UiElement) : Prop :=
  exists l1 p l2,
    pre = l1 ++ (d, p) :: l2 /\ In c (children p) /\
    Forall (fun q => (d < fst q)%nat) l2.

Lemma root_entry d c forest :
  In (d, c) (preorder_from d forest) -> In c forest.
Proof.
  unfold preorder_from. rewrite in_flat_map. intros (e & He & Hin).
  destruct e as [rid t cd cls pk b cl en sc kids]. simpl in Hin.
  destruct Hin as [Heq|Hin]; [by injection Heq as <-|].
  exfalso. fold (preorder_from (S d) kids) in Hin.
  pose proof (RenderFacts.preorder_depths_ge (S d) kids) as Hge.
  rewrite Forall_map in Hge. rewrite List.Forall_forall in Hge.
  specialize (Hge _ Hin). simpl in Hge. lia.
Qed.

Lemma split_at_entry {A} (l1 l2 pre post : list A) x :
  l1 ++ l2 = pre ++ x :: post ->
  (exists post', l1 = pre ++ x :: post' /\ post = post' ++ l2) \/
  (exists pre', pre = l1 ++ pre' /\ l2 = pre' ++ x :: post).
Proof.
  revert pre. induction l1 as [|a l1 IH]; intros pre H.
  - right. by exists pre.
  - destruct pre as [|b pre]; simpl in H.
    + injection H as -> <-. left. by exists l1.
    + injection H as -> H. destruct (IH pre H) as [(post' & -> & ->)|(pre' & -> & ->)].
      * left. by exists post'.
      * right. by exists pre'.
Qed.

Definition parents_in (l : list entry) (d0 : nat) : Prop :=
  forall pre d c post,
    l = pre ++ (S d, c) :: post -> (d0 <= d)%nat -> parent_before pre d c.

Lemma parents_in_forest d0 forest :
  Forall (fun e => forall d, parents_in (preorder_at d e) d) forest ->
  parents_in (preorder_from d0 forest) d0.
Proof.
  induction 1 as [|k ks Hk _ IH]; intros pre d c post Hl Hd.
  - by destruct pre.
  - unfold preorder_from in Hl. simpl in Hl. fold (preorder_from d0 ks) in Hl.
    apply split_at_entry in Hl.
    destruct Hl as [(post' & Hl & _)|(pre' & -> & Hl)].
    + exact (Hk d0 pre d c post' Hl Hd).
    + destruct (IH pre' d c post Hl Hd) as (l1 & p & l2 & -> & Hc & Hl2).
      exists (preorder_at d0 k ++ l1), p, l2.
      by rewrite <- app_assoc.
Qed.

Lemma parents_in_element el : forall d0, parents_in (preorder_at d0 el) d0.
Proof.
  induction el as [rid t cd cls pk b cl en sc kids IH] using UiElement_ind.
  intros d0 pre d c post Hl Hd. simpl in Hl.
  fold (preorder_from (S d0) kids) in Hl.
  destruct pre as [|q pre]; simpl in Hl.
  - injection Hl as Hq _. lia.
  - injection Hl as <- Hl.
    destruct (decide (d = d0)) as [->|Hne].
    + exists [], (mkUiElement rid t cd cls pk b cl en sc kids), pre.
      split; [done|]. split.
      * simpl. apply (root_entry (S d0)). rewrite Hl.
        apply in_app_iff. right. by left.
      * pose proof (RenderFacts.preorder_depths_ge (S d0) kids) as Hge.
        rewrite Forall_map, Hl in Hge. apply Forall_app in Hge.
        destruct Hge as [Hge _]. revert Hge. apply List.Forall_impl.
        intros x. simpl. lia.
    + destruct (parents_in_forest (S d0) kids IH pre d c post Hl)
        as (l1 & p & l2 & -> & Hc & Hl2); [lia|].
      by exists ((d0, mkUiElement rid t cd cls pk b cl en sc kids) :: l1), p, l2.
Qed.

Lemma filter_split {A} (f : A -> bool) l pre x post :
  List.filter f l = pre ++ x :: post ->
  exists pre0 post0,
    l = pre0 ++ x :: post0 /\ List.filter f pre0 = pre /\ f x = true.
Proof.
  revert pre. induction l as [|a l IH]; intros pre H; simpl in H.
  - by destruct pre.
  - destruct (f a) eqn:Ha.
    + destruct pre as [|b pre]; simpl in H.
      * injection H as -> _. by exists [], l.
      * injection H as -> H. destruct (IH pre H) as (pre0 & post0 & -> & <- & Hx).
        exists (b :: pre0), post0. simpl. by rewrite Ha.
    + destruct (IH pre H) as (pre0 & post0 & -> & <- & Hx).
      exists (a :: pre0), post0. simpl. by rewrite Ha.
Qed.

End ParentFacts.

(** X18. The records of [flattenHierarchy] are those of the nodes of the
    pre-order that lie within the depth limit, and every one of depth
    [d + 1] comes after the record of the parent of its node, which has
    depth [d], with none but deeper records in between: the parent is
    the nearest record before it that is one level up. *)
Theorem flattenHierarchy_parent_record :
  forall (forest : list UiElement) (maxDepth : option jsnum),
    let nodes :=
      List.filter (within (default (JNum 20) maxDepth))
        (preorder_from 0 forest) in
    flattenHierarchy forest maxDepth
    = map (fun p => flat_record (snd p) (fst p)) nodes /\
    forall pre d c post,
      nodes = pre ++ (S d, c) :: post ->
      exists l1 p l2,
        pre = l1 ++ (d, p) :: l2 /\ In c (children p) /\
        Forall (fun q => (d < fst q)%nat) l2.
Proof.
  intros forest maxDepth nodes. split.
  - unfold flattenHierarchy. by rewrite flatten_walk_emitted.
  - intros pre d c post Hn. subst nodes.
    set (m := default (JNum 20) maxDepth) in *.
    apply ParentFacts.filter_split in Hn.
    destruct Hn as (pre0 & post0 & Hl & <- & Hw).
    assert (Hall : Forall (fun e => forall d, ParentFacts.parents_in (preorder_at d e) d) forest).
    { apply Forall_forall. intros e _. apply ParentFacts.parents_in_element. }
    destruct (ParentFacts.parents_in_forest 0 forest Hall pre0 d c post0 Hl)
      as (l1 & p & l2 & -> & Hc & Hl2); [lia|].
    exists (List.filter (within m) l1), p, (List.filter (within m) l2).
    split; [|split; [done|]].
    + rewrite List.filter_app. simpl.
      assert (Hp : within m (d, p) = true).
      { unfold within in *. simpl in *. apply negb_true_iff.
        apply negb_true_iff in Hw.
        destruct (js_gt d m) eqn:Hg; [|done].
        by rewrite (js_gt_mono d (S d) m) in Hw by (lia || done). }
      by rewrite Hp.
    + clear -Hl2. induction Hl2 as [|q l Hq _ IH]; simpl; [constructor|].
      destruct (within m q); [by constructor|done].
Qed.

Lemma flattenHierarchy_parent_record_witness :
  exists l1 p l2,
    map (pair 0%nat) sample_forest = l1 ++ (0%nat, p) :: l2 /\
    In sample_button (children p) /\
    Forall (fun q => (0 < fst q)%nat) l2.
Proof.
  destruct (flattenHierarchy_parent_record sample_forest None) as [_ H].
  exact (H (map (pair 0%nat) sample_forest) 0%nat sample_button [] eq_refl).
Defined.
